(** * torchsample/utils.py: coordinate grids, affine maps and resamplers

    A shallow embedding of the geometric part of [torchsample/utils.py]
    ([th_iterproduct], [th_affine_2d], [th_affine_3d] and the four
    interpolation kernels), of its flattening and gathering helpers
    ([th_flatten], [th_c_flatten], [th_bc_flatten], [th_iterproduct_like],
    [th_gather_nd]), of [th_allclose] and of [th_random_choice], together
    with the properties of these functions.  The correlation functions
    (square roots) and the pickling of transforms (file input and output)
    are not embedded.

    Numbers.  Tensor entries and coordinates are rationals ([Q]): the
    arithmetic of the kernels is modelled exactly, rounding errors of the
    32-bit floats of the host library are outside the model.  Integer
    tensors (index grids, flat offsets) are [Z].

    Host library.  The operations of torch and numpy the source calls are
    modelled from their documented behaviour:
    - [torch.clamp(v, lo, hi)] is [min (max v lo) hi];
    - [Tensor.round] rounds to the nearest integer, halves to even;
    - [Tensor.long] truncates towards zero;
    - indexing a 1-D tensor by an integer tensor reads position [i] for
      [0 <= i < n], position [n + i] for [-n <= i < 0] and raises
      otherwise;
    - [view]/[view_as] raise when the element counts differ;
    - [contiguous] returns the tensor itself when it is laid out
      row-major and a row-major copy otherwise;
    - [mm] and the addition of the expanded translation raise unless the
      shapes fit: the matrix is the (2, 3) or (3, 3) matrix of the
      docstring in 2-D, a (3, 4) or (4, 4) one in 3-D.
    - [x - y] broadcasts: the sizes are aligned at the last axis and two
      extents go together when they are equal or one of them is 1;
    - [torch.index_select] takes indices of [[0, n)] only;
    - [torch.range(0, n - 1)] raises when [n - 1] is negative,
      [torch.zeros(k)] when [k] is, [torch.cat] on an empty list;
    - [torch.rand] and [torch.randperm] are an explicit argument, the
      draws of the generator.

    Layout of the file: the embedding of the source first, then the
    auxiliary definitions of the statements, then the proofs. *)

From Stdlib Require Import String Bool Arith ZArith Lia.
From Stdlib Require Import QArith Qround Qminmax Qabs Lqa List Permutation.
Import ListNotations.

Set Implicit Arguments.

(** ** Exceptions *)

Inductive PyError : Type :=
| IndexError
| ValueError
| RuntimeError
| UnboundLocalError.

Inductive Result (A : Type) : Type :=
| Ok (a : A)
| Raise (e : PyError).

Arguments Ok {A} a.
Arguments Raise {A} e.

Definition rbind {A B} (r : Result A) (k : A -> Result B) : Result B :=
  match r with
  | Ok a => k a
  | Raise e => Raise e
  end.

Declare Scope result_scope.
Delimit Scope result_scope with result.
Notation "x <- c ;; k" := (rbind c (fun x => k))
  (at level 61, c at next level, right associativity) : result_scope.

Fixpoint mapM {A B} (f : A -> Result B) (l : list A) : Result (list B) :=
  match l with
  | [] => Ok []
  | a :: l' => rbind (f a) (fun b => rbind (mapM f l') (fun bs => Ok (b :: bs)))
  end.

Definition is_ok {A} (r : Result A) : bool :=
  match r with Ok _ => true | Raise _ => false end.

(** ** Whole-array helpers *)

Fixpoint map2 {A B C} (f : A -> B -> C) (l : list A) (m : list B) : list C :=
  match l, m with
  | a :: l', b :: m' => f a b :: map2 f l' m'
  | _, _ => []
  end.

Fixpoint set_nth {A} (k : nat) (v : A) (l : list A) : list A :=
  match l, k with
  | [], _ => []
  | _ :: l', O => v :: l'
  | a :: l', S k' => a :: set_nth k' v l'
  end.

Definition arange (n : nat) : list Z := map Z.of_nat (seq 0 n).

Definition tile {A} (k : nat) (l : list A) : list A := concat (repeat l k).

Definition repeat_each {A} (k : nat) (l : list A) : list A :=
  flat_map (fun a => repeat a k) l.

Definition prodn (l : list nat) : nat := fold_right Nat.mul 1%nat l.

(** ** Index grid: [th_iterproduct] *)

(** [np.indices(dims).reshape((len(dims), -1))]: row [k] lists, in C order
    over the grid, the [k]-th index of every grid point.  numpy fills
    grid [k] by broadcasting [arange(dims[k])] along axis [k]: each of its
    entries is repeated over the trailing axes and the whole is tiled over
    the leading ones. *)
Definition np_indices_flat (dims : list nat) : list (list Z) :=
  map (fun k => tile (prodn (firstn k dims))
                  (repeat_each (prodn (skipn (S k) dims))
                     (arange (nth k dims 0%nat))))
      (seq 0 (length dims)).

(** [.T] of a 2-D array given as its list of rows, [ncols] columns wide. *)
Fixpoint transpose {A} (ncols : nat) (m : list (list A)) : list (list A) :=
  match m with
  | [] => repeat [] ncols
  | r :: rs => map2 cons r (transpose ncols rs)
  end.

(** [th_iterproduct], called on the axis sizes.  With no argument [np.indices(())] has no
    element and [reshape((0, -1))] raises. *)
Definition th_iterproduct (args : list nat) : Result (list (list Z)) :=
  match args with
  | [] => Raise ValueError
  | _ :: _ => Ok (transpose (prodn args) (np_indices_flat args))
  end.

(** The Cartesian product of the ranges, written as the specification
    words it: the first axis is the outermost loop, the last one the
    innermost. *)
Fixpoint cartesian_c_order (dims : list nat) : list (list Z) :=
  match dims with
  | [] => [[]]
  | n :: ns => flat_map (fun i => map (cons i) (cartesian_c_order ns)) (arange n)
  end.

(** ** Host numeric operations *)

Definition clamp (lo hi : Q) (v : Q) : Q := Qmin (Qmax v lo) hi.

Definition floor (v : Q) : Q := inject_Z (Qfloor v).

Definition round_half_even (v : Q) : Z :=
  let f := Qfloor v in
  match Qcompare (v - inject_Z f)%Q (1 # 2)%Q with
  | Lt => f
  | Gt => (f + 1)%Z
  | Eq => if Z.even f then f else (f + 1)%Z
  end.

Definition round (v : Q) : Q := inject_Z (round_half_even v).

Definition long (v : Q) : Z := Z.quot (Qnum v) (Zpos (Qden v)).

(** ** Floating-point rounding

    The result of one float32 (or binary64) operation is the exact result
    rounded to the nearest number of the format, ties to the even
    significand.  Overflow to an infinity is not modelled. *)

(** [2 ^ e] for an integer [e] of either sign. *)
Definition pow2 (e : Z) : Q :=
  if (0 <=? e)%Z then inject_Z (2 ^ e) else 1 / inject_Z (2 ^ (- e)).

(** [floor (log2 |q|)] of a fraction in lowest terms, not zero. *)
Definition ilog2 (q : Q) : Z :=
  let l := (Z.log2 (Z.abs (Qnum q)) - Z.log2 (Zpos (Qden q)))%Z in
  if Qle_bool (pow2 l) (Qabs q) then l else (l - 1)%Z.

(** The nearest number with [prec] significant bits and an exponent of
    [emin] at least. *)
Definition round_to (prec emin : Z) (q : Q) : Q :=
  let r := Qred q in
  if Qeq_bool r 0 then 0
  else
    let s := (Z.max (ilog2 r) emin - (prec - 1))%Z in
    inject_Z (round_half_even (r / pow2 s)) * pow2 s.

(** Rounding to float32 and to binary64 (a Python [float]). *)
Definition fl32 : Q -> Q := round_to 24 (-126).
Definition fl64 : Q -> Q := round_to 53 (-1022).

(** The float32 dot product, accumulated from the left: every product and
    every sum is rounded. *)
Fixpoint dot32_from (acc : Q) (u v : list Q) : Q :=
  match u, v with
  | a :: u', b :: v' => dot32_from (fl32 (acc + fl32 (a * b))) u' v'
  | _, _ => acc
  end.

Definition dot32 (u v : list Q) : Q := dot32_from 0 u v.

Definition vmap (f : Q -> Q) (v : list Q) : list Q := map f v.
Definition vadd (u v : list Q) : list Q := map2 Qplus u v.
Definition vsub (u v : list Q) : list Q := map2 Qminus u v.
Definition vmul (u v : list Q) : list Q := map2 Qmult u v.

Definition dot (u v : list Q) : Q := fold_right Qplus 0%Q (map2 Qmult u v).

(** ** Tensors *)

Record Tensor : Type := mkTensor {
  size : list nat;      (* x.size() *)
  stride : list Z;      (* x.stride() *)
  storage : list Q      (* the buffer the strides address *)
}.

Definition numel (x : Tensor) : nat := prodn (size x).

(** Row-major strides of a shape. *)
Fixpoint c_strides (shape : list nat) : list Z :=
  match shape with
  | [] => []
  | _ :: ns => Z.of_nat (prodn ns) :: c_strides ns
  end.

Definition is_contiguous (x : Tensor) : bool :=
  if list_eq_dec Z.eq_dec (stride x) (c_strides (size x)) then true else false.

Definition dotZ (u v : list Z) : Z := fold_right Z.add 0%Z (map2 Z.mul u v).

(** [x.contiguous()] *)
Definition contiguous (x : Tensor) : Tensor :=
  if is_contiguous x then x
  else {| size := size x;
          stride := c_strides (size x);
          storage := map (fun ix => nth (Z.to_nat (dotZ ix (stride x))) (storage x) 0%Q)
                         (cartesian_c_order (size x)) |}.

(** [x.size(k)] *)
Definition tsize (x : Tensor) (k : nat) : Result nat :=
  match nth_error (size x) k with
  | Some n => Ok n
  | None => Raise IndexError
  end.

(** [th_flatten(x)]: [x.contiguous().view(-1)]. *)
Definition th_flatten (x : Tensor) : list Q := storage (contiguous x).

Fixpoint chunks {A} (m c : nat) (l : list A) : list (list A) :=
  match c with
  | O => []
  | S c' => firstn m l :: chunks m c' (skipn m l)
  end.

(** [th_c_flatten(x)]: [x.contiguous().view(x.size(0), -1)], one row per
    channel.  With no channel the size behind [-1] cannot be inferred and
    [view] raises. *)
Definition th_c_flatten (x : Tensor) : Result (list (list Q)) :=
  match size x with
  | [] => Raise IndexError
  | O :: _ => Raise RuntimeError
  | c :: rest => Ok (chunks (prodn rest) c (storage (contiguous x)))
  end.

(** [flat[i]] for one entry [i] of an integer index tensor. *)
Definition index1 (flat : list Q) (i : Z) : Result Q :=
  let n := Z.of_nat (length flat) in
  if ((0 <=? i) && (i <? n))%Z then Ok (nth (Z.to_nat i) flat 0%Q)
  else if ((- n <=? i) && (i <? 0))%Z then Ok (nth (Z.to_nat (n + i)) flat 0%Q)
  else Raise IndexError.

(** [flat[idx]] *)
Definition index (flat : list Q) (idx : list Z) : Result (list Q) :=
  mapM (index1 flat) idx.

(** [vals.view_as(input)] *)
Definition view_as (vals : list Q) (input : Tensor) : Result Tensor :=
  if (length vals =? numel input)%nat
  then Ok {| size := size input;
             stride := c_strides (size input);
             storage := vals |}
  else Raise RuntimeError.

(** ** Coordinate grids

    A coordinate grid is a 2-D tensor given as its list of rows. *)

Definition Coords : Type := list (list Q).

Definition col (k : nat) (m : Coords) : list Q := map (fun r => nth k r 0%Q) m.

Definition set_col (k : nat) (v : list Q) (m : Coords) : Coords :=
  map2 (fun r a => set_nth k a r) m v.

(** [m[:, k]], which raises when the grid has no column [k]. *)
Definition get_col (k : nat) (m : Coords) : Result (list Q) :=
  mapM (fun r => match nth_error r k with
                 | Some a => Ok a
                 | None => Raise IndexError
                 end) m.

(** [m.mv(v)] on float32 tensors, which raises unless the rows of [m] are
    as long as [v]. *)
Definition mv (m : Coords) (v : list Q) : Result (list Q) :=
  mapM (fun r => if (length r =? length v)%nat then Ok (dot32 r v)
                 else Raise RuntimeError) m.

(** ** The store of a resampler call

    A resampler receives references to two tensors, the source and the
    coordinate grid; column assignments [coords[:, k] = ...] write into the
    grid the caller passed. *)

Record Store : Type := mkStore {
  st_input : Tensor;
  st_coords : Coords
}.

Definition SR (A : Type) : Type := Store -> Store * Result A.

Definition sret {A} (a : A) : SR A := fun s => (s, Ok a).

Definition sbind {A B} (m : SR A) (k : A -> SR B) : SR B :=
  fun s => match m s with
           | (s', Ok a) => k a s'
           | (s', Raise e) => (s', Raise e)
           end.

Definition slift {A} (r : Result A) : SR A := fun s => (s, r).

Definition get_input : SR Tensor := fun s => (s, Ok (st_input s)).

Definition get_coords : SR Coords := fun s => (s, Ok (st_coords s)).

(** [input.size(k)] *)
Definition input_size (k : nat) : SR Z :=
  fun s => (s, rbind (tsize (st_input s) k) (fun n => Ok (Z.of_nat n))).

(** [coords[:, k]] *)
Definition read_col (k : nat) : SR (list Q) :=
  fun s => (s, get_col k (st_coords s)).

(** [coords[:, k] = v] *)
Definition write_col (k : nat) (v : list Q) : SR unit :=
  fun s => ({| st_input := st_input s; st_coords := set_col k v (st_coords s) |},
            Ok tt).

Declare Scope sr_scope.
Delimit Scope sr_scope with sr.
Notation "x <- c ;; k" := (sbind c (fun x => k))
  (at level 61, c at next level, right associativity) : sr_scope.
Notation "c ;;; k" := (sbind c (fun _ => k))
  (at level 61, right associativity) : sr_scope.

(** [torch.LongTensor(input.stride())[1:][k]] *)
Definition spatial_stride (input : Tensor) (k : nat) : Result Z :=
  match nth_error (tl (stride input)) k with
  | Some s => Ok s
  | None => Raise IndexError
  end.

(** ** Nearest-neighbour resamplers *)

Definition clamp_round (hi : Z) (c : list Q) : list Q :=
  vmap round (vmap (clamp 0 (inject_Z hi)) c).

(** [th_nearest_interp_2d(input, coords)], utils.py lines 112-128. *)
Definition th_nearest_interp_2d : SR Tensor :=
  (c0 <- read_col 0 ;;
   h <- input_size 1 ;;
   write_col 0 (clamp_round (h - 1) c0) ;;;
   c1 <- read_col 1 ;;
   w <- input_size 2 ;;
   write_col 1 (clamp_round (w - 1) c1) ;;;
   input <- get_input ;;
   let stride := map (fun s => fl32 (inject_Z s)) (tl (stride input)) in
   coords <- get_coords ;;
   idx_f <- slift (mv coords stride) ;;
   let idx := map long idx_f in
   input_flat <- slift (th_c_flatten input) ;;
   mapped_vals <- slift (mapM (fun channel => index channel idx) input_flat) ;;
   slift (view_as (concat mapped_vals) input))%sr.

(** [th_nearest_interp_3d(input, coords)], utils.py lines 209-225: one
    gather from the whole flattened tensor, no loop over the channels. *)
Definition th_nearest_interp_3d : SR Tensor :=
  (c0 <- read_col 0 ;;
   d <- input_size 1 ;;
   write_col 0 (clamp_round (d - 1) c0) ;;;
   c1 <- read_col 1 ;;
   h <- input_size 2 ;;
   write_col 1 (clamp_round (h - 1) c1) ;;;
   c2 <- read_col 2 ;;
   w <- input_size 3 ;;
   write_col 2 (clamp_round (w - 1) c2) ;;;
   input <- get_input ;;
   let stride := map (fun s => fl32 (inject_Z s)) (tl (stride input)) in
   coords <- get_coords ;;
   idx <- slift (mv coords stride) ;;
   let input_flat := th_flatten input in
   mapped_vals <- slift (index input_flat (map long idx)) ;;
   slift (view_as mapped_vals input))%sr.

(** ** Multilinear resamplers *)

(** [v.mul(s).long()] for a float32 tensor [v] and a stride [s]: the
    product is a float32 one. *)
Definition scaled_long (s : Z) (v : list Q) : list Z :=
  map long (vmap (fun a => fl32 (a * fl32 (inject_Z s))) v).

(** The weighted sum [x_mapped] of [th_bilinear_interp_2d]. *)
Definition x_mapped_2d (vals_00 vals_10 vals_01 vals_11 xd yd : list Q)
  : list Q :=
  let xm1 := vmap (fun a => 1 - a) xd in
  let ym1 := vmap (fun a => 1 - a) yd in
  vadd (vadd (vadd (vmul (vmul vals_00 xm1) ym1)
                   (vmul (vmul vals_10 xd) ym1))
             (vmul (vmul vals_01 xm1) yd))
       (vmul (vmul vals_11 xd) yd).

(** The body of [th_bilinear_interp_2d] once the two coordinate columns
    [c0 = coords[:,0]], [c1 = coords[:,1]] and the sizes [h = input.size(1)],
    [w = input.size(2)] are read; it touches no tensor of the caller. *)
Definition bilinear_2d_body (input : Tensor) (h w : Z) (c0 c1 : list Q)
  : Result Tensor :=
  (let x := vmap (clamp 0 (inject_Z (h - 2))) c0 in
   let x0 := vmap floor x in
   let x1 := vmap (fun a => a + 1) x0 in
   let y := vmap (clamp 0 (inject_Z (w - 2))) c1 in
   let y0 := vmap floor y in
   let y1 := vmap (fun a => a + 1) y0 in
   let xd := vsub x x0 in
   let yd := vsub y y0 in
   s0 <- spatial_stride input 0 ;;
   let x0_ix := scaled_long s0 x0 in
   let x1_ix := scaled_long s0 x1 in
   s1 <- spatial_stride input 1 ;;
   let y0_ix := scaled_long s1 y0 in
   let y1_ix := scaled_long s1 y1 in
   let input_flat := th_flatten input in
   vals_00 <- index input_flat (map2 Z.add x0_ix y0_ix) ;;
   vals_10 <- index input_flat (map2 Z.add x1_ix y0_ix) ;;
   vals_01 <- index input_flat (map2 Z.add x0_ix y1_ix) ;;
   vals_11 <- index input_flat (map2 Z.add x1_ix y1_ix) ;;
   let x_mapped := x_mapped_2d vals_00 vals_10 vals_01 vals_11 xd yd in
   view_as x_mapped input)%result.

(** [th_bilinear_interp_2d(input, coords)], utils.py lines 131-169. *)
Definition th_bilinear_interp_2d : SR Tensor :=
  (c0 <- read_col 0 ;;
   h <- input_size 1 ;;
   c1 <- read_col 1 ;;
   w <- input_size 2 ;;
   input <- get_input ;;
   slift (bilinear_2d_body input h w c0 c1))%sr.

Definition add3 (a b c : list Z) : list Z := map2 Z.add (map2 Z.add a b) c.

(** The weighted sum [x_mapped] of [th_trilinear_interp_3d]. *)
Definition x_mapped_3d
    (vals_000 vals_100 vals_010 vals_001 vals_101 vals_011 vals_110 vals_111
     xd yd zd : list Q) : list Q :=
  let xm1 := vmap (fun a => 1 - a) xd in
  let ym1 := vmap (fun a => 1 - a) yd in
  let zm1 := vmap (fun a => 1 - a) zd in
  vadd (vadd (vadd (vadd (vadd (vadd (vadd
    (vmul (vmul (vmul vals_000 xm1) ym1) zm1)
    (vmul (vmul (vmul vals_100 xd) ym1) zm1))
    (vmul (vmul (vmul vals_010 xm1) yd) zm1))
    (vmul (vmul (vmul vals_001 xm1) ym1) zd))
    (vmul (vmul (vmul vals_101 xd) ym1) zd))
    (vmul (vmul (vmul vals_011 xm1) yd) zd))
    (vmul (vmul (vmul vals_110 xd) yd) zm1))
    (vmul (vmul (vmul vals_111 xd) yd) zd).

(** The body of [th_trilinear_interp_3d] once the three coordinate
    columns and the three sizes are read. *)
Definition trilinear_3d_body (input : Tensor) (d h w : Z) (c0 c1 c2 : list Q)
  : Result Tensor :=
  (let x := vmap (clamp 0 (inject_Z (d - 2))) c0 in
   let x0 := vmap floor x in
   let x1 := vmap (fun a => a + 1) x0 in
   let y := vmap (clamp 0 (inject_Z (h - 2))) c1 in
   let y0 := vmap floor y in
   let y1 := vmap (fun a => a + 1) y0 in
   let z := vmap (clamp 0 (inject_Z (w - 2))) c2 in
   let z0 := vmap floor z in
   let z1 := vmap (fun a => a + 1) z0 in
   let xd := vsub x x0 in
   let yd := vsub y y0 in
   let zd := vsub z z0 in
   s0 <- spatial_stride input 0 ;;
   let x0_ix := scaled_long s0 x0 in
   let x1_ix := scaled_long s0 x1 in
   s1 <- spatial_stride input 1 ;;
   let y0_ix := scaled_long s1 y0 in
   let y1_ix := scaled_long s1 y1 in
   s2 <- spatial_stride input 2 ;;
   let z0_ix := scaled_long s2 z0 in
   let z1_ix := scaled_long s2 z1 in
   let input_flat := th_flatten input in
   vals_000 <- index input_flat (add3 x0_ix y0_ix z0_ix) ;;
   vals_100 <- index input_flat (add3 x1_ix y0_ix z0_ix) ;;
   vals_010 <- index input_flat (add3 x0_ix y1_ix z0_ix) ;;
   vals_001 <- index input_flat (add3 x0_ix y0_ix z1_ix) ;;
   vals_101 <- index input_flat (add3 x1_ix y0_ix z1_ix) ;;
   vals_011 <- index input_flat (add3 x0_ix y1_ix z1_ix) ;;
   vals_110 <- index input_flat (add3 x1_ix y1_ix z0_ix) ;;
   vals_111 <- index input_flat (add3 x1_ix y1_ix z1_ix) ;;
   let x_mapped :=
     x_mapped_3d vals_000 vals_100 vals_010 vals_001
                 vals_101 vals_011 vals_110 vals_111 xd yd zd in
   view_as x_mapped input)%result.

(** [th_trilinear_interp_3d(input, coords)], utils.py lines 229-282. *)
Definition th_trilinear_interp_3d : SR Tensor :=
  (c0 <- read_col 0 ;;
   d <- input_size 1 ;;
   c1 <- read_col 1 ;;
   h <- input_size 2 ;;
   c2 <- read_col 2 ;;
   w <- input_size 3 ;;
   input <- get_input ;;
   slift (trilinear_3d_body input d h w c0 c1 c2))%sr.

(** ** Affine coordinate mapper *)

(** The phases of a transform call, logged as they complete. *)
Inductive Phase : Type :=
| GridGenerated
| CoordsMapped
| Resampled.

Definition Traced (A : Type) : Type := (list Phase * Result A)%type.

Definition tret {A} (a : A) : Traced A := ([], Ok a).

Definition tbind {A B} (m : Traced A) (k : A -> Traced B) : Traced B :=
  match m with
  | (t, Ok a) => let (t', r) := k a in (t ++ t', r)
  | (t, Raise e) => (t, Raise e)
  end.

Definition tlift {A} (r : Result A) : Traced A := ([], r).

Definition tick (p : Phase) : Traced unit := ([p], Ok tt).

Declare Scope traced_scope.
Delimit Scope traced_scope with traced.
Notation "x <- c ;; k" := (tbind c (fun x => k))
  (at level 61, c at next level, right associativity) : traced_scope.
Notation "c ;;; k" := (tbind c (fun _ => k))
  (at level 61, right associativity) : traced_scope.

Definition Matrix : Type := list (list Q).

(** [coords[:, k] = coords[:, k] + delta] *)
Definition shift_col (k : nat) (delta : Q) (m : Coords) : Coords :=
  set_col k (vmap (fun a => a + delta) (col k m)) m.

(** [x.size(k) / 2. + 0.5] *)
Definition center_offset (n : nat) : Q := inject_Z (Z.of_nat n) / 2 + (1 # 2).

(** [coords.mm(A.t().contiguous()) + b.expand_as(coords)] for a grid of
    [D] columns, over exact rationals: entry [(p, i)] is the dot product of
    row [p] of the grid with row [i] of [A], plus [b[i]].  The rows of [A]
    have [D] entries and [b] has one entry per row of [A]; [A] has [D]
    rows, or a single one, and then its column is broadcast over the [D]
    columns of the grid. *)
Definition affine_map (D : nat) (coords : Coords) (A : Matrix) (b : list Q)
  : Result Coords :=
  if ((length A =? D)%nat && forallb (fun a => (length a =? D)%nat) A
      && (length b =? D)%nat)%bool
  then Ok (map (fun r => map2 Qplus (map (dot r) A) b) coords)
  else
    match A, b with
    | [a], [b0] =>
        if (length a =? D)%nat
        then Ok (map (fun r => repeat (dot r a + b0) D) coords)
        else Raise RuntimeError
    | _, _ => Raise RuntimeError
    end.

(** The call [resampler(x, new_coords)]: the grid is a temporary of the
    caller, only the returned tensor is kept. *)
Definition call (resampler : SR Tensor) (x : Tensor) (coords : Coords)
  : Result Tensor :=
  snd (resampler {| st_input := x; st_coords := coords |}).

(** [th_affine_2d(x, matrix, mode, center)], utils.py lines 54-109.  The
    [if]/[elif] on the mode has no [else]: with another mode
    [x_transformed] is unbound at the [return]. *)
Definition th_affine_2d (x : Tensor) (matrix : Matrix) (mode : string)
    (center : bool) : Traced Tensor :=
  (let A := map (firstn 2) (firstn 2 matrix) in
   b <- tlift (get_col 2 (firstn 2 matrix)) ;;
   h <- tlift (tsize x 1) ;;
   w <- tlift (tsize x 2) ;;
   grid <- tlift (th_iterproduct [h; w]) ;;
   tick GridGenerated ;;;
   let coords := map (map inject_Z) grid in
   let coords :=
     if center
     then shift_col 1 (- center_offset w) (shift_col 0 (- center_offset h) coords)
     else coords in
   new_coords <- tlift (affine_map 2 coords A b) ;;
   tick CoordsMapped ;;;
   let new_coords :=
     if center
     then shift_col 1 (center_offset w) (shift_col 0 (center_offset h) new_coords)
     else new_coords in
   if (mode =? "nearest")%string then
     x_transformed <- tlift (call th_nearest_interp_2d x new_coords) ;;
     tick Resampled ;;; tret x_transformed
   else if (mode =? "bilinear")%string then
     x_transformed <- tlift (call th_bilinear_interp_2d x new_coords) ;;
     tick Resampled ;;; tret x_transformed
   else tlift (Raise UnboundLocalError))%traced.

(** [th_affine_3d(x, matrix, mode, center)], utils.py lines 172-206. *)
Definition th_affine_3d (x : Tensor) (matrix : Matrix) (mode : string)
    (center : bool) : Traced Tensor :=
  (let A := map (firstn 3) (firstn 3 matrix) in
   b <- tlift (get_col 3 (firstn 3 matrix)) ;;
   d <- tlift (tsize x 1) ;;
   h <- tlift (tsize x 2) ;;
   w <- tlift (tsize x 3) ;;
   grid <- tlift (th_iterproduct [d; h; w]) ;;
   tick GridGenerated ;;;
   let coords := map (map inject_Z) grid in
   let coords :=
     if center
     then shift_col 2 (- center_offset w)
            (shift_col 1 (- center_offset h)
               (shift_col 0 (- center_offset d) coords))
     else coords in
   new_coords <- tlift (affine_map 3 coords A b) ;;
   tick CoordsMapped ;;;
   let new_coords :=
     if center
     then shift_col 2 (center_offset w)
            (shift_col 1 (center_offset h)
               (shift_col 0 (center_offset d) new_coords))
     else new_coords in
   if (mode =? "nearest")%string then
     x_transformed <- tlift (call th_nearest_interp_3d x new_coords) ;;
     tick Resampled ;;; tret x_transformed
   else if (mode =? "trilinear")%string then
     x_transformed <- tlift (call th_trilinear_interp_3d x new_coords) ;;
     tick Resampled ;;; tret x_transformed
   else tlift (Raise UnboundLocalError))%traced.

(** ** Frame conditions of a resampler call *)

Definition keeps_input {A} (m : SR A) : Prop :=
  forall s, st_input (fst (m s)) = st_input s.

Definition keeps_coords {A} (m : SR A) : Prop :=
  forall s, st_coords (fst (m s)) = st_coords s.

(** The grid a nearest-neighbour resampler leaves in the store: column [k]
    clamped to [[0, size_k - 1]] and rounded. *)
Definition snap (n : nat) (v : Q) : Q :=
  round (clamp 0 (inject_Z (Z.of_nat n - 1)) v).

Definition nearest_grid_2d (h w : nat) (coords : Coords) : Coords :=
  map (fun r => set_nth 1 (snap w (nth 1 r 0%Q))
                  (set_nth 0 (snap h (nth 0 r 0%Q)) r)) coords.

Definition nearest_grid_3d (d h w : nat) (coords : Coords) : Coords :=
  map (fun r => set_nth 2 (snap w (nth 2 r 0%Q))
                  (set_nth 1 (snap h (nth 1 r 0%Q))
                     (set_nth 0 (snap d (nth 0 r 0%Q)) r))) coords.

(** ** Inputs used in the statements *)

(** The identity transform as a 3 by 3 matrix. *)
Definition eye3 : Matrix := [[1; 0; 0]; [0; 1; 0]; [0; 0; 1]]%Q.


(** A tensor in row-major (C order) layout whose buffer holds exactly its
    elements. *)
Definition row_major (x : Tensor) : Prop :=
  stride x = c_strides (size x) /\ length (storage x) = numel x.

(** A grid whose first two columns are clamped to [[0, hi0]] and
    [[0, hi1]]. *)
Definition clamp_grid (hi0 hi1 : Z) (coords : Coords) : Coords :=
  map (fun r => set_nth 1 (clamp 0 (inject_Z hi1) (nth 1 r 0%Q))
                  (set_nth 0 (clamp 0 (inject_Z hi0) (nth 0 r 0%Q)) r)) coords.

(** Both coordinates of a row lie in [[0, hi0]] and [[0, hi1]]. *)
Definition row_within (hi0 hi1 : Z) (r : list Q) : Prop :=
  (0 <= nth 0 r 0 /\ nth 0 r 0 <= inject_Z hi0) /\
  (0 <= nth 1 r 0 /\ nth 1 r 0 <= inject_Z hi1).

(** A 1 x 2 x 2 source and a grid with out-of-range and fractional
    coordinates. *)
Definition small_image : Tensor :=
  mkTensor [1; 2; 2]%nat [4; 2; 1]%Z [10; 20; 30; 40]%Q.

Definition stray_grid : Coords :=
  [[-5 # 1; 7]; [1 # 3; 1]; [0; 1 # 2]; [9; -2 # 1]]%Q.

(** A 1 x 2 x 3 image and a 1 x 2 x 2 x 2 volume. *)
Definition ramp_image : Tensor :=
  mkTensor [1; 2; 3]%nat [6; 3; 1]%Z [10; 11; 12; 13; 14; 15]%Q.


Definition ramp_volume : Tensor :=
  mkTensor [1; 2; 2; 2]%nat [8; 4; 2; 1]%Z [1; 2; 3; 4; 5; 6; 7; 8]%Q.

(** The identity transform as a 4 by 4 matrix. *)
Definition eye4 : Matrix :=
  [[1; 0; 0; 0]; [0; 1; 0; 0]; [0; 0; 1; 0]; [0; 0; 0; 1]]%Q.

(** ** Corner weights of the multilinear resamplers

    For per-axis fractions [xd], [yd] (and [zd]) the weight of a corner is
    the product, over the axes, of the fraction where the corner takes the
    ceil and of its complement where it takes the floor.  Corners are
    listed in the order of the source: 00, 10, 01, 11 and 000, 100, 010,
    001, 101, 011, 110, 111. *)

Definition Qsum (l : list Q) : Q := fold_right Qplus 0%Q l.

Definition corner_weights_2d (xd yd : Q) : list Q :=
  [(1 - xd) * (1 - yd); xd * (1 - yd); (1 - xd) * yd; xd * yd]%Q.

Definition corner_weights_3d (xd yd zd : Q) : list Q :=
  [(1 - xd) * (1 - yd) * (1 - zd); xd * (1 - yd) * (1 - zd);
   (1 - xd) * yd * (1 - zd); (1 - xd) * (1 - yd) * zd;
   xd * (1 - yd) * zd; (1 - xd) * yd * zd;
   xd * yd * (1 - zd); xd * yd * zd]%Q.

(** Entry [p] of each array of a list of arrays. *)
Definition at_pos (p : nat) (arrays : list (list Q)) : list Q :=
  map (fun a => nth p a 0%Q) arrays.

(** The fraction [xd] the multilinear resamplers derive from a coordinate
    [c] on an axis of size [n]: clamp, then subtract the floor. *)
Definition axis_frac (n : Z) (c : Q) : Q :=
  let x := clamp 0 (inject_Z (n - 2)) c in
  (x - floor x)%Q.

(** A 2 x 2 x 2 tensor: channel 0 all zeros, channel 1 all ones. *)
Definition zeros_ones : Tensor :=
  mkTensor [2; 2; 2]%nat [4; 2; 1]%Z [0; 0; 0; 0; 1; 1; 1; 1]%Q.

(** A 1 x 3 x 1 image (one column) and a matrix sending every grid point
    to the coordinate (1, 0). *)
Definition column_image : Tensor :=
  mkTensor [1; 3; 1]%nat [3; 1; 1]%Z [10; 20; 30]%Q.

Definition to_row_one : Matrix := [[0; 0; 1]; [0; 0; 0]]%Q.

(** A 1 x 3 x 3 x 1 volume and a matrix sending every grid point to the
    coordinate (1, 0, 0). *)
Definition slab_volume : Tensor :=
  mkTensor [1; 3; 3; 1]%nat [9; 3; 1; 1]%Z [1; 2; 3; 4; 5; 6; 7; 8; 9]%Q.

Definition to_plane_one : Matrix :=
  [[0; 0; 0; 1]; [0; 0; 0; 0]; [0; 0; 0; 0]]%Q.


(** The rotation by a half turn: an orthonormal linear part, no
    translation. *)
Definition half_turn : Matrix := [[-1 # 1; 0; 0]; [0; -1 # 1; 0]; [0; 0; 1]]%Q.


(** Entry [(ch, i, j)] of a row-major tensor of width [w] and height [h]. *)
Definition pixel (x : Tensor) (ch i j : nat) : Q :=
  match size x with
  | [_; h; w] => nth (ch * (h * w) + i * w + j) (storage x) 0%Q
  | _ => 0%Q
  end.

(** The flat offset, inside one channel of [h] rows and [w] columns, that
    the nearest resampler reads for the coordinate row [r]. *)
Definition nearest_offset (h w : nat) (r : list Q) : Z :=
  (round_half_even (clamp 0 (inject_Z (Z.of_nat h - 1)) (nth 0 r 0%Q)) * Z.of_nat w
   + round_half_even (clamp 0 (inject_Z (Z.of_nat w - 1)) (nth 1 r 0%Q)))%Z.

(** ** The two halves of [th_affine_2d]: mapping, then resampling *)


(** The grid [new_coords] of [th_affine_2d]. *)
Definition mapped_grid_2d (h w : nat) (matrix : Matrix) (center : bool)
  : Result Coords :=
  (let A := map (firstn 2) (firstn 2 matrix) in
   b <- get_col 2 (firstn 2 matrix) ;;
   let coords := map (map inject_Z) (cartesian_c_order [h; w]) in
   let coords :=
     if center
     then shift_col 1 (- center_offset w) (shift_col 0 (- center_offset h) coords)
     else coords in
   new_coords <- affine_map 2 coords A b ;;
   Ok (if center
       then shift_col 1 (center_offset w) (shift_col 0 (center_offset h) new_coords)
       else new_coords))%result.

(** The dispatch on the mode at the end of [th_affine_2d]. *)
Definition resample_2d (mode : string) (x : Tensor) (new_coords : Coords)
  : Result Tensor :=
  if (mode =? "nearest")%string then call th_nearest_interp_2d x new_coords
  else if (mode =? "bilinear")%string then call th_bilinear_interp_2d x new_coords
  else Raise UnboundLocalError.



(** The row and column index the nearest resampler reads for a source
    coordinate [u] on an axis of size [n]. *)
Definition nearest_index (n : nat) (u : Q) : nat :=
  Z.to_nat (round_half_even (clamp 0 (inject_Z (Z.of_nat n - 1)) u)).

(** A transposed view of the 1 x 2 x 2 image with rows (1, 3) and (2, 4):
    the buffer holds [1; 2; 3; 4] and the two spatial strides are
    swapped. *)
Definition transposed_view : Tensor :=
  mkTensor [1; 2; 2]%nat [4; 1; 2]%Z [1; 2; 3; 4]%Q.

(** ** The other tensor helpers of utils.py *)

(** [th_iterproduct_like(x)], utils.py lines 44-45. *)
Definition th_iterproduct_like (x : Tensor) : Result (list (list Z)) :=
  th_iterproduct (size x).

(** [coords.mv(v)] on integer tensors. *)
Definition mvZ (m : list (list Z)) (v : list Z) : Result (list Z) :=
  mapM (fun r => if (length r =? length v)%nat then Ok (dotZ r v)
                 else Raise RuntimeError) m.

(** [torch.index_select(flat, 0, inds)]: every index must lie in
    [[0, n)]. *)
Definition index_select (flat : list Q) (inds : list Z) : Result (list Q) :=
  mapM (fun i => if ((0 <=? i) && (i <? Z.of_nat (length flat)))%Z
                 then Ok (nth (Z.to_nat i) flat 0%Q)
                 else Raise IndexError) inds.

(** [th_gather_nd(x, coords)], utils.py lines 48-51. *)
Definition th_gather_nd (x : Tensor) (coords : list (list Z))
  : Result (list Q) :=
  (inds <- mvZ coords (stride x) ;;
   index_select (th_flatten x) inds)%result.

(** [th_bc_flatten(x)], utils.py lines 32-37:
    [x.contiguous().view(x.size(0), x.size(1), -1)], one block per batch
    entry, one row per channel.  With no batch entry or no channel the size
    behind [-1] cannot be inferred and [view] raises. *)
Definition th_bc_flatten (x : Tensor) : Result (list (list (list Q))) :=
  match size x with
  | [] | [_] => Raise IndexError
  | b :: c :: rest =>
      match (b * c)%nat with
      | O => Raise RuntimeError
      | _ => Ok (map (chunks (prodn rest) c)
                     (chunks (c * prodn rest) b (storage (contiguous x))))
      end
  end.

(** The element of [x] at the index tuple [ix]: the buffer entry at the
    offset the strides give. *)
Definition element (x : Tensor) (ix : list Z) : Q :=
  nth (Z.to_nat (dotZ ix (stride x))) (storage x) 0%Q.

(** An index tuple inside a shape. *)
Definition in_shape (ix : list Z) (shape : list nat) : Prop :=
  Forall2 (fun i n => (0 <= i < Z.of_nat n)%Z) ix shape.

(** ** The shape of what a resampler returns *)

(** Whatever [m] returns is a row-major tensor of the size of [t]. *)
Definition views_as (t : Tensor) (m : SR Tensor) : Prop :=
  forall s out, snd (m s) = Ok out -> size out = size t /\ row_major out.

(** Whatever [m] returns is a row-major tensor of the size of the source
    tensor of the call. *)
Definition returns_view (m : SR Tensor) : Prop :=
  forall s out,
    snd (m s) = Ok out -> size out = size (st_input s) /\ row_major out.

(** Every entry of [l] lies between [lo] and [hi]. *)
Definition within (lo hi : Q) (l : list Q) : Prop :=
  Forall (fun v => lo <= v /\ v <= hi) l.

(** A 2 x 1 x 2 x 2 volume: two channels. *)
Definition two_channel_volume : Tensor :=
  mkTensor [2; 1; 2; 2]%nat [4; 4; 2; 1]%Z [1; 2; 3; 4; 5; 6; 7; 8]%Q.

(** ** Closeness of two tensors: [th_allclose] *)

(** The extents of [x - y].  The two sizes are aligned at the last axis;
    two extents go together when they are equal or one of them is 1, and
    a missing leading axis counts as 1.  Both lists come last axis
    first. *)
Fixpoint broadcast_rev (a b : list nat) : Result (list nat) :=
  match a, b with
  | [], _ => Ok b
  | _, [] => Ok a
  | m :: a', n :: b' =>
      (rest <- broadcast_rev a' b' ;;
       if (m =? n)%nat then Ok (m :: rest)
       else if (m =? 1)%nat then Ok (n :: rest)
       else if (n =? 1)%nat then Ok (m :: rest)
       else Raise RuntimeError)%result
  end.

Definition broadcast_shape (a b : list nat) : Result (list nat) :=
  (s <- broadcast_rev (rev a) (rev b) ;; Ok (rev s))%result.

(** Strides of a tensor seen at a broadcast shape: an axis that is
    stretched, or that the tensor does not have, gets stride 0. *)
Fixpoint expand_strides_rev (sz : list nat) (st : list Z) (target : list nat)
  : list Z :=
  match target with
  | [] => []
  | n :: target' =>
      match sz, st with
      | m :: sz', k :: st' =>
          (if (m =? n)%nat then k else 0%Z) :: expand_strides_rev sz' st' target'
      | _, _ => 0%Z :: expand_strides_rev [] [] target'
      end
  end.

Definition expand (x : Tensor) (shape : list nat) : Tensor :=
  {| size := shape;
     stride := rev (expand_strides_rev (rev (size x)) (rev (stride x)) (rev shape));
     storage := storage x |}.

(** The entries of a tensor in the order of its index tuples. *)
Definition elements (x : Tensor) : list Q :=
  map (element x) (cartesian_c_order (size x)).

(** [th_allclose(x, y)], utils.py lines 11-16:
    [torch.sum(torch.abs(x - y)) < 1e-5], the threshold taken as the
    rational 1/100000. *)
Definition th_allclose (x y : Tensor) : Result bool :=
  (shape <- broadcast_shape (size x) (size y) ;;
   Ok (if Qlt_le_dec
            (Qsum (vmap Qabs (vsub (elements (expand x shape))
                                   (elements (expand y shape)))))
            (1 # 100000)
       then true else false))%result.

(** [ramp_image] with every entry moved by 1/1000000, and by twice as
    much. *)
Definition near_ramp_image : Tensor :=
  mkTensor [1; 2; 3]%nat [6; 3; 1]%Z
    (map (fun v => v + (1 # 1000000)) (storage ramp_image))%Q.



(** ** Random choice: [th_random_choice] *)

(** What [a] may be: an [int], or a 1-D tensor given by its entries. *)
Inductive Population : Type :=
| Count (n : Z)
| Entries (l : list Q).

(** The random number generator, as the two draws the function asks of
    it: [torch.rand(k)] and [torch.randperm(n)]. *)
Record Draws : Type := mkDraws {
  rand : nat -> list Q;
  randperm : nat -> list Z
}.

(** What the generator promises: [k] numbers of [[0, 1)], and a
    permutation of [0 ... n-1]. *)
Definition fair (d : Draws) : Prop :=
  (forall k, length (rand d k) = k /\
             Forall (fun u => 0 <= u /\ u < 1) (rand d k)) /\
  (forall n, Permutation (randperm d n) (arange n)).

(** [torch.range(0, n - 1)]: the end may not lie before the start. *)
Definition torch_range (n : Z) : Result (list Q) :=
  if (0 <? n)%Z then Ok (map inject_Z (arange (Z.to_nat n)))
  else Raise RuntimeError.

(** [if isinstance(a, int): a = torch.range(0, a-1)] *)
Definition population (a : Population) : Result (list Q) :=
  match a with
  | Count n => torch_range n
  | Entries l => Ok l
  end.

(** [torch.zeros(k) + i] *)
Definition zeros_plus (k i : Z) : Result (list Q) :=
  if (k <? 0)%Z then Raise RuntimeError
  else Ok (repeat (inject_Z i) (Z.to_nat k)).

(** [torch.cat(blocks)] *)
Definition cat (blocks : list (list Q)) : Result (list Q) :=
  match blocks with
  | [] => Raise RuntimeError
  | _ => Ok (concat blocks)
  end.

(** [round(p[i]*1000)], the share of entry [i] in a thousand. *)
Definition parts (p : list Q) (i : nat) : Z :=
  round_half_even (fl64 (nth i p 0 * 1000)).

(** [torch.cat([torch.zeros(round(p[i]*1000))+i for i in range(len(p))])] *)
Definition index_vector (p : list Q) : Result (list Q) :=
  (blocks <- mapM (fun i => zeros_plus (parts p (Z.to_nat i)) i)
                  (arange (length p)) ;;
   cat blocks)%result.

(** [th_random_choice(a, size, replace, p)], utils.py lines 344-385, for
    a [size] that is [None] or a count. *)
Definition th_random_choice (d : Draws) (a : Population) (size : option nat)
    (replace : bool) (p : option (list Q)) : Result (list Q) :=
  let size := match size with None => 1%nat | Some k => k end in
  (a <- population a ;;
   idx <- match p with
          | None =>
              if replace
              then Ok (map (fun u => long (floor (u * inject_Z (Z.of_nat (length a)))))
                           (rand d size))
              else Ok (firstn size (randperm d (length a)))
          | Some p =>
              if Qlt_le_dec (1 # 1000) (Qabs (1 - Qsum p)) then Raise ValueError
              else if negb replace then Raise ValueError
              else
                idx_vec <- index_vector p ;;
                idx <- index idx_vec
                         (map (fun u => long (floor (u * (99999 # 100))))
                              (rand d size)) ;;
                Ok (map long idx)
          end ;;
   index a idx)%result.


(** A generator that always answers with the same number, and with the
    reversed range. *)
Definition stuck_at (u : Q) : Draws :=
  mkDraws (fun k => repeat u k) (fun n => rev (arange n)).



(** The value the bilinear resampler computes for the source coordinate
    [(a, b)] on a one-channel image of [h] rows and [w] columns: the four
    pixels around the clamped coordinate, weighted by its fractions. *)
Definition bilinear_at (x : Tensor) (h w : nat) (a b : Q) : Q :=
  let i0 := Z.to_nat (Qfloor (clamp 0 (inject_Z (Z.of_nat h - 2)) a)) in
  let j0 := Z.to_nat (Qfloor (clamp 0 (inject_Z (Z.of_nat w - 2)) b)) in
  dot [pixel x 0 i0 j0; pixel x 0 (i0 + 1) j0;
       pixel x 0 i0 (j0 + 1); pixel x 0 (i0 + 1) (j0 + 1)]
      (corner_weights_2d (axis_frac (Z.of_nat h) a) (axis_frac (Z.of_nat w) b)).


(** The flat offsets, along a stride [s], of the floor corners
    ([up = false]) or of the ceil corners of the coordinates [c] on an axis
    of size [n], as the multilinear resamplers compute them. *)
Definition corner_ix (n s : Z) (c : list Q) (up : bool) : list Z :=
  let x0 := vmap floor (vmap (clamp 0 (inject_Z (n - 2))) c) in
  scaled_long s (if up then vmap (fun a => a + 1) x0 else x0).


(** *** Facts on the helpers *)

Lemma tile_mul {A} (n o : nat) (l : list A) :
  tile (n * o) l = tile n (tile o l).
Proof.
  unfold tile. induction n as [|n IH]; simpl; [reflexivity|].
  rewrite repeat_app, concat_app, IH. reflexivity.
Qed.

Lemma length_tile {A} (k : nat) (l : list A) :
  length (tile k l) = (k * length l)%nat.
Proof.
  unfold tile. induction k as [|k IH]; simpl; [reflexivity|].
  rewrite length_app, IH. reflexivity.
Qed.

Lemma length_repeat_each {A} (k : nat) (l : list A) :
  length (repeat_each k l) = (length l * k)%nat.
Proof.
  unfold repeat_each. induction l as [|a l IH]; simpl; [reflexivity|].
  rewrite length_app, repeat_length, IH. reflexivity.
Qed.

Lemma length_arange n : length (arange n) = n.
Proof. unfold arange. now rewrite length_map, length_seq. Qed.

Lemma map2_app {A B C} (f : A -> B -> C) l1 l2 m1 m2 :
  length l1 = length m1 ->
  map2 f (l1 ++ l2) (m1 ++ m2) = map2 f l1 m1 ++ map2 f l2 m2.
Proof.
  revert m1. induction l1 as [|a l1 IH]; intros [|b m1] H; simpl in *;
    try discriminate; [reflexivity|].
  f_equal. apply IH. now injection H.
Qed.

Lemma map2_repeat_l {A B C} (f : A -> B -> C) a m :
  map2 f (repeat a (length m)) m = map (f a) m.
Proof. induction m as [|b m IH]; simpl; [reflexivity|]. now rewrite IH. Qed.

Lemma np_indices_flat_cons n ns :
  np_indices_flat (n :: ns) =
  repeat_each (prodn ns) (arange n) :: map (tile n) (np_indices_flat ns).
Proof.
  unfold np_indices_flat. simpl length. simpl seq.
  rewrite map_cons. f_equal.
  - simpl. unfold tile. simpl. now rewrite app_nil_r.
  - rewrite <- seq_shift, !map_map. apply map_ext. intros k.
    change (firstn (S k) (n :: ns)) with (n :: firstn k ns).
    change (skipn (S (S k)) (n :: ns)) with (skipn (S k) ns).
    change (nth (S k) (n :: ns) 0%nat) with (nth k ns 0%nat).
    simpl prodn. apply tile_mul.
Qed.

Lemma length_cartesian dims :
  length (cartesian_c_order dims) = prodn dims.
Proof.
  induction dims as [|n ns IH]; simpl; [reflexivity|].
  unfold arange. generalize 0%nat as s.
  induction n as [|n IHn]; intros s; simpl; [reflexivity|].
  rewrite length_app, length_map, IH, IHn. reflexivity.
Qed.

Lemma length_transpose {A} (c : nat) (m : list (list A)) :
  Forall (fun r => length r = c) m -> length (transpose c m) = c.
Proof.
  intros Hm. induction Hm as [|r rs Hr _ IH]; simpl.
  - apply repeat_length.
  - revert IH. subst c. generalize (transpose (length r) rs).
    induction r as [|a r IHr]; intros [|t ts] Ht; simpl in *;
      try discriminate; [reflexivity|].
    f_equal. apply IHr. now injection Ht.
Qed.

Lemma transpose_tile {A} (n c : nat) (m : list (list A)) :
  Forall (fun r => length r = c) m ->
  transpose (n * c) (map (tile n) m) = tile n (transpose c m).
Proof.
  intros Hm. induction Hm as [|r rs Hr Hrs IH]; simpl.
  - unfold tile. induction n as [|n IHn]; simpl; [reflexivity|].
    now rewrite repeat_app, IHn.
  - rewrite IH. clear IH. unfold tile.
    pose proof (length_transpose Hrs) as Hlen.
    induction n as [|n IHn]; simpl; [reflexivity|].
    rewrite map2_app by congruence. now rewrite IHn.
Qed.

Lemma np_indices_flat_rows dims :
  Forall (fun r => length r = prodn dims) (np_indices_flat dims).
Proof.
  induction dims as [|n ns IH].
  - constructor.
  - rewrite np_indices_flat_cons. constructor.
    + rewrite length_repeat_each, length_arange. reflexivity.
    + apply Forall_map. eapply Forall_impl; [|exact IH].
      intros r Hr. simpl. rewrite length_tile, Hr. reflexivity.
Qed.

Lemma map2_cons_repeat_each {A} (c : nat) (l : list A) (t : list (list A)) :
  length t = c ->
  map2 cons (repeat_each c l) (tile (length l) t) =
  flat_map (fun i => map (cons i) t) l.
Proof.
  intros Ht. unfold repeat_each, tile.
  induction l as [|a l IH]; simpl; [reflexivity|].
  rewrite map2_app by (rewrite repeat_length; congruence).
  rewrite IH. f_equal. subst c. apply map2_repeat_l.
Qed.

(** The transposed index arrays are the C-order Cartesian product. *)
Lemma transpose_np_indices dims :
  transpose (prodn dims) (np_indices_flat dims) = cartesian_c_order dims.
Proof.
  induction dims as [|n ns IH]; [reflexivity|].
  rewrite np_indices_flat_cons. simpl transpose. simpl prodn.
  rewrite transpose_tile by apply np_indices_flat_rows.
  rewrite IH. simpl cartesian_c_order.
  pose proof (@map2_cons_repeat_each Z (prodn ns) (arange n)
                (cartesian_c_order ns) (length_cartesian ns)) as E.
  rewrite length_arange in E. exact E.
Qed.

Lemma th_iterproduct_cons n ns :
  th_iterproduct (n :: ns) = Ok (cartesian_c_order (n :: ns)).
Proof. unfold th_iterproduct. f_equal. apply transpose_np_indices. Qed.

(** C2.  [th_iterproduct] enumerates the full Cartesian product of the
    per-axis ranges, last axis fastest and first axis slowest; on the
    dimensions [2; 3] it yields (0,0),(0,1),(0,2),(1,0),(1,1),(1,2). *)
Theorem th_iterproduct_c_order :
  (forall n ns, th_iterproduct (n :: ns) = Ok (cartesian_c_order (n :: ns))) /\
  th_iterproduct [2; 3]%nat =
    Ok [[0; 0]; [0; 1]; [0; 2]; [1; 0]; [1; 1]; [1; 2]]%Z.
Proof.
  split; [|reflexivity].
  intros n ns. unfold th_iterproduct. f_equal. apply transpose_np_indices.
Qed.

(** ** Lists, columns and gathers *)

Lemma mapM_ok_map {A B} (f : A -> Result B) (g : A -> B) (l : list A) :
  Forall (fun a => f a = Ok (g a)) l -> mapM f l = Ok (map g l).
Proof.
  induction 1 as [|a l Ha _ IH]; simpl; [reflexivity|].
  now rewrite Ha, IH.
Qed.

Lemma mapM_ext_in {A B} (f g : A -> Result B) (l : list A) :
  Forall (fun a => f a = g a) l -> mapM f l = mapM g l.
Proof.
  induction 1 as [|a l Ha _ IH]; simpl; [reflexivity|].
  now rewrite Ha, IH.
Qed.

Lemma mapM_length {A B} (f : A -> Result B) (l : list A) (m : list B) :
  mapM f l = Ok m -> length m = length l.
Proof.
  revert m. induction l as [|a l IH]; simpl; intros m H.
  - injection H as <-. reflexivity.
  - destruct (f a); simpl in H; [|discriminate].
    destruct (mapM f l); simpl in H; [|discriminate].
    injection H as <-. simpl. f_equal. now apply IH.
Qed.

Lemma mapM_map {A B C} (f : B -> Result C) (g : A -> B) (l : list A) :
  mapM f (map g l) = mapM (fun a => f (g a)) l.
Proof.
  induction l as [|a l IH]; simpl; [reflexivity|]. now rewrite IH.
Qed.

Lemma map2_map_same {A B C D} (f : B -> C -> D) (g : A -> B) (h : A -> C) l :
  map2 f (map g l) (map h l) = map (fun a => f (g a) (h a)) l.
Proof.
  induction l as [|a l IH]; simpl; [reflexivity|]. now rewrite IH.
Qed.

Lemma map2_map_r {A B C} (f : A -> B -> C) (h : A -> B) l :
  map2 f l (map h l) = map (fun a => f a (h a)) l.
Proof.
  induction l as [|a l IH]; simpl; [reflexivity|]. now rewrite IH.
Qed.

Lemma length_map2 {A B C} (f : A -> B -> C) l m :
  length (map2 f l m) = Nat.min (length l) (length m).
Proof.
  revert m. induction l as [|a l IH]; intros [|b m]; simpl; try reflexivity.
  now rewrite IH.
Qed.

Lemma length_set_nth {A} k (v : A) l : length (set_nth k v l) = length l.
Proof.
  revert k. induction l as [|a l IH]; intros [|k]; simpl; try reflexivity.
  now rewrite IH.
Qed.

Lemma get_col_ok k (m : Coords) :
  Forall (fun r => (k < length r)%nat) m -> get_col k m = Ok (col k m).
Proof.
  intros H. unfold get_col, col. apply mapM_ok_map.
  eapply Forall_impl; [|exact H]. intros r Hr. simpl in Hr.
  destruct (nth_error r k) as [a|] eqn:E.
  - now rewrite (nth_error_nth _ _ _ E).
  - apply nth_error_None in E. lia.
Qed.

Lemma set_col_map k (f : Q -> Q) (m : Coords) :
  set_col k (vmap f (col k m)) m =
  map (fun r => set_nth k (f (nth k r 0%Q)) r) m.
Proof.
  unfold set_col, vmap, col. rewrite map_map. apply map2_map_r.
Qed.

Lemma set_col_width k v (m : Coords) n :
  Forall (fun r => length r = n) m ->
  Forall (fun r => length r = n) (set_col k v m).
Proof.
  intros H. revert v. unfold set_col.
  induction H as [|r m Hr _ IH]; intros [|a v]; simpl; constructor.
  - now rewrite length_set_nth.
  - apply IH.
Qed.

Lemma mv_ok (m : Coords) (v : list Q) :
  Forall (fun r => length r = length v) m ->
  mv m v = Ok (map (fun r => dot32 r v) m).
Proof.
  intros H. unfold mv. apply mapM_ok_map.
  eapply Forall_impl; [|exact H]. intros r Hr. simpl in Hr.
  rewrite Hr, Nat.eqb_refl. reflexivity.
Qed.

(** ** Frame conditions *)

Lemma keeps_input_bind {A B} (m : SR A) (k : A -> SR B) :
  keeps_input m -> (forall a, keeps_input (k a)) -> keeps_input (sbind m k).
Proof.
  intros Hm Hk s. unfold sbind. specialize (Hm s).
  destruct (m s) as [s' [a|e]]; simpl in *; [|exact Hm].
  now rewrite Hk.
Qed.

Lemma keeps_coords_bind {A B} (m : SR A) (k : A -> SR B) :
  keeps_coords m -> (forall a, keeps_coords (k a)) -> keeps_coords (sbind m k).
Proof.
  intros Hm Hk s. unfold sbind. specialize (Hm s).
  destruct (m s) as [s' [a|e]]; simpl in *; [|exact Hm].
  now rewrite Hk.
Qed.

Lemma keeps_input_slift {A} (r : Result A) : keeps_input (slift r).
Proof. intros s. reflexivity. Qed.

Lemma keeps_coords_slift {A} (r : Result A) : keeps_coords (slift r).
Proof. intros s. reflexivity. Qed.

Lemma keeps_input_read_col k : keeps_input (read_col k).
Proof. intros s. reflexivity. Qed.

Lemma keeps_coords_read_col k : keeps_coords (read_col k).
Proof. intros s. reflexivity. Qed.

Lemma keeps_input_write_col k v : keeps_input (write_col k v).
Proof. intros s. reflexivity. Qed.

Lemma keeps_input_input_size k : keeps_input (input_size k).
Proof. intros s. reflexivity. Qed.

Lemma keeps_coords_input_size k : keeps_coords (input_size k).
Proof. intros s. reflexivity. Qed.

Lemma keeps_input_get_input : keeps_input get_input.
Proof. intros s. reflexivity. Qed.

Lemma keeps_coords_get_input : keeps_coords get_input.
Proof. intros s. reflexivity. Qed.

Lemma keeps_input_get_coords : keeps_input get_coords.
Proof. intros s. reflexivity. Qed.

Create HintDb frame.
#[local] Hint Resolve keeps_input_slift keeps_coords_slift keeps_input_read_col
  keeps_coords_read_col keeps_input_write_col keeps_input_input_size
  keeps_coords_input_size keeps_input_get_input keeps_coords_get_input
  keeps_input_get_coords : frame.

Ltac frame_input :=
  repeat (apply keeps_input_bind; [auto with frame | intros; cbv zeta]);
  auto with frame.

Ltac frame_coords :=
  repeat (apply keeps_coords_bind; [auto with frame | intros; cbv zeta]);
  auto with frame.

Lemma th_nearest_interp_2d_keeps_input : keeps_input th_nearest_interp_2d.
Proof. unfold th_nearest_interp_2d. frame_input. Qed.

Lemma th_nearest_interp_3d_keeps_input : keeps_input th_nearest_interp_3d.
Proof. unfold th_nearest_interp_3d. frame_input. Qed.

Lemma th_bilinear_interp_2d_keeps_input : keeps_input th_bilinear_interp_2d.
Proof. unfold th_bilinear_interp_2d. frame_input. Qed.

Lemma th_trilinear_interp_3d_keeps_input : keeps_input th_trilinear_interp_3d.
Proof. unfold th_trilinear_interp_3d. frame_input. Qed.

Lemma th_bilinear_interp_2d_keeps_coords : keeps_coords th_bilinear_interp_2d.
Proof. unfold th_bilinear_interp_2d. frame_coords. Qed.

Lemma th_trilinear_interp_3d_keeps_coords : keeps_coords th_trilinear_interp_3d.
Proof. unfold th_trilinear_interp_3d. frame_coords. Qed.

(** ** The nearest-neighbour resamplers, step by step *)

Lemma nth_set_nth_other {A} (j k : nat) (v d : A) (l : list A) :
  j <> k -> nth j (set_nth k v l) d = nth j l d.
Proof.
  revert j k. induction l as [|a l IH]; intros [|j] [|k] H; simpl;
    try reflexivity; try congruence.
  apply IH. congruence.
Qed.

Lemma Forall_width_map_set_nth (P : nat -> Prop) k (f : list Q -> Q) (m : Coords) :
  Forall (fun r => P (length r)) m ->
  Forall (fun r => P (length r)) (map (fun r => set_nth k (f r) r) m).
Proof.
  intros H. apply Forall_map. eapply Forall_impl; [|exact H].
  intros r Hr. simpl. now rewrite length_set_nth.
Qed.

Lemma clamp_round_col hi k (m : Coords) :
  set_col k (clamp_round hi (col k m)) m =
  map (fun r => set_nth k (round (clamp 0 (inject_Z hi) (nth k r 0%Q))) r) m.
Proof.
  unfold clamp_round, vmap. rewrite map_map.
  exact (set_col_map k (fun a => round (clamp 0 (inject_Z hi) a)) m).
Qed.

Lemma th_nearest_interp_2d_run x coords c h w rest :
  size x = c :: h :: w :: rest ->
  Forall (fun r => (2 <= length r)%nat) coords ->
  th_nearest_interp_2d (mkStore x coords) =
  (mkStore x (nearest_grid_2d h w coords),
   (idx_f <- mv (nearest_grid_2d h w coords) (map (fun s => fl32 (inject_Z s)) (tl (stride x))) ;;
    input_flat <- th_c_flatten x ;;
    mapped_vals <- mapM (fun channel => index channel (map long idx_f)) input_flat ;;
    view_as (concat mapped_vals) x)%result).
Proof.
  intros Hsz Hw.
  unfold th_nearest_interp_2d, sbind, read_col, input_size, write_col,
    get_input, get_coords, slift, tsize. cbn [st_coords st_input].
  rewrite get_col_ok by (eapply Forall_impl; [|exact Hw]; simpl; lia).
  rewrite Hsz. cbn [nth_error rbind].
  rewrite clamp_round_col.
  rewrite get_col_ok
    by (apply (Forall_width_map_set_nth (fun n => (1 < n)%nat));
        eapply Forall_impl; [|exact Hw]; simpl; lia).
  rewrite clamp_round_col, map_map.
  assert (E : map (fun r => set_nth 1
                (round (clamp 0 (inject_Z (Z.of_nat w - 1))
                   (nth 1 (set_nth 0
                      (round (clamp 0 (inject_Z (Z.of_nat h - 1)) (nth 0 r 0%Q))) r) 0%Q)))
                (set_nth 0 (round (clamp 0 (inject_Z (Z.of_nat h - 1)) (nth 0 r 0%Q))) r))
              coords = nearest_grid_2d h w coords).
  { unfold nearest_grid_2d, snap. apply map_ext. intros r.
    now rewrite nth_set_nth_other by lia. }
  rewrite E.
  destruct (mv _ _) as [idx_f|e]; cbn [rbind]; [|reflexivity].
  destruct (th_c_flatten x) as [fl|e]; cbn [rbind]; [|reflexivity].
  destruct (mapM _ fl) as [mp|e]; cbn [rbind]; reflexivity.
Qed.

(** ** Rounding, clamping and truncation *)

Lemma round_half_even_comp (a b : Q) :
  a == b -> round_half_even a = round_half_even b.
Proof.
  intros H. unfold round_half_even.
  rewrite (Qfloor_comp a b H).
  assert (E : a - inject_Z (Qfloor b) == b - inject_Z (Qfloor b))
    by (rewrite H; reflexivity).
  now rewrite (Qcompare_comp _ _ E _ _ (Qeq_refl _)).
Qed.

Lemma round_half_even_Z (z : Z) : round_half_even (inject_Z z) = z.
Proof.
  unfold round_half_even. rewrite Qfloor_Z.
  assert (E : inject_Z z - inject_Z z == 0) by ring.
  now rewrite (Qcompare_comp _ _ E _ _ (Qeq_refl _)).
Qed.

Lemma round_comp (a b : Q) : a == b -> round a = round b.
Proof. intros H. unfold round. now rewrite (round_half_even_comp H). Qed.

Lemma long_exact (q : Q) (z : Z) : q == inject_Z z -> long q = z.
Proof.
  unfold Qeq, long. simpl. intros H. rewrite Z.mul_1_r in H. rewrite H.
  apply Z.quot_mul. discriminate.
Qed.

(** ** Floating-point rounding *)

Lemma round_to_comp prec emin (q q' : Q) :
  q == q' -> round_to prec emin q = round_to prec emin q'.
Proof. intros H. unfold round_to. now rewrite (Qred_complete _ _ H). Qed.

Lemma fl32_comp (q q' : Q) : q == q' -> fl32 q = fl32 q'.
Proof. apply round_to_comp. Qed.

Lemma Qred_inject_Z (n : Z) : Qred (inject_Z n) = inject_Z n.
Proof.
  unfold Qred, inject_Z.
  generalize (Z.ggcd_gcd n 1) (Z.ggcd_correct_divisors n 1).
  destruct (Z.ggcd n 1) as [g [a b]]. simpl. rewrite Z.gcd_1_r.
  intros -> [H1 H2]. rewrite Z.mul_1_l in H1, H2. now subst.
Qed.

Lemma pow2_nonpos (s : Z) :
  (s <= 0)%Z -> pow2 s == 1 / inject_Z (2 ^ (- s)).
Proof.
  intros H. unfold pow2. destruct (Z.leb_spec 0 s) as [L|L]; [|reflexivity].
  assert (s = 0%Z) by lia. subst s. reflexivity.
Qed.

Lemma inject_Z_pow2_pos (k : Z) : (0 <= k)%Z -> 0 < inject_Z (2 ^ k).
Proof.
  intros H. change 0 with (inject_Z 0). rewrite <- Zlt_Qlt.
  apply Z.pow_pos_nonneg; lia.
Qed.

(** An integer of at most [prec] bits is a number of the format: it is
    not rounded. *)
Lemma round_to_int prec emin (n : Z) (q : Q) :
  (0 < prec)%Z -> (emin <= 0)%Z ->
  q == inject_Z n -> (Z.abs n < 2 ^ prec)%Z ->
  round_to prec emin q == inject_Z n.
Proof.
  intros Hp He Hq Hn. rewrite (round_to_comp prec emin Hq).
  unfold round_to. rewrite Qred_inject_Z.
  destruct (Qeq_bool (inject_Z n) 0) eqn:E0.
  - apply Qeq_bool_eq in E0. now rewrite E0.
  - apply Qeq_bool_neq in E0.
    assert (N0 : n <> 0%Z) by (intros ->; now apply E0).
    assert (Habs : (0 < Z.abs n)%Z) by lia.
    assert (El : ilog2 (inject_Z n) = Z.log2 (Z.abs n)).
    { unfold ilog2. cbn [Qnum Qden inject_Z]. change (Z.log2 1) with 0%Z.
      rewrite Z.sub_0_r.
      replace (Qle_bool _ _) with true; [reflexivity|].
      symmetry. apply Qle_bool_iff. unfold pow2.
      pose proof (Z.log2_nonneg (Z.abs n)) as L0.
      destruct (Z.leb_spec 0 (Z.log2 (Z.abs n))) as [_|C]; [|lia].
      change (Qabs (inject_Z n)) with (inject_Z (Z.abs n)).
      rewrite <- Zle_Qle. now apply Z.log2_spec. }
    rewrite El.
    pose proof (Z.log2_nonneg (Z.abs n)) as L0.
    assert (L1 : (Z.log2 (Z.abs n) < prec)%Z) by (apply Z.log2_lt_pow2; lia).
    rewrite Z.max_l by lia.
    set (s := (Z.log2 (Z.abs n) - (prec - 1))%Z).
    assert (Hs : (s <= 0)%Z) by (subst s; lia).
    pose proof (@inject_Z_pow2_pos (- s) ltac:(lia)) as Pp.
    assert (P2 : pow2 s == 1 / inject_Z (2 ^ (- s))) by now apply pow2_nonpos.
    assert (R : inject_Z n / pow2 s == inject_Z (n * 2 ^ (- s))).
    { rewrite P2, inject_Z_mult. field.
      intros C. rewrite C in Pp. now apply (Qlt_irrefl 0). }
    rewrite (round_half_even_comp R), round_half_even_Z, inject_Z_mult, P2.
    field. intros C. rewrite C in Pp. now apply (Qlt_irrefl 0).
Qed.

(** Integers below [2 ^ 24] in absolute value are float32 numbers. *)
Lemma fl32_int (n : Z) (q : Q) :
  q == inject_Z n -> (Z.abs n < 2 ^ 24)%Z -> fl32 q == inject_Z n.
Proof. intros. apply round_to_int; (assumption || lia). Qed.

(** A float32 dot product of non-negative integers that stays below
    [2 ^ 24] is exact. *)
Lemma dot32_from_exact (r s : list Z) (acc : Q) (z : Z) :
  acc == inject_Z z -> (0 <= z)%Z ->
  Forall (fun a => (0 <= a)%Z) r ->
  Forall (fun b => (0 <= b < 2 ^ 24)%Z) s ->
  (z + dotZ r s < 2 ^ 24)%Z ->
  dot32_from acc (map inject_Z r) (map (fun b => fl32 (inject_Z b)) s) ==
  inject_Z (z + dotZ r s).
Proof.
  intros Hacc Hz Hr. revert s acc z Hacc Hz.
  induction Hr as [|a r Ha Hr IH]; intros s acc z Hacc Hz Hs Hb.
  - simpl. unfold dotZ. simpl. now rewrite Z.add_0_r.
  - destruct Hs as [|b s Hb0 Hs].
    + simpl. unfold dotZ. simpl. now rewrite Z.add_0_r.
    + cbn [map dot32_from].
      change (dotZ (a :: r) (b :: s)) with (a * b + dotZ r s)%Z in *.
      assert (Hd : (0 <= dotZ r s)%Z).
      { clear - Hr Hs. revert s Hs.
        induction Hr as [|a r Ha _ IH]; intros s Hs; [unfold dotZ; simpl; lia|].
        destruct Hs as [|b s Hb Hs]; [unfold dotZ; simpl; lia|].
        change (dotZ (a :: r) (b :: s)) with (a * b + dotZ r s)%Z.
        specialize (IH s Hs). nia. }
      assert (Hab : (0 <= a * b)%Z) by nia.
      assert (E1 : fl32 (inject_Z b) == inject_Z b) by (apply fl32_int; [reflexivity|lia]).
      assert (E2 : fl32 (inject_Z a * fl32 (inject_Z b)) == inject_Z (a * b)).
      { apply fl32_int; [|lia]. rewrite E1, inject_Z_mult. reflexivity. }
      assert (E3 : fl32 (acc + fl32 (inject_Z a * fl32 (inject_Z b))) ==
                   inject_Z (z + a * b)).
      { apply fl32_int; [|lia]. rewrite E2, Hacc, inject_Z_plus. reflexivity. }
      rewrite (IH s _ (z + a * b)%Z E3) by (assumption || lia).
      now rewrite Z.add_assoc.
Qed.

Lemma dot32_exact (r s : list Z) :
  Forall (fun a => (0 <= a)%Z) r ->
  Forall (fun b => (0 <= b < 2 ^ 24)%Z) s ->
  (dotZ r s < 2 ^ 24)%Z ->
  dot32 (map inject_Z r) (map (fun b => fl32 (inject_Z b)) s) ==
  inject_Z (dotZ r s).
Proof.
  intros Hr Hs Hb. unfold dot32.
  now rewrite (@dot32_from_exact r s 0 0%Z) by (reflexivity || assumption || lia).
Qed.

Lemma clamp_range (lo hi v : Q) :
  lo <= hi -> lo <= clamp lo hi v /\ clamp lo hi v <= hi.
Proof.
  intros H. unfold clamp. split.
  - apply Q.min_glb; [apply Q.le_max_r | exact H].
  - apply Q.le_min_r.
Qed.

Lemma clamp_inside (lo hi v : Q) :
  lo <= v -> v <= hi -> clamp lo hi v == v.
Proof.
  intros H1 H2. unfold clamp.
  rewrite (Q.max_l v lo H1). now apply Q.min_l.
Qed.

Lemma clamp_idem (lo hi v : Q) :
  clamp lo hi (clamp lo hi v) == clamp lo hi v.
Proof.
  unfold clamp.
  destruct (Qlt_le_dec hi lo) as [Hlt|Hle].
  - assert (E : forall u, Qmin (Qmax u lo) hi == hi).
    { intros u. apply Q.min_r. apply Qle_trans with lo.
      - now apply Qlt_le_weak.
      - apply Q.le_max_r. }
    now rewrite !E.
  - apply clamp_inside.
    + apply Q.min_glb; [apply Q.le_max_r | exact Hle].
    + apply Q.le_min_r.
Qed.

Lemma snap_exact (n : nat) (q : Q) (i : Z) :
  q == inject_Z i -> (0 <= i < Z.of_nat n)%Z -> snap n q = inject_Z i.
Proof.
  intros Hq Hi. unfold snap, round. f_equal.
  rewrite <- (round_half_even_Z i). apply round_half_even_comp.
  rewrite <- Hq. apply clamp_inside; rewrite Hq.
  - change 0 with (inject_Z 0). rewrite <- Zle_Qle. lia.
  - rewrite <- Zle_Qle. lia.
Qed.

Lemma snap_idem (n : nat) (v : Q) :
  snap n (clamp 0 (inject_Z (Z.of_nat n - 1)) v) = snap n v.
Proof. unfold snap. apply round_comp, clamp_idem. Qed.

(** ** The 2-D grid and its flat offsets *)


Lemma in_arange n i : In i (arange n) -> (0 <= i < Z.of_nat n)%Z.
Proof.
  unfold arange. rewrite in_map_iff. intros [k [<- Hk]].
  apply in_seq in Hk. lia.
Qed.


Lemma arange_S n : arange (S n) = arange n ++ [Z.of_nat n].
Proof. unfold arange. rewrite seq_S, map_app. reflexivity. Qed.

Lemma seq_from n m : seq n m = map (fun k => (n + k)%nat) (seq 0 m).
Proof.
  revert n. induction m as [|m IH]; intros n; simpl; [reflexivity|].
  rewrite Nat.add_0_r. f_equal.
  rewrite (IH (S n)), <- seq_shift, map_map. apply map_ext. intros k. lia.
Qed.

Lemma arange_add n m :
  arange (n + m) = arange n ++ map (fun j => (Z.of_nat n + j)%Z) (arange m).
Proof.
  unfold arange. rewrite seq_app, map_app. f_equal.
  simpl. rewrite seq_from, !map_map.
  apply map_ext. intros k. lia.
Qed.


(** ** Gathers over a whole channel *)

Lemma index1_in_range (flat : list Q) (i : Z) :
  (0 <= i < Z.of_nat (length flat))%Z ->
  index1 flat i = Ok (nth (Z.to_nat i) flat 0%Q).
Proof.
  intros H. unfold index1.
  replace (0 <=? i)%Z with true by (symmetry; apply Z.leb_le; lia).
  replace (i <? Z.of_nat (length flat))%Z with true
    by (symmetry; apply Z.ltb_lt; lia).
  reflexivity.
Qed.

Lemma map_nth_seq {A} (l : list A) (d : A) :
  map (fun k => nth k l d) (seq 0 (length l)) = l.
Proof.
  induction l as [|a l IH]; simpl; [reflexivity|].
  f_equal. rewrite <- seq_shift, map_map. exact IH.
Qed.

Lemma index_arange (flat : list Q) :
  index flat (arange (length flat)) = Ok flat.
Proof.
  unfold index, arange. rewrite mapM_map.
  transitivity (Ok (map (fun k => nth k flat 0%Q) (seq 0 (length flat))));
    [|now rewrite map_nth_seq].
  apply mapM_ok_map. apply Forall_forall. intros k Hk.
  apply in_seq in Hk. rewrite index1_in_range by lia.
  now rewrite Nat2Z.id.
Qed.

Lemma chunks_width {A} (m c : nat) (l : list A) :
  length l = (c * m)%nat -> Forall (fun r => length r = m) (chunks m c l).
Proof.
  revert l. induction c as [|c IH]; intros l H; simpl; constructor.
  - rewrite length_firstn. lia.
  - apply IH. rewrite length_skipn. lia.
Qed.

Lemma concat_chunks {A} (m c : nat) (l : list A) :
  length l = (c * m)%nat -> concat (chunks m c l) = l.
Proof.
  revert l. induction c as [|c IH]; intros l H; simpl.
  - destruct l; [reflexivity|discriminate].
  - rewrite IH by (rewrite length_skipn; lia). apply firstn_skipn.
Qed.


Lemma contiguous_row_major (x : Tensor) :
  stride x = c_strides (size x) -> contiguous x = x.
Proof.
  intros H. unfold contiguous, is_contiguous.
  now destruct (list_eq_dec Z.eq_dec (stride x) (c_strides (size x))).
Qed.

(** ** The identity transform in nearest mode *)

Lemma prodn_2 h w : prodn [h; w] = (h * w)%nat.
Proof. simpl. lia. Qed.





(** The layout hypothesis is used: the resampler takes its offsets from
    [input.stride()] and reads them in the row-major copy made by
    [th_c_flatten], so a transposed view comes back with its buffer order,
    rows (1, 2) and (3, 4), instead of its own rows (1, 3) and (2, 4). *)
Remark identity_on_transposed_view :
  storage (contiguous transposed_view) = [1; 3; 2; 4] /\
  snd (th_affine_2d transposed_view eye3 "nearest" false) =
    Ok (mkTensor [1; 2; 2]%nat [4; 2; 1]%Z [1; 2; 3; 4]).
Proof. split; reflexivity. Qed.

(** ** The multilinear resamplers, step by step *)

Lemma th_bilinear_interp_2d_run x coords c h w rest :
  size x = c :: h :: w :: rest ->
  Forall (fun r => (2 <= length r)%nat) coords ->
  th_bilinear_interp_2d (mkStore x coords) =
  (mkStore x coords,
   bilinear_2d_body x (Z.of_nat h) (Z.of_nat w) (col 0 coords) (col 1 coords)).
Proof.
  intros Hsz Hw.
  unfold th_bilinear_interp_2d, sbind, read_col, input_size, get_input,
    slift, tsize. cbn [st_coords st_input].
  rewrite !get_col_ok by (eapply Forall_impl; [|exact Hw]; simpl; lia).
  rewrite Hsz. reflexivity.
Qed.

Lemma th_trilinear_interp_3d_run x coords c d h w rest :
  size x = c :: d :: h :: w :: rest ->
  Forall (fun r => (3 <= length r)%nat) coords ->
  th_trilinear_interp_3d (mkStore x coords) =
  (mkStore x coords,
   trilinear_3d_body x (Z.of_nat d) (Z.of_nat h) (Z.of_nat w)
     (col 0 coords) (col 1 coords) (col 2 coords)).
Proof.
  intros Hsz Hw.
  unfold th_trilinear_interp_3d, sbind, read_col, input_size, get_input,
    slift, tsize. cbn [st_coords st_input].
  rewrite !get_col_ok by (eapply Forall_impl; [|exact Hw]; simpl; lia).
  rewrite Hsz. reflexivity.
Qed.

(** Clamping returns one of its three arguments, so clamping twice gives
    the very same number, not merely an equal fraction. *)
Lemma clamp_twice (lo hi v : Q) :
  clamp lo hi (clamp lo hi v) = clamp lo hi v.
Proof.
  unfold clamp, Qmin, Qmax, GenericMinMax.gmin, GenericMinMax.gmax.
  repeat (match goal with
          | |- context [?a ?= ?b] =>
              is_var a; is_var b; destruct (a ?= b) eqn:?
          end; cbv iota);
    try reflexivity; try congruence; exfalso;
    repeat match goal with
           | H : (_ ?= _) = Eq |- _ => apply Qeq_alt in H
           | H : (_ ?= _) = Lt |- _ => apply Qlt_alt in H
           | H : (_ ?= _) = Gt |- _ => apply Qgt_alt in H
           end; lra.
Qed.

(** ** Out-of-range coordinates *)

Lemma nearest_grid_clamp_grid h w coords :
  Forall (fun r => (2 <= length r)%nat) coords ->
  nearest_grid_2d h w (clamp_grid (Z.of_nat h - 1) (Z.of_nat w - 1) coords) =
  nearest_grid_2d h w coords.
Proof.
  intros Hw. unfold nearest_grid_2d, clamp_grid. rewrite map_map.
  apply map_ext_in. intros r Hr.
  rewrite Forall_forall in Hw. specialize (Hw r Hr).
  destruct r as [|a [|b t]]; simpl in Hw; try lia.
  cbn [nth set_nth]. now rewrite !snap_idem.
Qed.

Lemma col_clamp_grid hi0 hi1 coords :
  Forall (fun r => (2 <= length r)%nat) coords ->
  col 0 (clamp_grid hi0 hi1 coords) = vmap (clamp 0 (inject_Z hi0)) (col 0 coords) /\
  col 1 (clamp_grid hi0 hi1 coords) = vmap (clamp 0 (inject_Z hi1)) (col 1 coords).
Proof.
  intros Hw. unfold col, clamp_grid, vmap. rewrite !map_map.
  split; apply map_ext_in; intros r Hr;
    rewrite Forall_forall in Hw; specialize (Hw r Hr);
    destruct r as [|a [|b t]]; simpl in Hw; try lia; reflexivity.
Qed.

Lemma clamp_grid_width hi0 hi1 coords :
  Forall (fun r => (2 <= length r)%nat) coords ->
  Forall (fun r => (2 <= length r)%nat) (clamp_grid hi0 hi1 coords).
Proof.
  intros Hw. apply Forall_map. eapply Forall_impl; [|exact Hw].
  intros r Hr. cbv beta in *. now rewrite !length_set_nth.
Qed.

Lemma vmap_clamp_twice hi (c : list Q) :
  vmap (clamp 0 hi) (vmap (clamp 0 hi) c) = vmap (clamp 0 hi) c.
Proof.
  unfold vmap. rewrite map_map. apply map_ext. intros a. apply clamp_twice.
Qed.

Lemma clamp_grid_within hi0 hi1 coords :
  Forall (fun r => (2 <= length r)%nat) coords ->
  (0 <= hi0)%Z -> (0 <= hi1)%Z ->
  Forall (row_within hi0 hi1) (clamp_grid hi0 hi1 coords).
Proof.
  intros Hw H0 H1. apply Forall_map. eapply Forall_impl; [|exact Hw].
  intros r Hr. simpl in Hr. destruct r as [|a [|b t]]; simpl in Hr; try lia.
  unfold row_within. cbn [nth set_nth].
  split; apply clamp_range; change 0 with (inject_Z 0);
    rewrite <- Zle_Qle; assumption.
Qed.

(** ** What a resampler call changes *)

Lemma th_nearest_interp_3d_run x coords c d h w rest :
  size x = c :: d :: h :: w :: rest ->
  Forall (fun r => (3 <= length r)%nat) coords ->
  th_nearest_interp_3d (mkStore x coords) =
  (mkStore x (nearest_grid_3d d h w coords),
   (idx <- mv (nearest_grid_3d d h w coords) (map (fun s => fl32 (inject_Z s)) (tl (stride x))) ;;
    mapped_vals <- index (th_flatten x) (map long idx) ;;
    view_as mapped_vals x)%result).
Proof.
  intros Hsz Hw.
  unfold th_nearest_interp_3d, sbind, read_col, input_size, write_col,
    get_input, get_coords, slift, tsize. cbn [st_coords st_input].
  rewrite get_col_ok by (eapply Forall_impl; [|exact Hw]; simpl; lia).
  rewrite Hsz. cbn [nth_error rbind].
  rewrite clamp_round_col.
  rewrite get_col_ok
    by (apply (Forall_width_map_set_nth (fun n => (1 < n)%nat));
        eapply Forall_impl; [|exact Hw]; simpl; lia).
  rewrite clamp_round_col, map_map.
  rewrite get_col_ok
    by (apply Forall_map; eapply Forall_impl; [|exact Hw];
        intros r Hr; cbv beta in *; rewrite !length_set_nth; lia).
  rewrite clamp_round_col, map_map.
  match goal with
  | |- context [mkStore x ?g] =>
      assert (E : g = nearest_grid_3d d h w coords)
  end.
  { unfold nearest_grid_3d, snap. apply map_ext. intros r.
    now rewrite !nth_set_nth_other by lia. }
  rewrite E.
  destruct (mv _ _) as [idx|e]; cbn [rbind]; [|reflexivity].
  destruct (index _ _) as [mp|e]; cbn [rbind]; reflexivity.
Qed.

(** C9, as amended.  No resampler changes the source tensor.  The
    multilinear resamplers leave the coordinate grid as they found it: they
    clamp into fresh arrays.  The nearest resamplers overwrite the columns
    of the grid they were passed with the clamped and rounded
    coordinates. *)
Theorem resampler_frame (s : Store) :
  (st_input (fst (th_nearest_interp_2d s)) = st_input s /\
   st_input (fst (th_bilinear_interp_2d s)) = st_input s /\
   st_input (fst (th_nearest_interp_3d s)) = st_input s /\
   st_input (fst (th_trilinear_interp_3d s)) = st_input s) /\
  (st_coords (fst (th_bilinear_interp_2d s)) = st_coords s /\
   st_coords (fst (th_trilinear_interp_3d s)) = st_coords s) /\
  (forall c h w rest,
     size (st_input s) = c :: h :: w :: rest ->
     Forall (fun r => (2 <= length r)%nat) (st_coords s) ->
     st_coords (fst (th_nearest_interp_2d s)) =
       nearest_grid_2d h w (st_coords s)) /\
  (forall c d h w rest,
     size (st_input s) = c :: d :: h :: w :: rest ->
     Forall (fun r => (3 <= length r)%nat) (st_coords s) ->
     st_coords (fst (th_nearest_interp_3d s)) =
       nearest_grid_3d d h w (st_coords s)).
Proof.
  split; [|split; [|split]].
  - split; [|split; [|split]].
    + apply th_nearest_interp_2d_keeps_input.
    + apply th_bilinear_interp_2d_keeps_input.
    + apply th_nearest_interp_3d_keeps_input.
    + apply th_trilinear_interp_3d_keeps_input.
  - split.
    + apply th_bilinear_interp_2d_keeps_coords.
    + apply th_trilinear_interp_3d_keeps_coords.
  - intros c h w rest Hsz Hw. destruct s as [x coords]. simpl in *.
    now rewrite (th_nearest_interp_2d_run _ Hsz Hw).
  - intros c d h w rest Hsz Hw. destruct s as [x coords]. simpl in *.
    now rewrite (th_nearest_interp_3d_run _ Hsz Hw).
Qed.

Lemma resampler_frame_witness :
  let s := mkStore small_image stray_grid in
  st_input (fst (th_nearest_interp_2d s)) = small_image /\
  st_coords (fst (th_bilinear_interp_2d s)) = stray_grid /\
  st_coords (fst (th_nearest_interp_2d s)) = [[0; 1]; [0; 1]; [0; 0]; [1; 0]].
Proof.
  intros s.
  destruct (resampler_frame s) as ((I1 & _) & (C1 & _) & N2 & _).
  refine (conj I1 (conj C1 _)).
  rewrite (N2 1%nat 2%nat 2%nat [] eq_refl); [reflexivity|].
  repeat constructor.
Defined.

(** C9, as stated, fails: the bilinear resampler does not clamp the grid
    it is passed in place; the grid still holds the out-of-range
    coordinates after the call. *)
Lemma bilinear_does_not_clamp_in_place :
  let s := mkStore small_image stray_grid in
  st_coords (fst (th_bilinear_interp_2d s)) <>
  clamp_grid (2 - 2) (2 - 2) (st_coords s).
Proof. vm_compute. discriminate. Qed.

(** ** The matrix and the mode of the affine mappers *)

Lemma tbind_raise {A B} (m : Traced A) (k : A -> Traced B) :
  is_ok (snd m) = false -> is_ok (snd (tbind m k)) = false.
Proof. destruct m as [t [a|e]]; simpl; [discriminate|reflexivity]. Qed.

Lemma tbind_never_ok {A B} (m : Traced A) (k : A -> Traced B) :
  (forall a, is_ok (snd (k a)) = false) -> is_ok (snd (tbind m k)) = false.
Proof.
  intros H. destruct m as [t [a|e]]; simpl; [|reflexivity].
  specialize (H a). now destruct (k a).
Qed.

Lemma th_affine_2d_unknown_mode_raises x matrix mode center :
  mode <> "nearest"%string -> mode <> "bilinear"%string ->
  is_ok (snd (th_affine_2d x matrix mode center)) = false.
Proof.
  intros H1 H2. apply String.eqb_neq in H1, H2.
  unfold th_affine_2d. rewrite H1, H2.
  repeat (apply tbind_never_ok; intros). reflexivity.
Qed.

Lemma th_affine_3d_unknown_mode_raises x matrix mode center :
  mode <> "nearest"%string -> mode <> "trilinear"%string ->
  is_ok (snd (th_affine_3d x matrix mode center)) = false.
Proof.
  intros H1 H2. apply String.eqb_neq in H1, H2.
  unfold th_affine_3d. rewrite H1, H2.
  repeat (apply tbind_never_ok; intros). reflexivity.
Qed.

Lemma th_affine_2d_unknown_mode_late x matrix mode center c h w rest r0 r1 more :
  mode <> "nearest"%string -> mode <> "bilinear"%string ->
  size x = c :: h :: w :: rest ->
  matrix = r0 :: r1 :: more ->
  (3 <= length r0)%nat -> (3 <= length r1)%nat ->
  th_affine_2d x matrix mode center =
  ([GridGenerated; CoordsMapped], Raise UnboundLocalError).
Proof.
  intros H1 H2 Hsz -> L0 L1. apply String.eqb_neq in H1, H2.
  destruct r0 as [|a0 [|a1 [|a2 t0]]]; simpl in L0; try lia.
  destruct r1 as [|b0 [|b1 [|b2 t1]]]; simpl in L1; try lia.
  unfold th_affine_2d, tsize. rewrite H1, H2, Hsz.
  cbn [firstn get_col mapM nth_error rbind map tlift tbind].
  rewrite th_iterproduct_cons.
  unfold affine_map. cbn [length Nat.eqb forallb andb tick tbind tlift app].
  reflexivity.
Qed.

Lemma th_affine_3d_unknown_mode_late x matrix mode center c d h w rest
    r0 r1 r2 more :
  mode <> "nearest"%string -> mode <> "trilinear"%string ->
  size x = c :: d :: h :: w :: rest ->
  matrix = r0 :: r1 :: r2 :: more ->
  (4 <= length r0)%nat -> (4 <= length r1)%nat -> (4 <= length r2)%nat ->
  th_affine_3d x matrix mode center =
  ([GridGenerated; CoordsMapped], Raise UnboundLocalError).
Proof.
  intros H1 H2 Hsz -> L0 L1 L2. apply String.eqb_neq in H1, H2.
  destruct r0 as [|a0 [|a1 [|a2 [|a3 t0]]]]; simpl in L0; try lia.
  destruct r1 as [|b0 [|b1 [|b2 [|b3 t1]]]]; simpl in L1; try lia.
  destruct r2 as [|c0 [|c1 [|c2 [|c3 t2]]]]; simpl in L2; try lia.
  unfold th_affine_3d, tsize. rewrite H1, H2, Hsz.
  cbn [firstn get_col mapM nth_error rbind map tlift tbind].
  rewrite th_iterproduct_cons.
  unfold affine_map. cbn [length Nat.eqb forallb andb tick tbind tlift app].
  reflexivity.
Qed.

(** C5, as amended.  With a mode outside the recognised ones an affine
    mapper never returns a tensor, but the mode is looked at last: on a
    tensor and a matrix of the documented shapes the grid is generated and
    the coordinates are mapped first, no resampler runs, and the final
    [return] raises [UnboundLocalError]. *)
Theorem unknown_mode_fails_after_mapping x matrix mode center :
  (mode <> "nearest"%string -> mode <> "bilinear"%string ->
   is_ok (snd (th_affine_2d x matrix mode center)) = false /\
   forall c h w rest r0 r1 more,
     size x = c :: h :: w :: rest ->
     matrix = r0 :: r1 :: more ->
     (3 <= length r0)%nat -> (3 <= length r1)%nat ->
     th_affine_2d x matrix mode center =
     ([GridGenerated; CoordsMapped], Raise UnboundLocalError)) /\
  (mode <> "nearest"%string -> mode <> "trilinear"%string ->
   is_ok (snd (th_affine_3d x matrix mode center)) = false /\
   forall c d h w rest r0 r1 r2 more,
     size x = c :: d :: h :: w :: rest ->
     matrix = r0 :: r1 :: r2 :: more ->
     (4 <= length r0)%nat -> (4 <= length r1)%nat -> (4 <= length r2)%nat ->
     th_affine_3d x matrix mode center =
     ([GridGenerated; CoordsMapped], Raise UnboundLocalError)).
Proof.
  split; intros H1 H2; split.
  - now apply th_affine_2d_unknown_mode_raises.
  - intros. eapply th_affine_2d_unknown_mode_late; eassumption.
  - now apply th_affine_3d_unknown_mode_raises.
  - intros. eapply th_affine_3d_unknown_mode_late; eassumption.
Qed.

Lemma unknown_mode_fails_after_mapping_witness :
  th_affine_2d ramp_image eye3 "cubic" true =
    ([GridGenerated; CoordsMapped], Raise UnboundLocalError) /\
  th_affine_3d ramp_volume eye4 "bilinear" true =
    ([GridGenerated; CoordsMapped], Raise UnboundLocalError).
Proof.
  assert (N1 : "cubic"%string <> "nearest"%string) by discriminate.
  assert (N2 : "cubic"%string <> "bilinear"%string) by discriminate.
  assert (N3 : "bilinear"%string <> "nearest"%string) by discriminate.
  assert (N4 : "bilinear"%string <> "trilinear"%string) by discriminate.
  split.
  - destruct (unknown_mode_fails_after_mapping ramp_image eye3 "cubic" true)
      as [H2 _].
    apply (proj2 (H2 N1 N2) 1%nat 2%nat 3%nat []
             [1; 0; 0] [0; 1; 0] [[0; 0; 1]]);
      try reflexivity; simpl; lia.
  - destruct (unknown_mode_fails_after_mapping ramp_volume eye4 "bilinear" true)
      as [_ H3].
    apply (proj2 (H3 N3 N4) 1%nat 2%nat 2%nat 2%nat []
             [1; 0; 0; 0] [0; 1; 0; 0] [0; 0; 1; 0] [[0; 0; 0; 1]]);
      try reflexivity; simpl; lia.
Defined.

(** C5, as stated, fails: with the mode ['cubic'] the 2-D mapper has
    generated the grid and mapped the coordinates by the time the error is
    raised. *)
Lemma unknown_mode_is_not_fail_fast :
  fst (th_affine_2d ramp_image eye3 "cubic" true) <> [].
Proof. vm_compute. discriminate. Qed.

(** ** The rows of the matrix the 2-D mapper reads *)

(** C10.  Two matrices that agree on their first two rows give the same
    result, trace included: the third row of a 3 by 3 matrix is never
    read. *)
Theorem th_affine_2d_ignores_third_row x (m1 m2 : Matrix) mode center :
  firstn 2 m1 = firstn 2 m2 ->
  th_affine_2d x m1 mode center = th_affine_2d x m2 mode center.
Proof. intros H. unfold th_affine_2d. now rewrite H. Qed.

Lemma th_affine_2d_ignores_third_row_witness :
  th_affine_2d ramp_image [[1; 0; 1 # 2]; [0; 1; 0]; [0; 0; 1]] "bilinear" true =
  th_affine_2d ramp_image [[1; 0; 1 # 2]; [0; 1; 0]; [7; -3 # 1; 5]] "bilinear" true.
Proof.
  apply (@th_affine_2d_ignores_third_row ramp_image
           [[1; 0; 1 # 2]; [0; 1; 0]; [0; 0; 1]]
           [[1; 0; 1 # 2]; [0; 1; 0]; [7; -3 # 1; 5]] "bilinear" true).
  reflexivity.
Defined.

(** ** Weights of the multilinear resamplers *)

Lemma nth_map2 {A B C} (f : A -> B -> C) l m p d d1 d2 :
  (p < length l)%nat -> (p < length m)%nat ->
  nth p (map2 f l m) d = f (nth p l d1) (nth p m d2).
Proof.
  revert m p. induction l as [|a l IH]; intros [|b m] [|p] Hl Hm;
    simpl in *; try lia; [reflexivity|].
  apply IH; lia.
Qed.

Lemma nth_map_lt {A B} (f : A -> B) l p d d1 :
  (p < length l)%nat -> nth p (map f l) d = f (nth p l d1).
Proof.
  revert p. induction l as [|a l IH]; intros [|p] Hl; simpl in *;
    try lia; [reflexivity|].
  apply IH; lia.
Qed.

Lemma lt_length_map2 {A B C} (f : A -> B -> C) l m p :
  (p < length l)%nat -> (p < length m)%nat -> (p < length (map2 f l m))%nat.
Proof. rewrite length_map2. lia. Qed.

Lemma lt_length_map {A B} (f : A -> B) l p :
  (p < length l)%nat -> (p < length (map f l))%nat.
Proof. now rewrite length_map. Qed.

Ltac length_side :=
  repeat first [ assumption | apply lt_length_map2 | apply lt_length_map ].

Ltac nth_pointwise :=
  unfold vadd, vmul, vsub, vmap;
  repeat (first
    [ rewrite (nth_map2 _ _ _ 0 0 0) by length_side
    | rewrite (nth_map_lt _ _ 0 0) by length_side ]).

Lemma x_mapped_2d_entry v00 v10 v01 v11 xd yd p :
  Forall (fun a => (p < length a)%nat) [v00; v10; v01; v11; xd; yd] ->
  nth p (x_mapped_2d v00 v10 v01 v11 xd yd) 0 ==
  dot (at_pos p [v00; v10; v01; v11])
      (corner_weights_2d (nth p xd 0) (nth p yd 0)).
Proof.
  intros H.
  repeat match goal with
         | H : Forall _ (_ :: _) |- _ => inversion H; clear H; subst
         end.
  unfold x_mapped_2d. nth_pointwise.
  unfold dot, at_pos, corner_weights_2d. cbn [map map2 fold_right]. ring.
Qed.

Lemma x_mapped_3d_entry v000 v100 v010 v001 v101 v011 v110 v111 xd yd zd p :
  Forall (fun a => (p < length a)%nat)
    [v000; v100; v010; v001; v101; v011; v110; v111; xd; yd; zd] ->
  nth p (x_mapped_3d v000 v100 v010 v001 v101 v011 v110 v111 xd yd zd) 0 ==
  dot (at_pos p [v000; v100; v010; v001; v101; v011; v110; v111])
      (corner_weights_3d (nth p xd 0) (nth p yd 0) (nth p zd 0)).
Proof.
  intros H.
  repeat match goal with
         | H : Forall _ (_ :: _) |- _ => inversion H; clear H; subst
         end.
  unfold x_mapped_3d. nth_pointwise.
  unfold dot, at_pos, corner_weights_3d. cbn [map map2 fold_right]. ring.
Qed.

Lemma index1_In flat i v : index1 flat i = Ok v -> In v flat.
Proof.
  unfold index1.
  destruct ((0 <=? i)%Z && (i <? Z.of_nat (length flat))%Z) eqn:E1.
  - intros [= <-]. apply andb_prop in E1. destruct E1 as [E1 E2].
    apply Z.leb_le in E1. apply Z.ltb_lt in E2. apply nth_In. lia.
  - destruct ((- Z.of_nat (length flat) <=? i)%Z && (i <? 0)%Z) eqn:E2;
      [|discriminate].
    intros [= <-]. apply andb_prop in E2. destruct E2 as [E2 E3].
    apply Z.leb_le in E2. apply Z.ltb_lt in E3. apply nth_In. lia.
Qed.

Lemma index_In flat idx vals p :
  index flat idx = Ok vals -> (p < length vals)%nat -> In (nth p vals 0) flat.
Proof.
  unfold index. revert vals p.
  induction idx as [|i idx IH]; simpl; intros vals p H Hp.
  - injection H as <-. simpl in Hp. lia.
  - destruct (index1 flat i) as [v|] eqn:E; cbn [rbind] in H; [|discriminate].
    destruct (mapM (index1 flat) idx) as [vs|]; cbn [rbind] in H; [|discriminate].
    injection H as <-. destruct p as [|p]; simpl in *.
    + eapply index1_In; eassumption.
    + apply (IH vs p eq_refl). lia.
Qed.

Lemma view_as_storage vals input out :
  view_as vals input = Ok out -> storage out = vals.
Proof.
  unfold view_as. destruct (_ =? _)%nat; [|discriminate].
  now intros [= <-].
Qed.

Ltac gather_lengths :=
  repeat match goal with
         | H : index _ _ = Ok ?v |- _ =>
             lazymatch goal with
             | _ : length v = _ |- _ => fail
             | _ =>
                 let L := fresh "L" in
                 pose proof (mapM_length _ _ H) as L;
                 unfold add3, scaled_long, vmap in L;
                 rewrite ?length_map2, ?length_map in L
             end
         end.

(** Case analysis on the next fallible step of a body. *)
Tactic Notation "next_step" hyp(H) "as" ident(v) :=
  match type of H with
  | rbind ?r _ = Ok _ =>
      let E := fresh "E" v in
      destruct r as [v|] eqn:E; cbn [rbind] in H; [|discriminate H]
  end.

Lemma bilinear_2d_body_entry input h w c0 c1 out p :
  bilinear_2d_body input h w c0 c1 = Ok out ->
  length c0 = length c1 -> (p < length c0)%nat ->
  exists vals,
    length vals = 4%nat /\ incl vals (th_flatten input) /\
    nth p (storage out) 0 ==
    dot vals (corner_weights_2d (axis_frac h (nth p c0 0))
                                (axis_frac w (nth p c1 0))).
Proof.
  unfold bilinear_2d_body. intros H Hlen Hp.
  assert (Hp1 : (p < length c1)%nat) by lia.
  next_step H as s0. next_step H as s1.
  next_step H as v00. next_step H as v10.
  next_step H as v01. next_step H as v11.
  apply view_as_storage in H. rewrite H.
  gather_lengths.
  assert (L00 : (p < length v00)%nat) by lia.
  assert (L10 : (p < length v10)%nat) by lia.
  assert (L01 : (p < length v01)%nat) by lia.
  assert (L11 : (p < length v11)%nat) by lia.
  exists (at_pos p [v00; v10; v01; v11]). split; [reflexivity|]. split.
  - unfold at_pos. cbn [map]. intros v Hv. simpl in Hv.
    decompose [or] Hv; try contradiction; subst v;
      eapply index_In; eassumption.
  - rewrite x_mapped_2d_entry.
    + unfold axis_frac. nth_pointwise. reflexivity.
    + unfold vsub, vmap.
      repeat (constructor; [length_side; lia|]). constructor.
Qed.

Lemma trilinear_3d_body_entry input d h w c0 c1 c2 out p :
  trilinear_3d_body input d h w c0 c1 c2 = Ok out ->
  length c0 = length c1 -> length c0 = length c2 -> (p < length c0)%nat ->
  exists vals,
    length vals = 8%nat /\ incl vals (th_flatten input) /\
    nth p (storage out) 0 ==
    dot vals (corner_weights_3d (axis_frac d (nth p c0 0))
                                (axis_frac h (nth p c1 0))
                                (axis_frac w (nth p c2 0))).
Proof.
  unfold trilinear_3d_body. intros H Hlen1 Hlen2 Hp.
  assert (Hp1 : (p < length c1)%nat) by lia.
  assert (Hp2 : (p < length c2)%nat) by lia.
  next_step H as s0. next_step H as s1. next_step H as s2.
  next_step H as v000. next_step H as v100.
  next_step H as v010. next_step H as v001.
  next_step H as v101. next_step H as v011.
  next_step H as v110. next_step H as v111.
  apply view_as_storage in H. rewrite H.
  gather_lengths.
  assert (L000 : (p < length v000)%nat) by lia.
  assert (L100 : (p < length v100)%nat) by lia.
  assert (L010 : (p < length v010)%nat) by lia.
  assert (L001 : (p < length v001)%nat) by lia.
  assert (L101 : (p < length v101)%nat) by lia.
  assert (L011 : (p < length v011)%nat) by lia.
  assert (L110 : (p < length v110)%nat) by lia.
  assert (L111 : (p < length v111)%nat) by lia.
  exists (at_pos p [v000; v100; v010; v001; v101; v011; v110; v111]).
  split; [reflexivity|]. split.
  - unfold at_pos. cbn [map]. intros v Hv. simpl in Hv.
    decompose [or] Hv; try contradiction; subst v;
      eapply index_In; eassumption.
  - rewrite x_mapped_3d_entry.
    + unfold axis_frac. nth_pointwise. reflexivity.
    + unfold vsub, vmap.
      repeat (constructor; [length_side; lia|]). constructor.
Qed.

Lemma bilinear_2d_body_blend input h w c0 c1 out :
  bilinear_2d_body input h w c0 c1 = Ok out -> length c0 = length c1 ->
  exists s0 s1 v00 v10 v01 v11,
    (spatial_stride input 0 = Ok s0 /\ spatial_stride input 1 = Ok s1) /\
    (let flat := th_flatten input in
     let ix := corner_ix h s0 c0 in
     let iy := corner_ix w s1 c1 in
     index flat (map2 Z.add (ix false) (iy false)) = Ok v00 /\
     index flat (map2 Z.add (ix true) (iy false)) = Ok v10 /\
     index flat (map2 Z.add (ix false) (iy true)) = Ok v01 /\
     index flat (map2 Z.add (ix true) (iy true)) = Ok v11) /\
    forall p, (p < length c0)%nat ->
      nth p (storage out) 0 ==
      dot (at_pos p [v00; v10; v01; v11])
          (corner_weights_2d (axis_frac h (nth p c0 0))
                             (axis_frac w (nth p c1 0))).
Proof.
  unfold bilinear_2d_body. intros H Hlen.
  next_step H as s0. next_step H as s1.
  next_step H as v00. next_step H as v10.
  next_step H as v01. next_step H as v11.
  exists s0, s1, v00, v10, v01, v11.
  split; [split; reflexivity|]. split; [now repeat split|].
  intros p Hp. assert (Hp1 : (p < length c1)%nat) by lia.
  apply view_as_storage in H. rewrite H.
  gather_lengths.
  assert (L00 : (p < length v00)%nat) by lia.
  assert (L10 : (p < length v10)%nat) by lia.
  assert (L01 : (p < length v01)%nat) by lia.
  assert (L11 : (p < length v11)%nat) by lia.
  rewrite x_mapped_2d_entry.
  - unfold axis_frac. nth_pointwise. reflexivity.
  - unfold vsub, vmap.
    repeat (constructor; [length_side; lia|]). constructor.
Qed.

Lemma trilinear_3d_body_blend input d h w c0 c1 c2 out :
  trilinear_3d_body input d h w c0 c1 c2 = Ok out ->
  length c0 = length c1 -> length c0 = length c2 ->
  exists s0 s1 s2 v000 v100 v010 v001 v101 v011 v110 v111,
    (spatial_stride input 0 = Ok s0 /\ spatial_stride input 1 = Ok s1 /\
     spatial_stride input 2 = Ok s2) /\
    (let flat := th_flatten input in
     let ix := corner_ix d s0 c0 in
     let iy := corner_ix h s1 c1 in
     let iz := corner_ix w s2 c2 in
     index flat (add3 (ix false) (iy false) (iz false)) = Ok v000 /\
     index flat (add3 (ix true) (iy false) (iz false)) = Ok v100 /\
     index flat (add3 (ix false) (iy true) (iz false)) = Ok v010 /\
     index flat (add3 (ix false) (iy false) (iz true)) = Ok v001 /\
     index flat (add3 (ix true) (iy false) (iz true)) = Ok v101 /\
     index flat (add3 (ix false) (iy true) (iz true)) = Ok v011 /\
     index flat (add3 (ix true) (iy true) (iz false)) = Ok v110 /\
     index flat (add3 (ix true) (iy true) (iz true)) = Ok v111) /\
    forall p, (p < length c0)%nat ->
      nth p (storage out) 0 ==
      dot (at_pos p [v000; v100; v010; v001; v101; v011; v110; v111])
          (corner_weights_3d (axis_frac d (nth p c0 0))
                             (axis_frac h (nth p c1 0))
                             (axis_frac w (nth p c2 0))).
Proof.
  unfold trilinear_3d_body. intros H Hlen1 Hlen2.
  next_step H as s0. next_step H as s1. next_step H as s2.
  next_step H as v000. next_step H as v100.
  next_step H as v010. next_step H as v001.
  next_step H as v101. next_step H as v011.
  next_step H as v110. next_step H as v111.
  exists s0, s1, s2, v000, v100, v010, v001, v101, v011, v110, v111.
  split; [repeat split; reflexivity|]. split; [now repeat split|].
  intros p Hp.
  assert (Hp1 : (p < length c1)%nat) by lia.
  assert (Hp2 : (p < length c2)%nat) by lia.
  apply view_as_storage in H. rewrite H.
  gather_lengths.
  assert (L000 : (p < length v000)%nat) by lia.
  assert (L100 : (p < length v100)%nat) by lia.
  assert (L010 : (p < length v010)%nat) by lia.
  assert (L001 : (p < length v001)%nat) by lia.
  assert (L101 : (p < length v101)%nat) by lia.
  assert (L011 : (p < length v011)%nat) by lia.
  assert (L110 : (p < length v110)%nat) by lia.
  assert (L111 : (p < length v111)%nat) by lia.
  rewrite x_mapped_3d_entry.
  - unfold axis_frac. nth_pointwise. reflexivity.
  - unfold vsub, vmap.
    repeat (constructor; [length_side; lia|]). constructor.
Qed.

Lemma corner_weights_2d_sum xd yd : Qsum (corner_weights_2d xd yd) == 1.
Proof. unfold Qsum, corner_weights_2d. cbn [fold_right]. ring. Qed.

Lemma corner_weights_3d_sum xd yd zd : Qsum (corner_weights_3d xd yd zd) == 1.
Proof. unfold Qsum, corner_weights_3d. cbn [fold_right]. ring. Qed.

(** C3.  At every output position the weighted sum the bilinear resampler
    computes is the dot product of the four values it gathered with the
    four corner weights, each the product over the axes of the fraction
    (ceil corner) or of its complement (floor corner), and these weights
    sum to 1; likewise for the eight values and weights of the trilinear
    resampler.  The values are the gathers of the source at the floor and
    ceil corners of the clamped coordinates, the fractions those of the
    clamped coordinates.  All this in exact arithmetic. *)
Theorem corner_weights_sum_to_one :
  (forall v00 v10 v01 v11 xd yd p,
     Forall (fun a => (p < length a)%nat) [v00; v10; v01; v11; xd; yd] ->
     nth p (x_mapped_2d v00 v10 v01 v11 xd yd) 0 ==
       dot (at_pos p [v00; v10; v01; v11])
           (corner_weights_2d (nth p xd 0) (nth p yd 0)) /\
     Qsum (corner_weights_2d (nth p xd 0) (nth p yd 0)) == 1) /\
  (forall v000 v100 v010 v001 v101 v011 v110 v111 xd yd zd p,
     Forall (fun a => (p < length a)%nat)
       [v000; v100; v010; v001; v101; v011; v110; v111; xd; yd; zd] ->
     nth p (x_mapped_3d v000 v100 v010 v001 v101 v011 v110 v111 xd yd zd) 0 ==
       dot (at_pos p [v000; v100; v010; v001; v101; v011; v110; v111])
           (corner_weights_3d (nth p xd 0) (nth p yd 0) (nth p zd 0)) /\
     Qsum (corner_weights_3d (nth p xd 0) (nth p yd 0) (nth p zd 0)) == 1) /\
  (forall input h w c0 c1 out,
     bilinear_2d_body input h w c0 c1 = Ok out -> length c0 = length c1 ->
     exists s0 s1 v00 v10 v01 v11,
       (spatial_stride input 0 = Ok s0 /\ spatial_stride input 1 = Ok s1) /\
       (let flat := th_flatten input in
        let ix := corner_ix h s0 c0 in
        let iy := corner_ix w s1 c1 in
        index flat (map2 Z.add (ix false) (iy false)) = Ok v00 /\
        index flat (map2 Z.add (ix true) (iy false)) = Ok v10 /\
        index flat (map2 Z.add (ix false) (iy true)) = Ok v01 /\
        index flat (map2 Z.add (ix true) (iy true)) = Ok v11) /\
       forall p, (p < length c0)%nat ->
         nth p (storage out) 0 ==
         dot (at_pos p [v00; v10; v01; v11])
             (corner_weights_2d (axis_frac h (nth p c0 0))
                                (axis_frac w (nth p c1 0)))) /\
  (forall input d h w c0 c1 c2 out,
     trilinear_3d_body input d h w c0 c1 c2 = Ok out ->
     length c0 = length c1 -> length c0 = length c2 ->
     exists s0 s1 s2 v000 v100 v010 v001 v101 v011 v110 v111,
       (spatial_stride input 0 = Ok s0 /\ spatial_stride input 1 = Ok s1 /\
        spatial_stride input 2 = Ok s2) /\
       (let flat := th_flatten input in
        let ix := corner_ix d s0 c0 in
        let iy := corner_ix h s1 c1 in
        let iz := corner_ix w s2 c2 in
        index flat (add3 (ix false) (iy false) (iz false)) = Ok v000 /\
        index flat (add3 (ix true) (iy false) (iz false)) = Ok v100 /\
        index flat (add3 (ix false) (iy true) (iz false)) = Ok v010 /\
        index flat (add3 (ix false) (iy false) (iz true)) = Ok v001 /\
        index flat (add3 (ix true) (iy false) (iz true)) = Ok v101 /\
        index flat (add3 (ix false) (iy true) (iz true)) = Ok v011 /\
        index flat (add3 (ix true) (iy true) (iz false)) = Ok v110 /\
        index flat (add3 (ix true) (iy true) (iz true)) = Ok v111) /\
       forall p, (p < length c0)%nat ->
         nth p (storage out) 0 ==
         dot (at_pos p [v000; v100; v010; v001; v101; v011; v110; v111])
             (corner_weights_3d (axis_frac d (nth p c0 0))
                                (axis_frac h (nth p c1 0))
                                (axis_frac w (nth p c2 0)))).
Proof.
  split; [|split; [|split]].
  - intros. split; [now apply x_mapped_2d_entry | apply corner_weights_2d_sum].
  - intros. split; [now apply x_mapped_3d_entry | apply corner_weights_3d_sum].
  - intros. now apply bilinear_2d_body_blend.
  - intros. now apply trilinear_3d_body_blend.
Qed.

Lemma corner_weights_sum_to_one_witness :
  nth 1 (x_mapped_2d [10; 20] [30; 40] [50; 60] [70; 80] [0; 1 # 3] [0; 3 # 4]) 0
    == dot [20; 40; 60; 80] (corner_weights_2d (1 # 3) (3 # 4)) /\
  Qsum (corner_weights_2d (1 # 3) (3 # 4)) == 1.
Proof.
  destruct corner_weights_sum_to_one as (S2 & _).
  apply (S2 [10; 20] [30; 40] [50; 60] [70; 80] [0; 1 # 3] [0; 3 # 4] 1%nat).
  repeat constructor.
Defined.

(** ** Several channels in bilinear mode *)

Lemma shift_col_map k delta (m : Coords) :
  shift_col k delta m = map (fun r => set_nth k (nth k r 0 + delta) r) m.
Proof. unfold shift_col. apply (set_col_map k (fun a => a + delta)). Qed.

Lemma shift_col_length k delta (m : Coords) :
  length (shift_col k delta m) = length m.
Proof. rewrite shift_col_map. apply length_map. Qed.

Lemma shift_col_width k delta (m : Coords) n :
  Forall (fun r => length r = n) m ->
  Forall (fun r => length r = n) (shift_col k delta m).
Proof.
  intros H. rewrite shift_col_map. apply Forall_map.
  eapply Forall_impl; [|exact H]. intros r Hr. cbv beta in *.
  now rewrite length_set_nth.
Qed.

Lemma affine_map_shape D coords A b out :
  affine_map D coords A b = Ok out ->
  length out = length coords /\ Forall (fun r => length r = D) out.
Proof.
  unfold affine_map.
  destruct ((length A =? D)%nat && forallb (fun a => (length a =? D)%nat) A
            && (length b =? D)%nat)%bool eqn:E.
  - intros [= <-]. apply andb_prop in E. destruct E as [E Eb].
    apply andb_prop in E. destruct E as [EA _].
    apply Nat.eqb_eq in EA, Eb. split.
    + apply length_map.
    + apply Forall_map, Forall_forall. intros r _.
      rewrite length_map2, length_map. lia.
  - destruct A as [|a [|a' A]]; try discriminate.
    destruct b as [|b0 [|b1 b]]; try discriminate.
    destruct (length a =? D)%nat; [|discriminate].
    intros [= <-]. split.
    + apply length_map.
    + apply Forall_map, Forall_forall. intros r _. apply repeat_length.
Qed.

Lemma length_col k (m : Coords) : length (col k m) = length m.
Proof. apply length_map. Qed.

Lemma length_x_mapped_2d v00 v10 v01 v11 xd yd n :
  length v00 = n -> length v10 = n -> length v01 = n -> length v11 = n ->
  length xd = n -> length yd = n ->
  length (x_mapped_2d v00 v10 v01 v11 xd yd) = n.
Proof.
  intros H1 H2 H3 H4 H5 H6. unfold x_mapped_2d, vadd, vmul, vmap.
  rewrite !length_map2, !length_map, H1, H2, H3, H4, H5, H6, !Nat.min_id.
  reflexivity.
Qed.

Lemma bilinear_2d_body_several_channels x c h w c0 c1 :
  size x = [c; h; w] -> (2 <= c)%nat -> (1 <= h)%nat -> (1 <= w)%nat ->
  length c0 = (h * w)%nat -> length c1 = (h * w)%nat ->
  is_ok (bilinear_2d_body x (Z.of_nat h) (Z.of_nat w) c0 c1) = false.
Proof.
  intros Hsz Hc Hh Hw L0 L1.
  destruct (bilinear_2d_body x (Z.of_nat h) (Z.of_nat w) c0 c1) as [out|e] eqn:H;
    [exfalso|reflexivity].
  unfold bilinear_2d_body in H.
  next_step H as s0. next_step H as s1.
  next_step H as v00. next_step H as v10.
  next_step H as v01. next_step H as v11.
  gather_lengths. rewrite L0, L1, Nat.min_id in *.
  unfold view_as in H.
  rewrite (@length_x_mapped_2d _ _ _ _ _ _ (h * w)%nat) in H; try assumption.
  - replace (h * w =? numel x)%nat with false in H; [discriminate|].
    symmetry. apply Nat.eqb_neq. unfold numel. rewrite Hsz. simpl. nia.
  - unfold vsub, vmap. rewrite length_map2, !length_map, L0. apply Nat.min_id.
  - unfold vsub, vmap. rewrite length_map2, !length_map, L1. apply Nat.min_id.
Qed.

Lemma th_affine_2d_bilinear_several_channels x c h w matrix center :
  size x = [c; h; w] -> (2 <= c)%nat -> (1 <= h)%nat -> (1 <= w)%nat ->
  is_ok (snd (th_affine_2d x matrix "bilinear" center)) = false.
Proof.
  intros Hsz Hc Hh Hw. unfold th_affine_2d, tsize. rewrite Hsz.
  cbn [nth_error String.eqb Ascii.eqb Bool.eqb].
  apply tbind_never_ok. intros b. cbn [tlift tbind snd app].
  rewrite th_iterproduct_cons. cbn [tick tbind app].
  destruct (affine_map 2 _ _ b) as [nc|e] eqn:E; [|reflexivity].
  apply affine_map_shape in E. destruct E as [Elen Ewid].
  assert (Hlen : length nc = (h * w)%nat).
  { rewrite Elen. destruct center;
      rewrite ?shift_col_length, length_map, length_cartesian; apply prodn_2. }
  cbn [tbind tlift tick app snd].
  set (nc' := if center then _ else nc).
  assert (Hlen' : length nc' = (h * w)%nat)
    by (subst nc'; destruct center; now rewrite ?shift_col_length).
  assert (Hwid' : Forall (fun r => length r = 2%nat) nc')
    by (subst nc'; destruct center; auto using shift_col_width).
  unfold call.
  rewrite (@th_bilinear_interp_2d_run x nc' c h w [] Hsz)
    by (eapply Forall_impl; [|exact Hwid']; simpl; lia).
  cbn [snd].
  pose proof (@bilinear_2d_body_several_channels x c h w (col 0 nc') (col 1 nc')
                Hsz Hc Hh Hw) as B.
  rewrite !length_col in B. specialize (B Hlen' Hlen').
  destruct (bilinear_2d_body _ _ _ _ _); [discriminate B|reflexivity].
Qed.

(** ** The nearest resampler as a gather *)

Lemma round_half_even_range (a b : Z) (v : Q) :
  inject_Z a <= v -> v <= inject_Z b ->
  (a <= round_half_even v <= b)%Z.
Proof.
  intros Ha Hb.
  pose proof (Qfloor_le v) as Hf. pose proof (Qlt_floor v) as Hc.
  assert (Hlo : (a <= Qfloor v)%Z).
  { assert (H : inject_Z a < inject_Z (Qfloor v + 1))
      by (eapply Qle_lt_trans; eassumption).
    rewrite <- Zlt_Qlt in H. lia. }
  assert (Hhi : (Qfloor v <= b)%Z).
  { rewrite Zle_Qle. eapply Qle_trans; eassumption. }
  assert (Hup : inject_Z (Qfloor v) < v -> (Qfloor v + 1 <= b)%Z).
  { intros H. assert (H' : inject_Z (Qfloor v) < inject_Z b)
      by (eapply Qlt_le_trans; eassumption).
    rewrite <- Zlt_Qlt in H'. lia. }
  unfold round_half_even.
  destruct (Qcompare (v - inject_Z (Qfloor v)) (1 # 2)) eqn:E.
  - apply Qeq_alt in E.
    assert (inject_Z (Qfloor v) < v).
    { clear - E. set (q := inject_Z (Qfloor v)) in *.
      setoid_replace v with (q + (1 # 2)) by (rewrite <- E; ring).
      rewrite <- (Qplus_0_r q) at 1. apply Qplus_lt_r. reflexivity. }
    specialize (Hup H). destruct (Z.even (Qfloor v)); lia.
  - lia.
  - apply Qgt_alt in E.
    assert (inject_Z (Qfloor v) < v).
    { clear - E. set (q := inject_Z (Qfloor v)) in *.
      apply Qlt_minus_iff. eapply Qlt_trans; [|exact E]. reflexivity. }
    specialize (Hup H). lia.
Qed.

Lemma nearest_offset_range h w r :
  (1 <= h)%nat -> (1 <= w)%nat ->
  (0 <= nearest_offset h w r < Z.of_nat (h * w))%Z.
Proof.
  intros Hh Hw. unfold nearest_offset.
  assert (R : forall n v, (1 <= n)%nat ->
            (0 <= round_half_even (clamp 0 (inject_Z (Z.of_nat n - 1)) v)
             <= Z.of_nat n - 1)%Z).
  { intros n v Hn. apply round_half_even_range; change 0 with (inject_Z 0);
      apply clamp_range; rewrite <- Zle_Qle; lia. }
  pose proof (R h (nth 0 r 0) Hh). pose proof (R w (nth 1 r 0) Hw). nia.
Qed.

(** Below [2 ^ 24] elements per channel the float32 offsets of the
    clamped and rounded grid are the exact ones. *)
Lemma nearest_grid_offsets h w (coords : Coords) :
  (1 <= h)%nat -> (1 <= w)%nat -> (Z.of_nat (h * w) < 2 ^ 24)%Z ->
  Forall (fun r => length r = 2%nat) coords ->
  map long
    (map (fun r => dot32 r (map (fun s => fl32 (inject_Z s))
                              [Z.of_nat (w * 1); Z.of_nat 1]))
       (nearest_grid_2d h w coords)) =
  map (nearest_offset h w) coords.
Proof.
  intros Hh Hw1 Hb Hw. unfold nearest_grid_2d. rewrite !map_map.
  apply map_ext_in. intros r Hr.
  rewrite Forall_forall in Hw. specialize (Hw r Hr).
  destruct r as [|a [|b [|? ?]]]; try discriminate Hw.
  cbn [nth set_nth]. unfold snap, round.
  set (i := round_half_even (clamp 0 (inject_Z (Z.of_nat h - 1)) a)).
  set (j := round_half_even (clamp 0 (inject_Z (Z.of_nat w - 1)) b)).
  assert (Hi : (0 <= i <= Z.of_nat h - 1)%Z).
  { subst i. apply round_half_even_range; change 0 with (inject_Z 0);
      apply clamp_range; rewrite <- Zle_Qle; lia. }
  assert (Hj : (0 <= j <= Z.of_nat w - 1)%Z).
  { subst j. apply round_half_even_range; change 0 with (inject_Z 0);
      apply clamp_range; rewrite <- Zle_Qle; lia. }
  assert (E : dotZ [i; j] [Z.of_nat (w * 1); Z.of_nat 1] =
              (i * Z.of_nat w + j)%Z).
  { unfold dotZ. cbn [map2 fold_right]. rewrite Nat.mul_1_r.
    change (Z.of_nat 1) with 1%Z. ring. }
  apply long_exact.
  change [inject_Z i; inject_Z j] with (map inject_Z [i; j]).
  rewrite dot32_exact.
  - rewrite E. unfold nearest_offset. cbn [nth]. reflexivity.
  - repeat constructor; lia.
  - rewrite Nat.mul_1_r. change (Z.of_nat 1) with 1%Z.
    repeat constructor; try lia; nia.
  - rewrite E. nia.
Qed.

Lemma nearest_grid_width h w (coords : Coords) :
  Forall (fun r => length r = 2%nat) coords ->
  Forall (fun r => length r = 2%nat) (nearest_grid_2d h w coords).
Proof.
  intros Hw. apply Forall_map. eapply Forall_impl; [|exact Hw].
  intros r Hr. cbv beta in *. now rewrite !length_set_nth.
Qed.

Lemma index_offsets (channel : list Q) (offs : list Z) :
  Forall (fun i => (0 <= i < Z.of_nat (length channel))%Z) offs ->
  index channel offs = Ok (map (fun i => nth (Z.to_nat i) channel 0) offs).
Proof.
  intros H. unfold index. apply mapM_ok_map.
  eapply Forall_impl; [|exact H]. intros i Hi. now apply index1_in_range.
Qed.

Lemma length_concat_uniform {A} (n : nat) (l : list (list A)) :
  Forall (fun r => length r = n) l -> length (concat l) = (length l * n)%nat.
Proof.
  induction 1 as [|r l Hr _ IH]; simpl; [reflexivity|].
  rewrite length_app, IH, Hr. reflexivity.
Qed.

Lemma length_chunks {A} (m c : nat) (l : list A) : length (chunks m c l) = c.
Proof.
  revert l. induction c as [|c IH]; intros l; simpl; [reflexivity|].
  now rewrite IH.
Qed.

(** On a row-major tensor with at least one channel and a grid of
    [h * w] coordinate pairs, the nearest resampler gathers, channel by
    channel, the entries at the clamped and rounded coordinates. *)
Lemma nearest_2d_gather x c h w coords :
  size x = [c; h; w] -> (1 <= c)%nat -> (1 <= h)%nat -> (1 <= w)%nat ->
  (Z.of_nat (h * w) < 2 ^ 24)%Z ->
  row_major x ->
  Forall (fun r => length r = 2%nat) coords ->
  length coords = (h * w)%nat ->
  call th_nearest_interp_2d x coords =
  Ok {| size := size x;
        stride := stride x;
        storage :=
          concat (map (fun channel =>
                         map (fun r => nth (Z.to_nat (nearest_offset h w r)) channel 0)
                             coords)
                      (chunks (h * w) c (storage x))) |}.
Proof.
  intros Hsz Hc Hh Hw Hb [Hst Hlen] Hwid Hn.
  assert (Hdata : length (storage x) = (c * (h * w))%nat).
  { rewrite Hlen. unfold numel. rewrite Hsz. simpl. lia. }
  unfold call.
  rewrite (@th_nearest_interp_2d_run x coords c h w [] Hsz)
    by (eapply Forall_impl; [|exact Hwid]; simpl; lia).
  cbn [snd]. rewrite Hst at 1. rewrite Hsz at 1.
  cbn [c_strides tl prodn fold_right].
  rewrite mv_ok
    by (eapply Forall_impl; [|apply (nearest_grid_width h w Hwid)];
        simpl; intros r ->; reflexivity).
  cbn [rbind]. rewrite (nearest_grid_offsets Hh Hw Hb Hwid).
  unfold th_c_flatten. rewrite Hsz, (contiguous_row_major x Hst).
  destruct c as [|c']; [lia|]. set (c := S c') in *.
  rewrite prodn_2. cbn [rbind].
  rewrite (mapM_ok_map _
             (fun channel =>
                map (fun r => nth (Z.to_nat (nearest_offset h w r)) channel 0) coords)).
  - cbn [rbind]. unfold view_as.
    rewrite (@length_concat_uniform _ (h * w)%nat).
    + rewrite length_map, length_chunks.
      replace (c * (h * w) =? numel x)%nat with true.
      * now rewrite Hst, Hsz.
      * symmetry. apply Nat.eqb_eq. unfold numel. rewrite Hsz. simpl. lia.
    + apply Forall_map, Forall_forall. intros ch _. now rewrite length_map.
  - eapply Forall_impl; [|apply (chunks_width (h * w) c _ Hdata)].
    intros ch Hch. cbv beta in Hch.
    rewrite index_offsets; [now rewrite map_map|].
    apply Forall_map, Forall_forall. intros r _. rewrite Hch.
    now apply nearest_offset_range.
Qed.

(** ** [th_affine_2d] as mapping followed by resampling *)

Lemma th_affine_2d_snd x matrix mode center c h w rest :
  size x = c :: h :: w :: rest ->
  snd (th_affine_2d x matrix mode center) =
  (new_coords <- mapped_grid_2d h w matrix center ;;
   resample_2d mode x new_coords)%result.
Proof.
  intros Hsz. unfold th_affine_2d, mapped_grid_2d, resample_2d, tsize.
  rewrite Hsz. cbn [nth_error].
  destruct (get_col 2 (firstn 2 matrix)) as [b|e]; [|reflexivity].
  cbn [tlift tbind rbind app]. rewrite th_iterproduct_cons.
  cbn [tick tbind app].
  destruct (affine_map 2 _ _ b) as [nc|e]; [|reflexivity].
  cbn [tlift tbind rbind app tick].
  destruct (mode =? "nearest")%string.
  - destruct (call th_nearest_interp_2d x _); reflexivity.
  - destruct (mode =? "bilinear")%string; [|reflexivity].
    destruct (call th_bilinear_interp_2d x _); reflexivity.
Qed.

Lemma mapped_grid_2d_shape h w matrix center nc :
  mapped_grid_2d h w matrix center = Ok nc ->
  length nc = (h * w)%nat /\ Forall (fun r => length r = 2%nat) nc.
Proof.
  unfold mapped_grid_2d. intros H.
  next_step H as b. next_step H as nc0. injection H as <-.
  apply affine_map_shape in Enc0. destruct Enc0 as [Elen Ewid].
  assert (Hlen : length nc0 = (h * w)%nat).
  { rewrite Elen. destruct center;
      rewrite ?shift_col_length, length_map, length_cartesian; apply prodn_2. }
  destruct center; rewrite ?shift_col_length; auto using shift_col_width.
Qed.


(** ** Channel independence *)

Lemma map_const {A B} (v : B) (l : list A) :
  map (fun _ => v) l = repeat v (length l).
Proof. induction l as [|a l IH]; simpl; [reflexivity|]. now rewrite IH. Qed.

Lemma nth_repeat_lt {A} (v d : A) (n k : nat) :
  (k < n)%nat -> nth k (repeat v n) d = v.
Proof.
  revert k. induction n as [|n IH]; intros [|k] H; simpl; try lia;
    [reflexivity|]. apply IH. lia.
Qed.

(** Whatever the offsets, a gather from a constant channel that succeeds
    returns that constant. *)
Lemma index_constant (v : Q) (n : nat) (idx : list Z) (vals : list Q) :
  index (repeat v n) idx = Ok vals -> vals = repeat v (length idx).
Proof.
  unfold index. revert vals.
  induction idx as [|i idx IH]; simpl; intros vals H.
  - now injection H as <-.
  - destruct (index1 (repeat v n) i) as [a|] eqn:E; cbn [rbind] in H;
      [|discriminate].
    destruct (mapM (index1 (repeat v n)) idx) as [vs|]; cbn [rbind] in H;
      [|discriminate].
    injection H as <-. apply index1_In, repeat_spec in E. subst a.
    now rewrite (IH vs eq_refl).
Qed.

Lemma nearest_keeps_zeros_ones x h w coords out :
  size x = [2; h; w]%nat -> (1 <= h)%nat -> (1 <= w)%nat -> row_major x ->
  storage x = repeat 0 (h * w) ++ repeat 1 (h * w) ->
  Forall (fun r => length r = 2%nat) coords ->
  length coords = (h * w)%nat ->
  call th_nearest_interp_2d x coords = Ok out -> out = x.
Proof.
  intros Hsz Hh Hw [Hst Hlen] Hsto Hwid Hn H. unfold call in H.
  rewrite (@th_nearest_interp_2d_run x coords 2 h w [] Hsz) in H
    by (eapply Forall_impl; [|exact Hwid]; simpl; lia).
  cbn [snd] in H. next_step H as idx_f.
  assert (Li : length (map long idx_f) = (h * w)%nat).
  { rewrite length_map, (mapM_length _ _ Eidx_f).
    unfold nearest_grid_2d. now rewrite length_map. }
  unfold th_c_flatten in H. rewrite Hsz, (contiguous_row_major x Hst) in H.
  rewrite prodn_2, Hsto in H. cbn [chunks rbind mapM] in H.
  rewrite firstn_app, skipn_app, !repeat_length, Nat.sub_diag in H.
  rewrite firstn_all2 in H by (rewrite repeat_length; lia).
  rewrite skipn_all2 in H by (rewrite repeat_length; lia).
  cbn [firstn skipn app] in H. rewrite !app_nil_r in H.
  rewrite firstn_all2 in H by (rewrite repeat_length; lia).
  destruct (index (repeat 0 (h * w)) _) as [v0|] eqn:Ev0; cbn [rbind] in H;
    [|discriminate].
  destruct (index (repeat 1 (h * w)) _) as [v1|] eqn:Ev1; cbn [rbind] in H;
    [|discriminate].
  apply index_constant in Ev0, Ev1.
  cbn [rbind concat] in H. rewrite app_nil_r in H.
  unfold view_as in H. destruct (_ =? _)%nat; [|discriminate].
  injection H as <-. rewrite Ev0, Ev1, Li.
  destruct x as [sz st sto]. simpl in *. now rewrite Hst, Hsto.
Qed.

Lemma th_affine_2d_nearest_zeros_ones x h w matrix center out :
  size x = [2; h; w]%nat -> (1 <= h)%nat -> (1 <= w)%nat -> row_major x ->
  storage x = repeat 0 (h * w) ++ repeat 1 (h * w) ->
  snd (th_affine_2d x matrix "nearest" center) = Ok out -> out = x.
Proof.
  intros Hsz Hh Hw Hrm Hsto H.
  rewrite (@th_affine_2d_snd x matrix "nearest" center _ h w [] Hsz) in H.
  next_step H as nc. apply mapped_grid_2d_shape in Enc.
  destruct Enc as [Hlen Hwid].
  unfold resample_2d in H. cbn [String.eqb Ascii.eqb Bool.eqb] in H.
  exact (nearest_keeps_zeros_ones Hsz Hh Hw Hrm Hsto Hwid Hlen H).
Qed.

(** C1 fails in bilinear mode.  On a tensor with two channels or more the
    bilinear path never returns a tensor: it gathers one value per grid
    point from the flattened tensor and then views these [h * w] values as
    the [c * h * w] input.  The nearest path, which gathers channel by
    channel, does keep channel 0 all zeros and channel 1 all ones. *)
Theorem channel_independence_fails_bilinear :
  (forall x c h w matrix center,
     size x = [c; h; w] -> (2 <= c)%nat -> (1 <= h)%nat -> (1 <= w)%nat ->
     is_ok (snd (th_affine_2d x matrix "bilinear" center)) = false) /\
  (forall x h w matrix center out,
     size x = [2; h; w]%nat -> (1 <= h)%nat -> (1 <= w)%nat -> row_major x ->
     storage x = repeat 0 (h * w) ++ repeat 1 (h * w) ->
     snd (th_affine_2d x matrix "nearest" center) = Ok out -> out = x) /\
  snd (th_affine_2d zeros_ones eye3 "bilinear" false) = Raise RuntimeError.
Proof.
  split; [|split].
  - intros. eapply th_affine_2d_bilinear_several_channels; eassumption.
  - intros. eapply th_affine_2d_nearest_zeros_ones; eassumption.
  - reflexivity.
Qed.

Lemma channel_independence_fails_bilinear_witness :
  is_ok (snd (th_affine_2d zeros_ones half_turn "bilinear" true)) = false /\
  snd (th_affine_2d zeros_ones half_turn "nearest" true) = Ok zeros_ones.
Proof.
  destruct channel_independence_fails_bilinear as (B & N & _).
  split.
  - apply (B zeros_ones 2%nat 2%nat 2%nat half_turn true eq_refl); lia.
  - assert (E : exists out,
               snd (th_affine_2d zeros_ones half_turn "nearest" true) = Ok out)
      by (eexists; vm_compute; reflexivity).
    destruct E as [out E]. rewrite E. f_equal.
    apply (N zeros_ones 2%nat 2%nat half_turn true out eq_refl);
      try lia; try reflexivity; try exact E.
    split; reflexivity.
Defined.

(** ** A spatial axis of size 1 in the multilinear resamplers *)

Lemma Forall_map2 {A B C} (PA : A -> Prop) (PB : B -> Prop) (P : C -> Prop)
    (f : A -> B -> C) l m :
  (forall a b, PA a -> PB b -> P (f a b)) ->
  Forall PA l -> Forall PB m -> Forall P (map2 f l m).
Proof.
  intros Hf Hl. revert m. induction Hl as [|a l Ha _ IH]; intros m Hm.
  - constructor.
  - destruct Hm as [|b m Hb Hm]; simpl; constructor; auto.
Qed.

Lemma Forall_all {A} (P : A -> Prop) (l : list A) :
  (forall a, P a) -> Forall P l.
Proof. intros H. apply Forall_forall. auto. Qed.

Lemma index1_wraps (flat : list Q) (i : Z) :
  (- Z.of_nat (length flat) <= i < Z.of_nat (length flat))%Z ->
  is_ok (index1 flat i) = true.
Proof.
  intros H. unfold index1.
  destruct ((0 <=? i)%Z && (i <? Z.of_nat (length flat))%Z) eqn:E1;
    [reflexivity|].
  replace ((- Z.of_nat (length flat) <=? i)%Z && (i <? 0)%Z) with true;
    [reflexivity|].
  symmetry. apply andb_true_intro. split.
  - apply Z.leb_le. lia.
  - apply Z.ltb_lt. apply andb_false_iff in E1. destruct E1 as [E|E].
    + apply Z.leb_gt in E. exact E.
    + apply Z.ltb_ge in E. lia.
Qed.

Lemma index_is_ok (flat : list Q) (idx : list Z) :
  Forall (fun i => (- Z.of_nat (length flat) <= i < Z.of_nat (length flat))%Z) idx ->
  exists vals, index flat idx = Ok vals /\ length vals = length idx.
Proof.
  unfold index. induction 1 as [|i idx Hi _ IH]; simpl.
  - exists []. auto.
  - apply index1_wraps in Hi. destruct (index1 flat i) as [v|]; [|discriminate].
    destruct IH as [vals [-> Hl]]. exists (v :: vals). simpl. auto.
Qed.

Lemma long_fl32_scaled (v : Q) (k s : Z) :
  v == inject_Z k -> (Z.abs s < 2 ^ 24)%Z -> (Z.abs (k * s) < 2 ^ 24)%Z ->
  long (fl32 (v * fl32 (inject_Z s))) = (k * s)%Z.
Proof.
  intros Hv Hs Hk. apply long_exact.
  apply fl32_int; [|exact Hk].
  rewrite (@fl32_int s (inject_Z s) (Qeq_refl _) Hs).
  rewrite Hv, inject_Z_mult. reflexivity.
Qed.

Lemma Qfloor_clamp_range (hi : Z) (v : Q) :
  (0 <= hi)%Z -> (0 <= Qfloor (clamp 0 (inject_Z hi) v) <= hi)%Z.
Proof.
  intros H.
  destruct (@clamp_range 0 (inject_Z hi) v) as [Hlo Hhi].
  { change 0 with (inject_Z 0). rewrite <- Zle_Qle. exact H. }
  split.
  - apply (Qfloor_resp_le _ _ Hlo).
  - pose proof (Qfloor_resp_le _ _ Hhi) as H2. now rewrite Qfloor_Z in H2.
Qed.

(** With bounds [[0, -1]] every coordinate is clamped to [-1]. *)
Lemma clamp_empty_range (v : Q) : clamp 0 (inject_Z (1 - 2)) v == -1 # 1.
Proof.
  unfold clamp. apply Q.min_r.
  apply Qle_trans with 0; [discriminate | apply Q.le_max_r].
Qed.

Lemma Qfloor_clamp_empty (v : Q) : Qfloor (clamp 0 (inject_Z (1 - 2)) v) = (-1)%Z.
Proof. now rewrite (Qfloor_comp _ _ (clamp_empty_range v)). Qed.

(** The floor corner on an axis of size [n]: within [[0, n - 2]] when
    [n >= 2], and [-1] when [n = 1]. *)
Lemma Qfloor_clamp_axis (n : Z) (v : Q) :
  (1 <= n)%Z ->
  (Z.min 0 (n - 2) <= Qfloor (clamp 0 (inject_Z (n - 2)) v) <= n - 2)%Z.
Proof.
  intros Hn. destruct (Z.eq_dec n 1) as [->|Hne].
  - rewrite Qfloor_clamp_empty. simpl. lia.
  - pose proof (@Qfloor_clamp_range (n - 2) v ltac:(lia)). lia.
Qed.

(** The corner offsets along an axis of size [n] and stride [s]: the
    float32 products are exact as long as [n * s] stays below [2^24]. *)
Lemma floor_offsets (n s : Z) (c : list Q) :
  (1 <= n)%Z -> (0 <= s)%Z -> (n * s < 2 ^ 24)%Z ->
  scaled_long s (vmap floor (vmap (clamp 0 (inject_Z (n - 2))) c)) =
  map (fun a => ((Qfloor (clamp 0 (inject_Z (n - 2)) a) + 0) * s)%Z) c.
Proof.
  intros Hn Hs Hb. unfold scaled_long, vmap. rewrite !map_map. apply map_ext.
  intros a. rewrite Z.add_0_r.
  pose proof (Qfloor_clamp_axis a Hn) as R.
  apply long_fl32_scaled; [reflexivity | nia | nia].
Qed.

Lemma ceil_offsets (n s : Z) (c : list Q) :
  (1 <= n)%Z -> (0 <= s)%Z -> (n * s < 2 ^ 24)%Z ->
  scaled_long s
    (vmap (fun a => a + 1) (vmap floor (vmap (clamp 0 (inject_Z (n - 2))) c))) =
  map (fun a => ((Qfloor (clamp 0 (inject_Z (n - 2)) a) + 1) * s)%Z) c.
Proof.
  intros Hn Hs Hb. unfold scaled_long, vmap. rewrite !map_map. apply map_ext.
  intros a.
  pose proof (Qfloor_clamp_axis a Hn) as R.
  apply long_fl32_scaled; [|nia|nia].
  unfold floor. now rewrite inject_Z_plus.
Qed.

Lemma axis_offsets_range (n s b : Z) (c : list Q) :
  (1 <= n)%Z ->
  Forall (fun i => exists q,
            (Z.min 0 (n - 2) + b <= q <= n - 2 + b)%Z /\ i = (q * s)%Z)
    (map (fun a => ((Qfloor (clamp 0 (inject_Z (n - 2)) a) + b) * s)%Z) c).
Proof.
  intros Hn. apply Forall_map, Forall_all. intros a.
  pose proof (Qfloor_clamp_axis a Hn) as R.
  eexists. split; [|reflexivity]. lia.
Qed.

Lemma corner_sum_range_2d (h w q r bx by' : Z) :
  (1 <= h)%Z -> (1 <= w)%Z -> (2 <= h \/ 2 <= w)%Z ->
  (0 <= bx <= 1)%Z -> (0 <= by' <= 1)%Z ->
  (Z.min 0 (h - 2) + bx <= q <= h - 2 + bx)%Z ->
  (Z.min 0 (w - 2) + by' <= r <= w - 2 + by')%Z ->
  (- (h * w) <= q * w + r * 1 < h * w)%Z.
Proof.
  intros Hh Hw Hhw Hbx Hby Hq Hr.
  destruct (Z.min_spec 0 (h - 2)) as [[A ->]|[A ->]] in Hq;
    destruct (Z.min_spec 0 (w - 2)) as [[B ->]|[B ->]] in Hr; nia.
Qed.

Lemma corner_sum_range_3d (d h w q r t bx by' bz : Z) :
  (1 <= d)%Z -> (1 <= h)%Z -> (1 <= w)%Z ->
  (2 <= d \/ (2 <= h /\ 2 <= w))%Z ->
  (0 <= bx <= 1)%Z -> (0 <= by' <= 1)%Z -> (0 <= bz <= 1)%Z ->
  (Z.min 0 (d - 2) + bx <= q <= d - 2 + bx)%Z ->
  (Z.min 0 (h - 2) + by' <= r <= h - 2 + by')%Z ->
  (Z.min 0 (w - 2) + bz <= t <= w - 2 + bz)%Z ->
  (- (d * (h * w)) <= q * (h * w) + r * w + t * 1 < d * (h * w))%Z.
Proof.
  intros Hd Hh Hw Hc Hbx Hby Hbz Hq Hr Ht.
  assert (P : (w <= h * w)%Z).
  { rewrite <- (Z.mul_1_l w) at 1. apply Z.mul_le_mono_nonneg_r; lia. }
  assert (Q1 : (q <= d - 1)%Z) by lia.
  assert (R1 : (r <= h - 1)%Z) by lia.
  assert (T1 : (t <= w - 1)%Z) by lia.
  assert (Q0 : (-1 <= q)%Z) by lia.
  assert (R0 : (-1 <= r)%Z) by lia.
  assert (T0 : (-1 <= t)%Z) by lia.
  assert (Qc : (2 <= d -> 0 <= q)%Z) by lia.
  assert (Rc : (2 <= h -> 0 <= r)%Z) by lia.
  assert (Tc : (2 <= w -> 0 <= t)%Z) by lia.
  clear Hq Hr Ht Hbx Hby Hbz.
  rewrite (Z.mul_comm d (h * w)), (Z.mul_comm q (h * w)), (Z.mul_comm r w).
  remember (h * w)%Z as n eqn:E.
  assert (Uq : (n * q <= n * (d - 1))%Z) by (apply Z.mul_le_mono_nonneg_l; lia).
  assert (Ur : (w * r <= w * (h - 1))%Z) by (apply Z.mul_le_mono_nonneg_l; lia).
  assert (Lq : (n * (-1) <= n * q)%Z) by (apply Z.mul_le_mono_nonneg_l; lia).
  assert (Lr : (w * (-1) <= w * r)%Z) by (apply Z.mul_le_mono_nonneg_l; lia).
  split.
  - destruct Hc as [Hc|[Hc1 Hc2]].
    + assert (0 <= n * q)%Z by (apply Z.mul_nonneg_nonneg; lia).
      assert (n * 2 <= n * d)%Z by (apply Z.mul_le_mono_nonneg_l; lia).
      lia.
    + assert (0 <= w * r)%Z by (apply Z.mul_nonneg_nonneg; lia).
      assert (n * 1 <= n * d)%Z by (apply Z.mul_le_mono_nonneg_l; lia).
      lia.
  - lia.
Qed.

Lemma corner_gather_2d (flat : list Q) (h w : nat) (bx by' : Z) (c0 c1 : list Q) :
  length flat = (h * w)%nat -> (1 <= h)%nat -> (1 <= w)%nat ->
  (2 <= h \/ 2 <= w)%nat -> (0 <= bx <= 1)%Z -> (0 <= by' <= 1)%Z ->
  length c0 = (h * w)%nat -> length c1 = (h * w)%nat ->
  exists vals,
    index flat
      (map2 Z.add
         (map (fun a => ((Qfloor (clamp 0 (inject_Z (Z.of_nat h - 2)) a) + bx)
                         * Z.of_nat w)%Z) c0)
         (map (fun a => ((Qfloor (clamp 0 (inject_Z (Z.of_nat w - 2)) a) + by')
                         * 1)%Z) c1)) = Ok vals /\
    length vals = (h * w)%nat.
Proof.
  intros Hf Hh Hw Hhw Hbx Hby L0 L1.
  match goal with |- exists _, index _ ?idx = _ /\ _ =>
    destruct (@index_is_ok flat idx) as [vals [E L]] end.
  - rewrite Hf, Nat2Z.inj_mul.
    eapply Forall_map2;
      [| apply (@axis_offsets_range (Z.of_nat h) (Z.of_nat w) bx c0); lia
       | apply (@axis_offsets_range (Z.of_nat w) 1 by' c1); lia].
    cbv beta. intros i j [q [Hq ->]] [r [Hr ->]].
    apply corner_sum_range_2d with (bx := bx) (by' := by'); try lia.
  - exists vals. split; [exact E|].
    rewrite L, length_map2, !length_map, L0, L1. apply Nat.min_id.
Qed.

Lemma corner_gather_3d (flat : list Q) (d h w : nat) (bx by' bz : Z)
    (c0 c1 c2 : list Q) :
  length flat = (d * (h * w))%nat -> (1 <= d)%nat -> (1 <= h)%nat -> (1 <= w)%nat ->
  (2 <= d \/ (2 <= h /\ 2 <= w))%nat ->
  (0 <= bx <= 1)%Z -> (0 <= by' <= 1)%Z -> (0 <= bz <= 1)%Z ->
  length c0 = (d * (h * w))%nat -> length c1 = (d * (h * w))%nat ->
  length c2 = (d * (h * w))%nat ->
  exists vals,
    index flat
      (add3
         (map (fun a => ((Qfloor (clamp 0 (inject_Z (Z.of_nat d - 2)) a) + bx)
                         * Z.of_nat (h * w))%Z) c0)
         (map (fun a => ((Qfloor (clamp 0 (inject_Z (Z.of_nat h - 2)) a) + by')
                         * Z.of_nat w)%Z) c1)
         (map (fun a => ((Qfloor (clamp 0 (inject_Z (Z.of_nat w - 2)) a) + bz)
                         * 1)%Z) c2)) = Ok vals /\
    length vals = (d * (h * w))%nat.
Proof.
  intros Hf Hd Hh Hw Hc Hbx Hby Hbz L0 L1 L2.
  match goal with |- exists _, index _ ?idx = _ /\ _ =>
    destruct (@index_is_ok flat idx) as [vals [E L]] end.
  - rewrite Hf, !Nat2Z.inj_mul. unfold add3.
    apply (@Forall_map2 _ _ _
             (fun ij => exists q r,
                (Z.min 0 (Z.of_nat d - 2) + bx <= q <= Z.of_nat d - 2 + bx)%Z /\
                (Z.min 0 (Z.of_nat h - 2) + by' <= r <= Z.of_nat h - 2 + by')%Z /\
                ij = (q * (Z.of_nat h * Z.of_nat w) + r * Z.of_nat w)%Z)
             (fun k => exists t,
                (Z.min 0 (Z.of_nat w - 2) + bz <= t <= Z.of_nat w - 2 + bz)%Z /\
                k = (t * 1)%Z)).
    + intros ij k [q [r [Hq [Hr ->]]]] [t [Ht ->]].
      apply corner_sum_range_3d with (bx := bx) (by' := by') (bz := bz);
        try lia.
    + eapply Forall_map2;
        [| apply (@axis_offsets_range (Z.of_nat d) (Z.of_nat h * Z.of_nat w) bx c0);
           lia
         | apply (@axis_offsets_range (Z.of_nat h) (Z.of_nat w) by' c1); lia].
      cbv beta. intros i j [q [Hq ->]] [r [Hr ->]].
      exists q, r. split; [exact Hq|]. split; [exact Hr|]. reflexivity.
    + apply (@axis_offsets_range (Z.of_nat w) 1 bz c2); lia.
  - exists vals. split; [exact E|].
    rewrite L. unfold add3. rewrite !length_map2, !length_map, L0, L1, L2.
    now rewrite !Nat.min_id.
Qed.

Lemma length_x_mapped_3d v000 v100 v010 v001 v101 v011 v110 v111 xd yd zd n :
  Forall (fun a => length a = n)
    [v000; v100; v010; v001; v101; v011; v110; v111; xd; yd; zd] ->
  length (x_mapped_3d v000 v100 v010 v001 v101 v011 v110 v111 xd yd zd) = n.
Proof.
  intros H.
  repeat match goal with
         | H : Forall _ (_ :: _) |- _ => inversion H; clear H; subst
         end.
  unfold x_mapped_3d, vadd, vmul, vmap.
  repeat (rewrite length_map2 || rewrite length_map).
  repeat match goal with H : length _ = length _ |- _ => rewrite H end.
  now rewrite !Nat.min_id.
Qed.

Lemma length_vsub_floor (f : Q -> Q) (c : list Q) :
  length (vsub (vmap f c) (vmap floor (vmap f c))) = length c.
Proof.
  unfold vsub, vmap. rewrite length_map2, !length_map. apply Nat.min_id.
Qed.

(** The bilinear resampler on a single-channel image with an axis of
    size 1, or none: every corner offset falls inside the buffer unless
    both axes have size 1. *)
Lemma bilinear_2d_total x h w coords :
  size x = [1; h; w]%nat -> (1 <= h)%nat -> (1 <= w)%nat ->
  (2 <= h \/ 2 <= w)%nat -> (Z.of_nat (h * w) < 2 ^ 24)%Z -> row_major x ->
  Forall (fun r => length r = 2%nat) coords ->
  length coords = (h * w)%nat ->
  is_ok (call th_bilinear_interp_2d x coords) = true.
Proof.
  intros Hsz Hh Hw Hhw Hb [Hst Hlen] Hwid Hn.
  assert (Hnum : numel x = (h * w)%nat)
    by (unfold numel; rewrite Hsz; simpl; lia).
  assert (Hdata : length (storage x) = (h * w)%nat) by congruence.
  unfold call.
  rewrite (@th_bilinear_interp_2d_run x coords 1 h w [] Hsz)
    by (eapply Forall_impl; [|exact Hwid]; simpl; lia).
  cbn [snd]. unfold bilinear_2d_body, spatial_stride, th_flatten.
  rewrite (contiguous_row_major x Hst), Hst, Hsz.
  cbn [c_strides tl prodn fold_right nth_error rbind].
  rewrite Nat.mul_1_r. change (Z.of_nat 1) with 1%Z.
  set (c0 := col 0 coords). set (c1 := col 1 coords).
  assert (L0 : length c0 = (h * w)%nat) by (subst c0; now rewrite length_col).
  assert (L1 : length c1 = (h * w)%nat) by (subst c1; now rewrite length_col).
  rewrite Nat2Z.inj_mul in Hb.
  rewrite !(@floor_offsets (Z.of_nat h) (Z.of_nat w)) by lia.
  rewrite !(@ceil_offsets (Z.of_nat h) (Z.of_nat w)) by lia.
  rewrite !(@floor_offsets (Z.of_nat w) 1) by nia.
  rewrite !(@ceil_offsets (Z.of_nat w) 1) by nia.
  destruct (@corner_gather_2d (storage x) h w 0 0 c0 c1) as [v00 [-> Lv00]];
    try assumption; try lia.
  destruct (@corner_gather_2d (storage x) h w 1 0 c0 c1) as [v10 [-> Lv10]];
    try assumption; try lia.
  destruct (@corner_gather_2d (storage x) h w 0 1 c0 c1) as [v01 [-> Lv01]];
    try assumption; try lia.
  destruct (@corner_gather_2d (storage x) h w 1 1 c0 c1) as [v11 [-> Lv11]];
    try assumption; try lia.
  cbn [rbind]. unfold view_as.
  rewrite (@length_x_mapped_2d _ _ _ _ _ _ (h * w)%nat); try assumption.
  - rewrite Hnum, Nat.eqb_refl. reflexivity.
  - now rewrite length_vsub_floor.
  - now rewrite length_vsub_floor.
Qed.

(** The same for the trilinear resampler: every corner offset falls inside
    the buffer unless the first axis and one more axis have size 1. *)
Lemma trilinear_3d_total x d h w coords :
  size x = [1; d; h; w]%nat -> (1 <= d)%nat -> (1 <= h)%nat -> (1 <= w)%nat ->
  (2 <= d \/ (2 <= h /\ 2 <= w))%nat ->
  (Z.of_nat (d * (h * w)) < 2 ^ 24)%Z -> row_major x ->
  Forall (fun r => length r = 3%nat) coords ->
  length coords = (d * (h * w))%nat ->
  is_ok (call th_trilinear_interp_3d x coords) = true.
Proof.
  intros Hsz Hd Hh Hw Hc Hb [Hst Hlen] Hwid Hn.
  assert (Hnum : numel x = (d * (h * w))%nat)
    by (unfold numel; rewrite Hsz; simpl; lia).
  assert (Hdata : length (storage x) = (d * (h * w))%nat) by congruence.
  unfold call.
  rewrite (@th_trilinear_interp_3d_run x coords 1 d h w [] Hsz)
    by (eapply Forall_impl; [|exact Hwid]; simpl; lia).
  cbn [snd]. unfold trilinear_3d_body, spatial_stride, th_flatten.
  rewrite (contiguous_row_major x Hst), Hst, Hsz.
  cbn [c_strides tl prodn fold_right nth_error rbind].
  rewrite Nat.mul_1_r. change (Z.of_nat 1) with 1%Z.
  set (c0 := col 0 coords). set (c1 := col 1 coords). set (c2 := col 2 coords).
  assert (L0 : length c0 = (d * (h * w))%nat) by (subst c0; now rewrite length_col).
  assert (L1 : length c1 = (d * (h * w))%nat) by (subst c1; now rewrite length_col).
  assert (L2 : length c2 = (d * (h * w))%nat) by (subst c2; now rewrite length_col).
  rewrite !Nat2Z.inj_mul in Hb.
  assert (B1 : (Z.of_nat h * Z.of_nat w < 2 ^ 24)%Z) by nia.
  assert (B2 : (Z.of_nat w * 1 < 2 ^ 24)%Z) by nia.
  rewrite !(@floor_offsets (Z.of_nat d) (Z.of_nat (h * w)))
    by (rewrite ?Nat2Z.inj_mul; nia).
  rewrite !(@ceil_offsets (Z.of_nat d) (Z.of_nat (h * w)))
    by (rewrite ?Nat2Z.inj_mul; nia).
  rewrite !(@floor_offsets (Z.of_nat h) (Z.of_nat w)) by lia.
  rewrite !(@ceil_offsets (Z.of_nat h) (Z.of_nat w)) by lia.
  rewrite !(@floor_offsets (Z.of_nat w) 1) by lia.
  rewrite !(@ceil_offsets (Z.of_nat w) 1) by lia.
  destruct (@corner_gather_3d (storage x) d h w 0 0 0 c0 c1 c2)
    as [v000 [-> Lv000]]; try assumption; try lia.
  destruct (@corner_gather_3d (storage x) d h w 1 0 0 c0 c1 c2)
    as [v100 [-> Lv100]]; try assumption; try lia.
  destruct (@corner_gather_3d (storage x) d h w 0 1 0 c0 c1 c2)
    as [v010 [-> Lv010]]; try assumption; try lia.
  destruct (@corner_gather_3d (storage x) d h w 0 0 1 c0 c1 c2)
    as [v001 [-> Lv001]]; try assumption; try lia.
  destruct (@corner_gather_3d (storage x) d h w 1 0 1 c0 c1 c2)
    as [v101 [-> Lv101]]; try assumption; try lia.
  destruct (@corner_gather_3d (storage x) d h w 0 1 1 c0 c1 c2)
    as [v011 [-> Lv011]]; try assumption; try lia.
  destruct (@corner_gather_3d (storage x) d h w 1 1 0 c0 c1 c2)
    as [v110 [-> Lv110]]; try assumption; try lia.
  destruct (@corner_gather_3d (storage x) d h w 1 1 1 c0 c1 c2)
    as [v111 [-> Lv111]]; try assumption; try lia.
  cbn [rbind]. unfold view_as.
  rewrite (@length_x_mapped_3d _ _ _ _ _ _ _ _ _ _ _ (d * (h * w))%nat).
  - rewrite Hnum, Nat.eqb_refl. reflexivity.
  - repeat (constructor; [first [assumption | now rewrite length_vsub_floor]|]).
    constructor.
Qed.

(** On a 1 x 1 image the floor corner has offset [-2], outside the
    one-element buffer. *)
Lemma bilinear_2d_one_pixel x (a b : Q) :
  size x = [1; 1; 1]%nat -> row_major x ->
  call th_bilinear_interp_2d x [[a; b]] = Raise IndexError.
Proof.
  intros Hsz [Hst Hlen].
  assert (Hnum : numel x = 1%nat) by (unfold numel; rewrite Hsz; reflexivity).
  unfold call.
  rewrite (@th_bilinear_interp_2d_run x [[a; b]] 1 1 1 [] Hsz)
    by (repeat constructor).
  cbn [snd]. unfold bilinear_2d_body, spatial_stride, th_flatten.
  rewrite (contiguous_row_major x Hst), Hst, Hsz.
  cbn [c_strides tl prodn fold_right nth_error rbind].
  change (Z.of_nat (1 * 1)) with 1%Z. change (Z.of_nat 1) with 1%Z.
  rewrite !(@floor_offsets 1 1) by (try reflexivity; lia).
  cbn [col map nth map2].
  rewrite !Qfloor_clamp_empty.
  rewrite Hnum in Hlen.
  destruct (storage x) as [|v [|v' flat]]; try discriminate.
  reflexivity.
Qed.

(** C6, as amended.  The multilinear resamplers do not check the sizes.
    On an axis of size 1 the bounds of the clamp are [[0, -1]]: every
    coordinate becomes [-1], with floor corner [-1], ceil corner [0] and
    fraction [0].  On a row-major single-channel source of fewer than
    [2^24] elements, with one coordinate row per element, the bilinear
    resampler returns a tensor unless both spatial axes have size 1 (on a
    1 x 1 image the gather raises [IndexError]), and the trilinear
    resampler returns a tensor unless the first spatial axis and one more
    have size 1. *)
Theorem size_one_axis_is_not_rejected :
  (forall v, clamp 0 (inject_Z (1 - 2)) v == -1 # 1 /\ axis_frac 1 v == 0) /\
  (forall x h w coords,
     size x = [1; h; w]%nat -> (1 <= h)%nat -> (1 <= w)%nat ->
     (2 <= h \/ 2 <= w)%nat -> (Z.of_nat (h * w) < 2 ^ 24)%Z -> row_major x ->
     Forall (fun r => length r = 2%nat) coords ->
     length coords = (h * w)%nat ->
     is_ok (call th_bilinear_interp_2d x coords) = true) /\
  (forall x d h w coords,
     size x = [1; d; h; w]%nat -> (1 <= d)%nat -> (1 <= h)%nat -> (1 <= w)%nat ->
     (2 <= d \/ (2 <= h /\ 2 <= w))%nat ->
     (Z.of_nat (d * (h * w)) < 2 ^ 24)%Z -> row_major x ->
     Forall (fun r => length r = 3%nat) coords ->
     length coords = (d * (h * w))%nat ->
     is_ok (call th_trilinear_interp_3d x coords) = true) /\
  (forall x a b,
     size x = [1; 1; 1]%nat -> row_major x ->
     call th_bilinear_interp_2d x [[a; b]] = Raise IndexError).
Proof.
  split; [|split; [|split]].
  - intros v. split; [apply clamp_empty_range|].
    unfold axis_frac, floor. rewrite Qfloor_clamp_empty.
    rewrite (clamp_empty_range v). reflexivity.
  - intros. now apply bilinear_2d_total with (h := h) (w := w).
  - intros. now apply trilinear_3d_total with (d := d) (h := h) (w := w).
  - intros. now apply bilinear_2d_one_pixel.
Qed.

Lemma size_one_axis_is_not_rejected_witness :
  is_ok (call th_bilinear_interp_2d column_image
           [[-5 # 1; 1]; [1 # 2; 3]; [7; 0]]) = true /\
  is_ok (call th_trilinear_interp_3d slab_volume
           (repeat [1; -2 # 1; 5 # 2] 9)) = true.
Proof.
  destruct size_one_axis_is_not_rejected as (_ & B & T & _).
  split.
  - apply (B column_image 3%nat 1%nat [[-5 # 1; 1]; [1 # 2; 3]; [7; 0]]).
    + reflexivity.
    + lia.
    + lia.
    + left. lia.
    + reflexivity.
    + split; reflexivity.
    + repeat constructor.
    + reflexivity.
  - apply (T slab_volume 3%nat 3%nat 1%nat (repeat [1; -2 # 1; 5 # 2] 9)).
    + reflexivity.
    + lia.
    + lia.
    + lia.
    + left. lia.
    + reflexivity.
    + split; reflexivity.
    + repeat constructor.
    + reflexivity.
Defined.

(** C6, as stated, fails: on the 3 x 1 image [column_image] (size 1 along
    the second spatial axis) the bilinear resampler reports no error, called
    directly or through [th_affine_2d]; it returns the value of row 0 for
    the coordinate (1, 0). *)
Lemma size_one_axis_reports_no_error :
  is_ok (call th_bilinear_interp_2d column_image [[1; 0]; [1; 0]; [1; 0]]) = true /\
  exists out,
    snd (th_affine_2d column_image to_row_one "bilinear" false) = Ok out /\
    Forall (fun v => v == 10) (storage out).
Proof.
  split; [vm_compute; reflexivity|].
  eexists. split; [vm_compute; reflexivity|].
  repeat constructor; reflexivity.
Qed.

(** ** The centre pixel under a centred linear map *)

Lemma nth_concat_uniform {A} (n i j : nat) (l : list (list A)) (d : A) :
  Forall (fun r => length r = n) l -> (j < n)%nat ->
  nth (i * n + j) (concat l) d = nth j (nth i l []) d.
Proof.
  intros Hl Hj. revert i. induction Hl as [|r l Hr _ IH]; intros i.
  - simpl. destruct (i * n + j)%nat, i, j; reflexivity.
  - destruct i as [|i]; simpl.
    + rewrite app_nth1 by lia. reflexivity.
    + rewrite app_nth2 by lia.
      replace (n + i * n + j - length r)%nat with (i * n + j)%nat by lia.
      apply IH.
Qed.


Lemma nth_chunks {A} (n c ch q : nat) (data : list A) (d : A) :
  length data = (c * n)%nat -> (q < n)%nat ->
  nth q (nth ch (chunks n c data) []) d = nth (ch * n + q) data d.
Proof.
  intros Hd Hq.
  rewrite <- (concat_chunks n c data Hd) at 2.
  symmetry. apply nth_concat_uniform; [|exact Hq].
  now apply chunks_width.
Qed.

#[local] Instance clamp_comp : Proper (Qeq ==> Qeq ==> Qeq ==> Qeq) clamp.
Proof.
  intros lo lo' Hlo hi hi' Hhi v v' Hv. unfold clamp.
  now rewrite Hlo, Hhi, Hv.
Qed.


Lemma nearest_index_lt n u : (1 <= n)%nat -> (nearest_index n u < n)%nat.
Proof.
  intros Hn. unfold nearest_index.
  assert (R : (0 <= round_half_even (clamp 0 (inject_Z (Z.of_nat n - 1)) u)
               <= Z.of_nat n - 1)%Z).
  { apply round_half_even_range; change 0 with (inject_Z 0);
      apply clamp_range; rewrite <- Zle_Qle; lia. }
  lia.
Qed.

Lemma nearest_offset_index h w r :
  (1 <= h)%nat -> (1 <= w)%nat ->
  Z.to_nat (nearest_offset h w r) =
  (nearest_index h (nth 0 r 0%Q) * w + nearest_index w (nth 1 r 0%Q))%nat.
Proof.
  intros Hh Hw. unfold nearest_offset, nearest_index.
  assert (R : forall n v, (1 <= n)%nat ->
            (0 <= round_half_even (clamp 0 (inject_Z (Z.of_nat n - 1)) v)
             <= Z.of_nat n - 1)%Z).
  { intros n v Hn. apply round_half_even_range; change 0 with (inject_Z 0);
      apply clamp_range; rewrite <- Zle_Qle; lia. }
  pose proof (R h (nth 0 r 0) Hh). pose proof (R w (nth 1 r 0) Hw). nia.
Qed.

Lemma pixel_unfold x c h w ch i j :
  size x = [c; h; w] ->
  pixel x ch i j = nth (ch * (h * w) + (i * w + j)) (storage x) 0.
Proof. intros H. unfold pixel. rewrite H. f_equal. lia. Qed.

(** Every output pixel of the nearest resampler is the source pixel, in
    the same channel, at the clamped and rounded coordinates of its grid
    row. *)
Lemma nearest_pixel x c h w coords ch i j :
  size x = [c; h; w] -> (1 <= h)%nat -> (1 <= w)%nat ->
  (Z.of_nat (h * w) < 2 ^ 24)%Z -> row_major x ->
  Forall (fun r => length r = 2%nat) coords ->
  length coords = (h * w)%nat ->
  (ch < c)%nat -> (i < h)%nat -> (j < w)%nat ->
  exists out,
    call th_nearest_interp_2d x coords = Ok out /\
    pixel out ch i j =
    pixel x ch (nearest_index h (nth 0 (nth (i * w + j) coords []) 0))
               (nearest_index w (nth 1 (nth (i * w + j) coords []) 0)).
Proof.
  intros Hsz Hh Hw Hb Hrm Hwid Hn Hch Hi Hj.
  rewrite (@nearest_2d_gather x c h w coords) by (assumption || lia).
  eexists. split; [reflexivity|].
  destruct Hrm as [Hst Hlen].
  assert (Hdata : length (storage x) = (c * (h * w))%nat).
  { rewrite Hlen. unfold numel. rewrite Hsz. simpl. lia. }
  assert (Hp : (i * w + j < h * w)%nat) by nia.
  set (r := nth (i * w + j) coords []).
  rewrite (@pixel_unfold _ c h w) by exact Hsz.
  rewrite (@pixel_unfold x c h w) by exact Hsz.
  cbn [storage].
  rewrite (@nth_concat_uniform _ (h * w)%nat ch (i * w + j)%nat);
    [| apply Forall_map, Forall_all; intros a; now rewrite length_map
     | exact Hp].
  rewrite (nth_map_lt _ _ [] []) by (rewrite length_chunks; exact Hch).
  rewrite (nth_map_lt _ _ 0 []) by (rewrite Hn; exact Hp).
  fold r. rewrite (nearest_offset_index r Hh Hw).
  apply nth_chunks; [exact Hdata|].
  pose proof (@nearest_index_lt h (nth 0 r 0) Hh).
  pose proof (@nearest_index_lt w (nth 1 r 0) Hw). nia.
Qed.











(** ** The identity transform on a large image *)







(** ** The index grid in any dimension *)

Lemma dotZ_cons i r s ss : dotZ (i :: r) (s :: ss) = (i * s + dotZ r ss)%Z.
Proof. reflexivity. Qed.

Lemma map_flat_map {A B C} (f : B -> C) (g : A -> list B) (l : list A) :
  map f (flat_map g l) = flat_map (fun a => map f (g a)) l.
Proof.
  induction l as [|a l IH]; simpl; [reflexivity|].
  now rewrite map_app, IH.
Qed.

Lemma arange_blocks n m :
  flat_map (fun i => map (fun q => (i * Z.of_nat m + q)%Z) (arange m)) (arange n) =
  arange (n * m).
Proof.
  induction n as [|n IH]; [reflexivity|].
  replace (S n * m)%nat with (n * m + m)%nat by lia.
  rewrite arange_add, arange_S, flat_map_app, IH. simpl flat_map.
  rewrite app_nil_r. f_equal. apply map_ext. intros q. lia.
Qed.

(** Row [p] of the grid has row-major flat offset [p]. *)
Lemma cartesian_offsets dims :
  map (fun r => dotZ r (c_strides dims)) (cartesian_c_order dims) =
  arange (prodn dims).
Proof.
  induction dims as [|n ns IH]; [reflexivity|].
  cbn [cartesian_c_order c_strides].
  change (prodn (n :: ns)) with (n * prodn ns)%nat.
  rewrite map_flat_map. rewrite <- arange_blocks.
  apply flat_map_ext. intros i. rewrite map_map.
  rewrite <- IH, map_map. apply map_ext. intros r.
  apply dotZ_cons.
Qed.

Lemma NoDup_map_injective {A B} (f : A -> B) (l : list A) :
  (forall a b, f a = f b -> a = b) -> NoDup l -> NoDup (map f l).
Proof.
  intros Hf. induction 1 as [|a l Ha _ IH]; simpl; constructor; [|exact IH].
  intros Hin. apply in_map_iff in Hin. destruct Hin as [b [Hb Hin]].
  apply Hf in Hb. now subst.
Qed.

Lemma NoDup_arange n : NoDup (arange n).
Proof.
  unfold arange. apply NoDup_map_injective.
  - intros a b H. lia.
  - apply seq_NoDup.
Qed.

Lemma in_cartesian dims r :
  In r (cartesian_c_order dims) <-> in_shape r dims.
Proof.
  unfold in_shape. revert r. induction dims as [|n ns IH]; intros r; simpl.
  - split.
    + intros [<-|[]]. constructor.
    + intros H. inversion H. now left.
  - rewrite in_flat_map. split.
    + intros [i [Hi Hr]]. apply in_map_iff in Hr. destruct Hr as [t [<- Ht]].
      constructor; [now apply in_arange | now apply IH].
    + intros H. inversion H as [|i n' t ns' Hi Ht]; subst.
      exists i. split.
      * unfold arange. apply in_map_iff. exists (Z.to_nat i).
        split; [lia|]. apply in_seq. lia.
      * apply in_map. now apply IH.
Qed.

Lemma cartesian_rows_width dims :
  Forall (fun r => length r = length dims) (cartesian_c_order dims).
Proof.
  apply Forall_forall. intros r Hr. apply in_cartesian in Hr.
  unfold in_shape in Hr. now apply Forall2_length in Hr.
Qed.

Lemma NoDup_cartesian dims : NoDup (cartesian_c_order dims).
Proof.
  apply (NoDup_map_inv (fun r => dotZ r (c_strides dims))).
  rewrite cartesian_offsets. apply NoDup_arange.
Qed.

(** X1.  For one or more axis sizes [th_iterproduct] returns a grid of
    [prod sizes] rows, one entry per axis in each; an index tuple is a row
    of the grid exactly when each entry lies in the range of its axis, and
    no row occurs twice. *)
Theorem th_iterproduct_complete n ns :
  exists grid,
    th_iterproduct (n :: ns) = Ok grid /\
    length grid = prodn (n :: ns) /\
    (forall r, In r grid <-> in_shape r (n :: ns)) /\
    NoDup grid.
Proof.
  exists (cartesian_c_order (n :: ns)). split; [apply th_iterproduct_cons|].
  split; [apply length_cartesian|]. split.
  - intros r. apply in_cartesian.
  - apply NoDup_cartesian.
Qed.

(** X2.  The grid is in buffer order: the row at position [p] is the index
    tuple whose row-major flat offset (entries times the contiguous strides
    of the shape) is [p]. *)
Theorem th_iterproduct_row_major n ns :
  exists grid,
    th_iterproduct (n :: ns) = Ok grid /\
    map (fun r => dotZ r (c_strides (n :: ns))) grid = arange (prodn (n :: ns)).
Proof.
  exists (cartesian_c_order (n :: ns)). split; [apply th_iterproduct_cons|].
  apply cartesian_offsets.
Qed.

(** ** Gathering by index tuples: [th_gather_nd] *)


Lemma mvZ_ok (m : list (list Z)) (v : list Z) :
  Forall (fun r => length r = length v) m ->
  mvZ m v = Ok (map (fun r => dotZ r v) m).
Proof.
  intros H. unfold mvZ. apply mapM_ok_map.
  eapply Forall_impl; [|exact H]. intros r Hr. cbv beta in Hr.
  now rewrite Hr, Nat.eqb_refl.
Qed.

Lemma index_select_ok (flat : list Q) (inds : list Z) :
  Forall (fun i => (0 <= i < Z.of_nat (length flat))%Z) inds ->
  index_select flat inds = Ok (map (fun i => nth (Z.to_nat i) flat 0) inds).
Proof.
  intros H. unfold index_select. apply mapM_ok_map.
  eapply Forall_impl; [|exact H]. intros i Hi. cbv beta in Hi.
  replace (0 <=? i)%Z with true by (symmetry; apply Z.leb_le; lia).
  replace (i <? Z.of_nat (length flat))%Z with true
    by (symmetry; apply Z.ltb_lt; lia).
  reflexivity.
Qed.

Lemma index_select_arange (flat : list Q) :
  index_select flat (arange (length flat)) = Ok flat.
Proof.
  rewrite index_select_ok.
  - unfold arange. rewrite map_map. f_equal.
    transitivity (map (fun k => nth k flat 0) (seq 0 (length flat)));
      [|apply map_nth_seq].
    apply map_ext. intros k. now rewrite Nat2Z.id.
  - apply Forall_forall. intros i Hi. now apply in_arange.
Qed.

Lemma length_c_strides shape : length (c_strides shape) = length shape.
Proof. induction shape as [|n ns IH]; simpl; [reflexivity|]. now rewrite IH. Qed.

Lemma prodn_pos_of_in_shape ix shape : in_shape ix shape -> (1 <= prodn shape)%nat.
Proof.
  unfold in_shape. induction 1 as [|i n ix ns Hi _ IH]; simpl; [lia|]. nia.
Qed.


Lemma th_gather_nd_grid x n ns :
  size x = n :: ns -> row_major x ->
  (grid <- th_iterproduct_like x ;; th_gather_nd x grid)%result =
  Ok (th_flatten x).
Proof.
  intros Hsz [Hst Hlen]. unfold th_iterproduct_like, th_gather_nd, th_flatten.
  rewrite Hsz, th_iterproduct_cons. cbn [rbind].
  rewrite (contiguous_row_major x Hst), Hst, Hsz.
  rewrite mvZ_ok.
  - cbn [rbind]. rewrite cartesian_offsets.
    replace (prodn (n :: ns)) with (length (storage x))
      by (rewrite Hlen; unfold numel; now rewrite Hsz).
    apply index_select_arange.
  - eapply Forall_impl; [|apply cartesian_rows_width].
    intros r Hr. cbv beta in Hr. now rewrite Hr, length_c_strides.
Qed.



(** X3.  Gathering a row-major tensor at every index tuple of its own grid
    gives back the flattened tensor: [th_gather_nd(x, th_iterproduct_like(x))]
    equals [th_flatten(x)]. *)
Theorem th_gather_nd_iterproduct_like x n ns :
  size x = n :: ns -> row_major x ->
  (grid <- th_iterproduct_like x ;; th_gather_nd x grid)%result =
  Ok (th_flatten x).
Proof. apply th_gather_nd_grid. Qed.

Lemma th_gather_nd_iterproduct_like_witness :
  (grid <- th_iterproduct_like ramp_volume ;;
   th_gather_nd ramp_volume grid)%result = Ok [1; 2; 3; 4; 5; 6; 7; 8].
Proof.
  apply (@th_gather_nd_iterproduct_like ramp_volume 1 [2; 2; 2]%nat).
  - reflexivity.
  - split; reflexivity.
Defined.



(** ** The flattening helpers *)

Lemma th_flatten_length x :
  row_major x \/ is_contiguous x = false -> length (th_flatten x) = numel x.
Proof.
  unfold th_flatten. intros [[Hst Hlen]|H].
  - now rewrite (contiguous_row_major x Hst).
  - unfold contiguous. rewrite H. cbn [storage].
    rewrite length_map. apply length_cartesian.
Qed.

Lemma th_c_flatten_rows x c rest :
  size x = c :: rest -> (1 <= c)%nat -> length (th_flatten x) = numel x ->
  exists rows,
    th_c_flatten x = Ok rows /\ length rows = c /\
    Forall (fun r => length r = prodn rest) rows /\
    concat rows = th_flatten x.
Proof.
  intros Hsz Hc Hlen. unfold th_flatten in *.
  assert (Hn : length (storage (contiguous x)) = (c * prodn rest)%nat).
  { rewrite Hlen. unfold numel. now rewrite Hsz. }
  exists (chunks (prodn rest) c (storage (contiguous x))).
  unfold th_c_flatten. rewrite Hsz. destruct c as [|c']; [lia|].
  split; [reflexivity|]. split; [apply length_chunks|]. split.
  - now apply chunks_width.
  - now apply concat_chunks.
Qed.

Lemma th_bc_flatten_blocks x b c rest :
  size x = b :: c :: rest -> (1 <= b)%nat -> (1 <= c)%nat ->
  length (th_flatten x) = numel x ->
  exists blocks,
    th_bc_flatten x = Ok blocks /\ length blocks = b /\
    Forall (fun bl => length bl = c /\
                      Forall (fun r => length r = prodn rest) bl) blocks /\
    concat (map (@concat Q) blocks) = th_flatten x.
Proof.
  intros Hsz Hb Hc Hlen. unfold th_flatten in *.
  assert (Hn : length (storage (contiguous x)) = (b * (c * prodn rest))%nat).
  { rewrite Hlen. unfold numel. now rewrite Hsz. }
  set (data := storage (contiguous x)) in *.
  exists (map (chunks (prodn rest) c) (chunks (c * prodn rest) b data)).
  unfold th_bc_flatten. rewrite Hsz.
  destruct (b * c)%nat eqn:E; [nia|]. fold data.
  split; [reflexivity|]. split; [now rewrite length_map, length_chunks|].
  pose proof (chunks_width (c * prodn rest) b data Hn) as Hw.
  split.
  - apply Forall_map. eapply Forall_impl; [|exact Hw].
    intros bl Hbl. cbv beta in Hbl. split; [apply length_chunks|].
    now apply chunks_width.
  - rewrite map_map.
    transitivity (concat (chunks (c * prodn rest) b data));
      [|now apply concat_chunks].
    f_equal. rewrite <- (map_id (chunks (c * prodn rest) b data)) at 2.
    apply map_ext_in. intros bl Hbl. rewrite Forall_forall in Hw.
    apply concat_chunks. now apply Hw.
Qed.

(** X5.  [th_c_flatten] splits the elements of a tensor into one row per
    channel and [th_bc_flatten] into one block per batch entry and one row
    per channel in each, all rows as long as the remaining axes; read in
    order, the rows give back [th_flatten] of the tensor.  This holds for
    row-major tensors and for the copies made of the others. *)
Theorem flatten_by_channel x :
  row_major x \/ is_contiguous x = false ->
  (forall c rest,
     size x = c :: rest -> (1 <= c)%nat ->
     exists rows,
       th_c_flatten x = Ok rows /\ length rows = c /\
       Forall (fun r => length r = prodn rest) rows /\
       concat rows = th_flatten x) /\
  (forall b c rest,
     size x = b :: c :: rest -> (1 <= b)%nat -> (1 <= c)%nat ->
     exists blocks,
       th_bc_flatten x = Ok blocks /\ length blocks = b /\
       Forall (fun bl => length bl = c /\
                         Forall (fun r => length r = prodn rest) bl) blocks /\
       concat (map (@concat Q) blocks) = th_flatten x).
Proof.
  intros H. apply th_flatten_length in H. split.
  - intros. now apply th_c_flatten_rows.
  - intros. now apply th_bc_flatten_blocks.
Qed.

Lemma flatten_by_channel_witness :
  (exists rows,
     th_c_flatten transposed_view = Ok rows /\ length rows = 1%nat /\
     concat rows = [1; 3; 2; 4]) /\
  (exists blocks,
     th_bc_flatten ramp_volume = Ok blocks /\ length blocks = 1%nat /\
     concat (map (@concat Q) blocks) = [1; 2; 3; 4; 5; 6; 7; 8]).
Proof.
  destruct (@flatten_by_channel transposed_view (or_intror eq_refl)) as [C _].
  destruct (@flatten_by_channel ramp_volume (or_introl (conj eq_refl eq_refl)))
    as [_ B].
  destruct (C 1%nat [2; 2]%nat eq_refl ltac:(lia)) as (rows & E1 & L1 & _ & F1).
  destruct (B 1%nat 2%nat [2; 2]%nat eq_refl ltac:(lia) ltac:(lia))
    as (blocks & E2 & L2 & _ & F2).
  split; [exists rows | exists blocks]; auto.
Defined.

(** ** Shape preservation *)

Lemma view_as_shape vals input out :
  view_as vals input = Ok out -> size out = size input /\ row_major out.
Proof.
  unfold view_as. destruct (length vals =? numel input)%nat eqn:E;
    [|discriminate].
  intros [= <-]. apply Nat.eqb_eq in E.
  split; [reflexivity|]. split; [reflexivity|exact E].
Qed.

Lemma views_as_bind {A} t (m : SR A) (k : A -> SR Tensor) :
  (forall a, views_as t (k a)) -> views_as t (sbind m k).
Proof.
  intros Hk s out. unfold sbind.
  destruct (m s) as [s' [a|e]]; [exact (Hk a s' out)|discriminate].
Qed.

Lemma views_as_slift t (r : Result Tensor) :
  (forall out, r = Ok out -> size out = size t /\ row_major out) ->
  views_as t (slift r).
Proof. intros H s out. exact (H out). Qed.

Lemma returns_view_bind {A} (m : SR A) (k : A -> SR Tensor) :
  keeps_input m -> (forall a, returns_view (k a)) ->
  returns_view (sbind m k).
Proof.
  intros Hm Hk s out. unfold sbind. specialize (Hm s).
  destruct (m s) as [s' [a|e]]; [|discriminate].
  simpl in Hm. intros H. rewrite <- Hm. exact (Hk a s' out H).
Qed.

Lemma returns_view_get_input (k : Tensor -> SR Tensor) :
  (forall input, views_as input (k input)) ->
  returns_view (sbind get_input k).
Proof. intros Hk s out. unfold sbind, get_input. exact (Hk _ s out). Qed.

Ltac view_steps :=
  repeat first
    [ apply returns_view_get_input; intros
    | apply returns_view_bind; [auto with frame | intros; cbv zeta] ];
  repeat (apply views_as_bind; intros; cbv zeta).

Lemma th_nearest_interp_2d_returns_view : returns_view th_nearest_interp_2d.
Proof.
  unfold th_nearest_interp_2d. view_steps.
  apply views_as_slift. intros out. apply view_as_shape.
Qed.

Lemma th_nearest_interp_3d_returns_view : returns_view th_nearest_interp_3d.
Proof.
  unfold th_nearest_interp_3d. view_steps.
  apply views_as_slift. intros out. apply view_as_shape.
Qed.

Lemma bilinear_2d_body_shape input h w c0 c1 out :
  bilinear_2d_body input h w c0 c1 = Ok out ->
  size out = size input /\ row_major out.
Proof.
  unfold bilinear_2d_body. intros H.
  next_step H as s0. next_step H as s1.
  next_step H as v00. next_step H as v10.
  next_step H as v01. next_step H as v11.
  now apply view_as_shape in H.
Qed.

Lemma trilinear_3d_body_shape input d h w c0 c1 c2 out :
  trilinear_3d_body input d h w c0 c1 c2 = Ok out ->
  size out = size input /\ row_major out.
Proof.
  unfold trilinear_3d_body. intros H.
  next_step H as s0. next_step H as s1. next_step H as s2.
  next_step H as v000. next_step H as v100.
  next_step H as v010. next_step H as v001.
  next_step H as v101. next_step H as v011.
  next_step H as v110. next_step H as v111.
  now apply view_as_shape in H.
Qed.

Lemma th_bilinear_interp_2d_returns_view : returns_view th_bilinear_interp_2d.
Proof.
  unfold th_bilinear_interp_2d. view_steps.
  apply views_as_slift. intros out. apply bilinear_2d_body_shape.
Qed.

Lemma th_trilinear_interp_3d_returns_view : returns_view th_trilinear_interp_3d.
Proof.
  unfold th_trilinear_interp_3d. view_steps.
  apply views_as_slift. intros out. apply trilinear_3d_body_shape.
Qed.

Lemma tbind_ok_inv {A B} (m : Traced A) (k : A -> Traced B) out :
  snd (tbind m k) = Ok out ->
  exists a, snd m = Ok a /\ snd (k a) = Ok out.
Proof.
  destruct m as [t [a|e]]; simpl; [|discriminate].
  intros H. exists a. split; [reflexivity|]. now destruct (k a).
Qed.

Lemma call_shape (resampler : SR Tensor) x coords out :
  returns_view resampler -> call resampler x coords = Ok out ->
  size out = size x /\ row_major out.
Proof. intros Hr H. exact (Hr _ _ H). Qed.

Ltac peel H :=
  repeat match type of H with
         | snd (tbind _ _) = Ok _ =>
             let a := fresh "a" in
             let E := fresh "E" in
             apply tbind_ok_inv in H; destruct H as [a [E H]]; cbv zeta in H
         end.

Lemma th_affine_2d_shape x matrix mode center out :
  snd (th_affine_2d x matrix mode center) = Ok out ->
  size out = size x /\ row_major out.
Proof.
  unfold th_affine_2d. intros H. peel H.
  destruct (mode =? "nearest")%string.
  - peel H. injection H as <-.
    eapply call_shape; [apply th_nearest_interp_2d_returns_view|].
    match goal with E : snd (tlift (call _ _ _)) = Ok _ |- _ => exact E end.
  - destruct (mode =? "bilinear")%string; [|discriminate].
    peel H. injection H as <-.
    eapply call_shape; [apply th_bilinear_interp_2d_returns_view|].
    match goal with E : snd (tlift (call _ _ _)) = Ok _ |- _ => exact E end.
Qed.

Lemma th_affine_3d_shape x matrix mode center out :
  snd (th_affine_3d x matrix mode center) = Ok out ->
  size out = size x /\ row_major out.
Proof.
  unfold th_affine_3d. intros H. peel H.
  destruct (mode =? "nearest")%string.
  - peel H. injection H as <-.
    eapply call_shape; [apply th_nearest_interp_3d_returns_view|].
    match goal with E : snd (tlift (call _ _ _)) = Ok _ |- _ => exact E end.
  - destruct (mode =? "trilinear")%string; [|discriminate].
    peel H. injection H as <-.
    eapply call_shape; [apply th_trilinear_interp_3d_returns_view|].
    match goal with E : snd (tlift (call _ _ _)) = Ok _ |- _ => exact E end.
Qed.

(** X6.  Shape preservation.  Whenever a resampler or an affine mapper
    returns a tensor, for any coordinate grid, matrix, mode and centring,
    the tensor has the size of the source and is laid out row-major with one
    buffer entry per element. *)
Theorem shape_preservation :
  (forall s out,
     (snd (th_nearest_interp_2d s) = Ok out \/
      snd (th_bilinear_interp_2d s) = Ok out \/
      snd (th_nearest_interp_3d s) = Ok out \/
      snd (th_trilinear_interp_3d s) = Ok out) ->
     size out = size (st_input s) /\ row_major out) /\
  (forall x matrix mode center out,
     (snd (th_affine_2d x matrix mode center) = Ok out \/
      snd (th_affine_3d x matrix mode center) = Ok out) ->
     size out = size x /\ row_major out).
Proof.
  split.
  - intros s out [H|[H|[H|H]]].
    + now apply th_nearest_interp_2d_returns_view.
    + now apply th_bilinear_interp_2d_returns_view.
    + now apply th_nearest_interp_3d_returns_view.
    + now apply th_trilinear_interp_3d_returns_view.
  - intros x matrix mode center out [H|H].
    + eapply th_affine_2d_shape; eassumption.
    + eapply th_affine_3d_shape; eassumption.
Qed.

Lemma shape_preservation_witness :
  exists out,
    snd (th_affine_2d transposed_view half_turn "nearest" true) = Ok out /\
    size out = [1; 2; 2]%nat /\ row_major out.
Proof.
  destruct shape_preservation as [_ H].
  eexists. split; [vm_compute; reflexivity|].
  apply (H transposed_view half_turn "nearest"%string true).
  left. reflexivity.
Defined.

(** ** The multilinear resamplers do not overshoot *)

Lemma lerp_bounds lo hi a b t :
  lo <= a /\ a <= hi -> lo <= b /\ b <= hi -> 0 <= t -> t <= 1 ->
  lo <= a * (1 - t) + b * t /\ a * (1 - t) + b * t <= hi.
Proof.
  intros [Ha1 Ha2] [Hb1 Hb2] Ht0 Ht1.
  assert (P1 : 0 <= (a - lo) * (1 - t)) by (apply Qmult_le_0_compat; lra).
  assert (P2 : 0 <= (b - lo) * t) by (apply Qmult_le_0_compat; lra).
  assert (P3 : 0 <= (hi - a) * (1 - t)) by (apply Qmult_le_0_compat; lra).
  assert (P4 : 0 <= (hi - b) * t) by (apply Qmult_le_0_compat; lra).
  split.
  - apply Qle_minus_iff.
    setoid_replace (a * (1 - t) + b * t + - lo)
      with ((a - lo) * (1 - t) + (b - lo) * t) by ring.
    lra.
  - apply Qle_minus_iff.
    setoid_replace (hi + - (a * (1 - t) + b * t))
      with ((hi - a) * (1 - t) + (hi - b) * t) by ring.
    lra.
Qed.

Lemma axis_frac_unit n c : 0 <= axis_frac n c /\ axis_frac n c <= 1.
Proof.
  unfold axis_frac, floor. cbv zeta.
  set (x := clamp 0 (inject_Z (n - 2)) c).
  pose proof (Qfloor_le x) as H1. pose proof (Qlt_floor x) as H2.
  rewrite inject_Z_plus in H2. change (inject_Z 1) with 1 in H2.
  set (f := inject_Z (Qfloor x)) in *. split; lra.
Qed.

Lemma within_comp lo hi (u v : Q) :
  u == v -> lo <= v /\ v <= hi -> lo <= u /\ u <= hi.
Proof. intros E [H1 H2]. rewrite E. auto. Qed.

Lemma blend_2d_bounds lo hi a b c d xd yd :
  within lo hi [a; b; c; d] ->
  0 <= xd -> xd <= 1 -> 0 <= yd -> yd <= 1 ->
  lo <= dot [a; b; c; d] (corner_weights_2d xd yd) /\
  dot [a; b; c; d] (corner_weights_2d xd yd) <= hi.
Proof.
  intros W X0 X1 Y0 Y1. unfold within in W.
  inversion W as [|? ? Ha W1]; subst. inversion W1 as [|? ? Hb W2]; subst.
  inversion W2 as [|? ? Hc W3]; subst. inversion W3 as [|? ? Hd _]; subst.
  apply (@within_comp lo hi _
           ((a * (1 - xd) + b * xd) * (1 - yd) + (c * (1 - xd) + d * xd) * yd)).
  - unfold dot, corner_weights_2d. cbn [map2 fold_right]. ring.
  - apply lerp_bounds; try assumption; apply lerp_bounds; assumption.
Qed.

Lemma blend_3d_bounds lo hi a b c d e f g h xd yd zd :
  within lo hi [a; b; c; d; e; f; g; h] ->
  0 <= xd -> xd <= 1 -> 0 <= yd -> yd <= 1 -> 0 <= zd -> zd <= 1 ->
  lo <= dot [a; b; c; d; e; f; g; h] (corner_weights_3d xd yd zd) /\
  dot [a; b; c; d; e; f; g; h] (corner_weights_3d xd yd zd) <= hi.
Proof.
  intros W X0 X1 Y0 Y1 Z0 Z1. unfold within in W.
  inversion W as [|? ? Ha W1]; subst. inversion W1 as [|? ? Hb W2]; subst.
  inversion W2 as [|? ? Hc W3]; subst. inversion W3 as [|? ? Hd W4]; subst.
  inversion W4 as [|? ? He W5]; subst. inversion W5 as [|? ? Hf W6]; subst.
  inversion W6 as [|? ? Hg W7]; subst. inversion W7 as [|? ? Hh _]; subst.
  apply (@within_comp lo hi _
           (((a * (1 - xd) + b * xd) * (1 - yd)
             + (c * (1 - xd) + g * xd) * yd) * (1 - zd)
            + ((d * (1 - xd) + e * xd) * (1 - yd)
               + (f * (1 - xd) + h * xd) * yd) * zd)).
  - unfold dot, corner_weights_3d. cbn [map2 fold_right]. ring.
  - repeat (apply lerp_bounds; try assumption).
Qed.

Lemma within_incl lo hi (vals flat : list Q) :
  incl vals flat -> within lo hi flat -> within lo hi vals.
Proof.
  unfold within. intros Hi Hf. rewrite Forall_forall in *. auto.
Qed.

Lemma bilinear_2d_body_length input h w c0 c1 out :
  bilinear_2d_body input h w c0 c1 = Ok out -> length c0 = length c1 ->
  length (storage out) = length c0.
Proof.
  unfold bilinear_2d_body. intros H Hlen.
  next_step H as s0. next_step H as s1.
  next_step H as v00. next_step H as v10.
  next_step H as v01. next_step H as v11.
  apply view_as_storage in H. rewrite H. gather_lengths.
  rewrite <- Hlen, Nat.min_id in *.
  apply length_x_mapped_2d; try assumption;
    unfold vsub, vmap; rewrite length_map2, !length_map, <- ?Hlen;
    apply Nat.min_id.
Qed.

Lemma trilinear_3d_body_length input d h w c0 c1 c2 out :
  trilinear_3d_body input d h w c0 c1 c2 = Ok out ->
  length c0 = length c1 -> length c0 = length c2 ->
  length (storage out) = length c0.
Proof.
  unfold trilinear_3d_body. intros H Hlen1 Hlen2.
  next_step H as s0. next_step H as s1. next_step H as s2.
  next_step H as v000. next_step H as v100.
  next_step H as v010. next_step H as v001.
  next_step H as v101. next_step H as v011.
  next_step H as v110. next_step H as v111.
  apply view_as_storage in H. rewrite H. gather_lengths.
  rewrite <- Hlen1, <- Hlen2, !Nat.min_id in *.
  apply length_x_mapped_3d.
  repeat (constructor; [first
    [ assumption
    | unfold vsub, vmap; rewrite length_map2, !length_map,
        <- ?Hlen1, <- ?Hlen2; apply Nat.min_id ]|]).
  constructor.
Qed.

Lemma th_bilinear_interp_2d_ok_inv x coords out :
  call th_bilinear_interp_2d x coords = Ok out ->
  exists h w c0 c1,
    length c0 = length coords /\ length c1 = length coords /\
    bilinear_2d_body x h w c0 c1 = Ok out.
Proof.
  unfold call, th_bilinear_interp_2d, sbind, read_col, input_size, get_input,
    slift. cbn [st_coords st_input fst snd].
  destruct (get_col 0 coords) as [c0|] eqn:E0; [|discriminate].
  destruct (rbind (tsize x 1) _) as [h|]; [|discriminate].
  destruct (get_col 1 coords) as [c1|] eqn:E1; [|discriminate].
  destruct (rbind (tsize x 2) _) as [w|]; [|discriminate].
  cbn [snd]. intros H. exists h, w, c0, c1.
  split; [exact (mapM_length _ _ E0)|].
  split; [exact (mapM_length _ _ E1)|exact H].
Qed.

Lemma th_trilinear_interp_3d_ok_inv x coords out :
  call th_trilinear_interp_3d x coords = Ok out ->
  exists d h w c0 c1 c2,
    length c0 = length coords /\ length c1 = length coords /\
    length c2 = length coords /\
    trilinear_3d_body x d h w c0 c1 c2 = Ok out.
Proof.
  unfold call, th_trilinear_interp_3d, sbind, read_col, input_size, get_input,
    slift. cbn [st_coords st_input fst snd].
  destruct (get_col 0 coords) as [c0|] eqn:E0; [|discriminate].
  destruct (rbind (tsize x 1) _) as [d|]; [|discriminate].
  destruct (get_col 1 coords) as [c1|] eqn:E1; [|discriminate].
  destruct (rbind (tsize x 2) _) as [h|]; [|discriminate].
  destruct (get_col 2 coords) as [c2|] eqn:E2; [|discriminate].
  destruct (rbind (tsize x 3) _) as [w|]; [|discriminate].
  cbn [snd]. intros H. exists d, h, w, c0, c1, c2.
  split; [exact (mapM_length _ _ E0)|].
  split; [exact (mapM_length _ _ E1)|].
  split; [exact (mapM_length _ _ E2)|exact H].
Qed.

Lemma bilinear_call_within lo hi x coords out :
  call th_bilinear_interp_2d x coords = Ok out ->
  within lo hi (th_flatten x) -> within lo hi (storage out).
Proof.
  intros H Hx. apply th_bilinear_interp_2d_ok_inv in H.
  destruct H as (h & w & c0 & c1 & L0 & L1 & H).
  assert (Hlen : length c0 = length c1) by congruence.
  pose proof (bilinear_2d_body_length _ _ _ _ _ H Hlen) as Lout.
  unfold within. apply Forall_nth. intros p d Hp.
  rewrite (nth_indep _ d 0) by exact Hp.
  destruct (@bilinear_2d_body_entry x h w c0 c1 out p H Hlen ltac:(lia))
    as (vals & L4 & Hin & E).
  destruct vals as [|a [|b [|c [|e [|? ?]]]]]; try discriminate L4.
  eapply within_comp; [exact E|].
  pose proof (axis_frac_unit h (nth p c0 0)) as [? ?].
  pose proof (axis_frac_unit w (nth p c1 0)) as [? ?].
  apply blend_2d_bounds; try assumption.
  eapply within_incl; eassumption.
Qed.

Lemma trilinear_call_within lo hi x coords out :
  call th_trilinear_interp_3d x coords = Ok out ->
  within lo hi (th_flatten x) -> within lo hi (storage out).
Proof.
  intros H Hx. apply th_trilinear_interp_3d_ok_inv in H.
  destruct H as (d & h & w & c0 & c1 & c2 & L0 & L1 & L2 & H).
  assert (Hlen1 : length c0 = length c1) by congruence.
  assert (Hlen2 : length c0 = length c2) by congruence.
  pose proof (trilinear_3d_body_length _ _ _ _ _ _ _ H Hlen1 Hlen2) as Lout.
  unfold within. apply Forall_nth. intros p d0 Hp.
  rewrite (nth_indep _ d0 0) by exact Hp.
  destruct (@trilinear_3d_body_entry x d h w c0 c1 c2 out p H Hlen1 Hlen2
              ltac:(lia)) as (vals & L8 & Hin & E).
  destruct vals as [|a1 [|a2 [|a3 [|a4 [|a5 [|a6 [|a7 [|a8 [|? ?]]]]]]]]];
    try discriminate L8.
  eapply within_comp; [exact E|].
  pose proof (axis_frac_unit d (nth p c0 0)) as [? ?].
  pose proof (axis_frac_unit h (nth p c1 0)) as [? ?].
  pose proof (axis_frac_unit w (nth p c2 0)) as [? ?].
  apply blend_3d_bounds; try assumption.
  eapply within_incl; eassumption.
Qed.

(** X7.  The multilinear resamplers do not overshoot: when every entry of
    the source lies between [lo] and [hi], so does every entry of a tensor
    returned by [th_bilinear_interp_2d] or [th_trilinear_interp_3d], for
    any coordinate grid (each output is a convex combination of source
    entries). *)
Theorem multilinear_within_source_range lo hi x coords out :
  within lo hi (th_flatten x) ->
  call th_bilinear_interp_2d x coords = Ok out \/
  call th_trilinear_interp_3d x coords = Ok out ->
  within lo hi (storage out).
Proof.
  intros Hx [H|H].
  - eapply bilinear_call_within; eassumption.
  - eapply trilinear_call_within; eassumption.
Qed.

Lemma multilinear_within_source_range_witness :
  exists out,
    call th_bilinear_interp_2d small_image stray_grid = Ok out /\
    within 10 40 (storage out).
Proof.
  eexists. split; [vm_compute; reflexivity|].
  apply (@multilinear_within_source_range 10 40 small_image stray_grid).
  - unfold within. repeat constructor; discriminate.
  - left. vm_compute. reflexivity.
Defined.

(** ** Several channels in 3-D *)

Lemma prodn_3 d h w : prodn [d; h; w] = (d * (h * w))%nat.
Proof. simpl. lia. Qed.

Lemma nearest_3d_several_channels x c d h w coords :
  size x = [c; d; h; w] -> (2 <= c)%nat ->
  (1 <= d)%nat -> (1 <= h)%nat -> (1 <= w)%nat ->
  Forall (fun r => length r = 3%nat) coords ->
  length coords = (d * (h * w))%nat ->
  is_ok (call th_nearest_interp_3d x coords) = false.
Proof.
  intros Hsz Hc Hd Hh Hw Hwid Hn. unfold call.
  rewrite (@th_nearest_interp_3d_run x coords c d h w [] Hsz)
    by (eapply Forall_impl; [|exact Hwid]; simpl; lia).
  cbn [snd].
  destruct (mv _ _) as [idx|] eqn:Ei; cbn [rbind]; [|reflexivity].
  destruct (index _ _) as [vals|] eqn:Ev; cbn [rbind]; [|reflexivity].
  apply mapM_length in Ei. apply mapM_length in Ev.
  rewrite length_map in Ev. unfold nearest_grid_3d in Ei.
  rewrite length_map in Ei.
  unfold view_as.
  replace (length vals =? numel x)%nat with false; [reflexivity|].
  symmetry. apply Nat.eqb_neq. unfold numel. rewrite Hsz. simpl. nia.
Qed.

Lemma trilinear_3d_several_channels x c d h w coords :
  size x = [c; d; h; w] -> (2 <= c)%nat ->
  (1 <= d)%nat -> (1 <= h)%nat -> (1 <= w)%nat ->
  length coords = (d * (h * w))%nat ->
  is_ok (call th_trilinear_interp_3d x coords) = false.
Proof.
  intros Hsz Hc Hd Hh Hw Hn.
  destruct (call th_trilinear_interp_3d x coords) as [out|] eqn:E;
    [exfalso|reflexivity].
  apply th_trilinear_interp_3d_ok_inv in E.
  destruct E as (d' & h' & w' & c0 & c1 & c2 & L0 & L1 & L2 & E).
  pose proof (trilinear_3d_body_length _ _ _ _ _ _ _ E
                ltac:(congruence) ltac:(congruence)) as Lout.
  apply trilinear_3d_body_shape in E. destruct E as [Es [_ El]].
  unfold numel in El. rewrite Es, Hsz in El. simpl in El. nia.
Qed.

Lemma th_affine_3d_several_channels x c d h w matrix mode center :
  size x = [c; d; h; w] -> (2 <= c)%nat ->
  (1 <= d)%nat -> (1 <= h)%nat -> (1 <= w)%nat ->
  is_ok (snd (th_affine_3d x matrix mode center)) = false.
Proof.
  intros Hsz Hc Hd Hh Hw.
  destruct (snd (th_affine_3d x matrix mode center)) as [out|] eqn:H;
    [exfalso|reflexivity].
  unfold th_affine_3d, tsize in H. rewrite Hsz in H. cbn [nth_error] in H.
  peel H.
  cbn [tlift snd] in E0, E1, E2, E3, E5.
  injection E0 as <-. injection E1 as <-. injection E2 as <-.
  rewrite th_iterproduct_cons in E3.
  assert (G : cartesian_c_order [d; h; w] = a3) by congruence.
  clear E3. subst a3.
  apply affine_map_shape in E5. destruct E5 as [Elen Ewid].
  match type of H with
  | context [call _ x ?g] => set (nc := g) in *
  end.
  assert (Hlen : length nc = (d * (h * w))%nat).
  { subst nc. rewrite <- prodn_3, <- length_cartesian.
    destruct center; rewrite ?shift_col_length, Elen, ?shift_col_length;
      now rewrite length_map. }
  assert (Hwid : Forall (fun r => length r = 3%nat) nc)
    by (subst nc; destruct center; auto using shift_col_width).
  destruct (mode =? "nearest")%string.
  - peel H.
    pose proof (@nearest_3d_several_channels x c d h w nc
                  Hsz Hc Hd Hh Hw Hwid Hlen) as N.
    cbn [tlift snd] in E0. rewrite E0 in N. discriminate N.
  - destruct (mode =? "trilinear")%string; [|discriminate H].
    peel H.
    pose proof (@trilinear_3d_several_channels x c d h w nc
                  Hsz Hc Hd Hh Hw Hlen) as N.
    cbn [tlift snd] in E0. rewrite E0 in N. discriminate N.
Qed.

(** X9.  On a volume with two channels or more [th_affine_3d] never returns
    a tensor, in any mode and for any matrix: both 3-D resamplers gather one
    value per grid point from the flattened tensor, without a loop over the
    channels, and the final [view_as] of these [D * H * W] values as the
    [C * D * H * W] input raises. *)
Theorem th_affine_3d_needs_one_channel x c d h w matrix mode center :
  size x = [c; d; h; w] -> (2 <= c)%nat ->
  (1 <= d)%nat -> (1 <= h)%nat -> (1 <= w)%nat ->
  is_ok (snd (th_affine_3d x matrix mode center)) = false.
Proof. apply th_affine_3d_several_channels. Qed.

Lemma th_affine_3d_needs_one_channel_witness :
  is_ok (snd (th_affine_3d two_channel_volume eye4 "nearest" false)) = false /\
  is_ok (snd (th_affine_3d two_channel_volume eye4 "trilinear" true)) = false.
Proof.
  split;
    apply (@th_affine_3d_needs_one_channel two_channel_volume 2 1 2 2);
    try reflexivity; lia.
Defined.

(** ** The identity transform in 3-D *)

Lemma dot_inject (r s : list Z) :
  dot (map inject_Z r) (map inject_Z s) == inject_Z (dotZ r s).
Proof.
  unfold dot, dotZ. revert s.
  induction r as [|a r IH]; intros [|b s]; simpl; try reflexivity.
  rewrite IH, inject_Z_plus, inject_Z_mult. reflexivity.
Qed.





(** ** A grid that went through the nearest resampler *)

Lemma snap_snap n (v : Q) : snap n (snap n v) = snap n v.
Proof.
  destruct n as [|n].
  - assert (E : forall u, snap 0 u = inject_Z (-1)).
    { intros u. unfold snap, round. f_equal.
      rewrite <- (round_half_even_Z (-1)). apply round_half_even_comp.
      apply (clamp_empty_range u). }
    now rewrite !E.
  - unfold snap at 2 3. unfold round.
    set (z := round_half_even (clamp 0 (inject_Z (Z.of_nat (S n) - 1)) v)).
    apply snap_exact; [reflexivity|].
    assert (R : (0 <= z <= Z.of_nat (S n) - 1)%Z).
    { subst z.
      assert (L : 0 <= inject_Z (Z.of_nat (S n) - 1)).
      { change 0 with (inject_Z 0). rewrite <- Zle_Qle. lia. }
      destruct (clamp_range v L) as [H1 H2].
      apply round_half_even_range; [exact H1 | exact H2]. }
    lia.
Qed.

Lemma nearest_grid_2d_idem h w coords :
  Forall (fun r => (2 <= length r)%nat) coords ->
  nearest_grid_2d h w (nearest_grid_2d h w coords) = nearest_grid_2d h w coords.
Proof.
  intros Hw. unfold nearest_grid_2d. rewrite map_map.
  apply map_ext_in. intros r Hr.
  rewrite Forall_forall in Hw. specialize (Hw r Hr).
  destruct r as [|a [|b t]]; simpl in Hw; try lia.
  cbn [nth set_nth]. now rewrite !snap_snap.
Qed.

(** X12.  The nearest resampler rewrites the caller's grid once and for
    all: called again on the store it left, it changes nothing more and
    returns the same outcome. *)
Theorem th_nearest_interp_2d_twice s c h w rest :
  size (st_input s) = c :: h :: w :: rest ->
  Forall (fun r => (2 <= length r)%nat) (st_coords s) ->
  th_nearest_interp_2d (fst (th_nearest_interp_2d s)) = th_nearest_interp_2d s.
Proof.
  intros Hsz Hw. destruct s as [x coords]. simpl in Hsz, Hw.
  rewrite (@th_nearest_interp_2d_run x coords c h w rest Hsz Hw). cbn [fst].
  assert (Hw' : Forall (fun r => (2 <= length r)%nat) (nearest_grid_2d h w coords)).
  { apply Forall_map. eapply Forall_impl; [|exact Hw].
    intros r Hr. cbv beta in *. now rewrite !length_set_nth. }
  rewrite (@th_nearest_interp_2d_run x _ c h w rest Hsz Hw').
  now rewrite (@nearest_grid_2d_idem h w coords Hw).
Qed.

Lemma th_nearest_interp_2d_twice_witness :
  th_nearest_interp_2d (fst (th_nearest_interp_2d (mkStore small_image stray_grid))) =
  th_nearest_interp_2d (mkStore small_image stray_grid).
Proof.
  apply (@th_nearest_interp_2d_twice (mkStore small_image stray_grid) 1 2 2 []).
  - reflexivity.
  - repeat constructor.
Defined.

(** ** Closeness *)

Lemma broadcast_rev_same a : broadcast_rev a a = Ok a.
Proof.
  induction a as [|m a IH]; simpl; [reflexivity|].
  rewrite IH. cbn [rbind]. now rewrite Nat.eqb_refl.
Qed.

Lemma broadcast_shape_same a : broadcast_shape a a = Ok a.
Proof.
  unfold broadcast_shape. rewrite broadcast_rev_same. cbn [rbind].
  now rewrite rev_involutive.
Qed.



Lemma expand_strides_rev_same sz st :
  length st = length sz -> expand_strides_rev sz st sz = st.
Proof.
  revert st. induction sz as [|m sz IH]; intros [|k st] H; simpl in *;
    try discriminate; [reflexivity|].
  rewrite Nat.eqb_refl, IH by lia. reflexivity.
Qed.

Lemma expand_same x :
  length (stride x) = length (size x) -> expand x (size x) = x.
Proof.
  intros H. unfold expand.
  rewrite expand_strides_rev_same by now rewrite !length_rev.
  rewrite rev_involutive. now destruct x.
Qed.




Lemma Qsum_nonneg l : Forall (fun v => 0 <= v) l -> 0 <= Qsum l.
Proof.
  induction 1 as [|v l Hv _ IH]; [apply Qle_refl|].
  change (0 <= v + Qsum l). lra.
Qed.

Lemma Qsum_bounds_entries l e :
  Forall (fun v => 0 <= v) l -> Qsum l < e -> Forall (fun v => v < e) l.
Proof.
  induction 1 as [|v l Hv Hl IH]; intros H; constructor;
    change (v + Qsum l < e) in H; pose proof (Qsum_nonneg Hl).
  - lra.
  - apply IH. lra.
Qed.


Lemma abs_diff_entries x y shape :
  vmap Qabs (vsub (map (element x) shape) (map (element y) shape)) =
  map (fun ix => Qabs (element x ix - element y ix)) shape.
Proof. unfold vmap, vsub. now rewrite map2_map_same, map_map. Qed.

Lemma th_allclose_same_size x y :
  size x = size y ->
  length (stride x) = length (size x) ->
  length (stride y) = length (size y) ->
  th_allclose x y =
  Ok (if Qlt_le_dec
           (Qsum (map (fun ix => Qabs (element x ix - element y ix))
                    (cartesian_c_order (size x))))
           (1 # 100000)
      then true else false).
Proof.
  intros Hs Hx Hy. unfold th_allclose.
  rewrite <- Hs, broadcast_shape_same. cbn [rbind].
  rewrite (expand_same x Hx). rewrite Hs, (expand_same y Hy).
  unfold elements. rewrite <- Hs. now rewrite abs_diff_entries.
Qed.


(** X14.  When two tensors of one size are found close, every pair of
    entries at the same index differs by less than 1/100000. *)
Theorem th_allclose_entrywise x y :
  size x = size y ->
  length (stride x) = length (size x) ->
  length (stride y) = length (size y) ->
  th_allclose x y = Ok true ->
  forall ix, in_shape ix (size x) ->
  Qabs (element x ix - element y ix) < 1 # 100000.
Proof.
  intros Hs Hx Hy H ix Hix.
  rewrite (@th_allclose_same_size x y Hs Hx Hy) in H.
  destruct (Qlt_le_dec _ _) as [L|L]; [|discriminate].
  apply Qsum_bounds_entries in L.
  - rewrite Forall_map, Forall_forall in L. apply L. now apply in_cartesian.
  - apply Forall_map, Forall_forall. intros r _. apply Qabs_nonneg.
Qed.

Lemma th_allclose_entrywise_witness :
  th_allclose ramp_image near_ramp_image = Ok true /\
  Qabs (element ramp_image [0; 1; 2]%Z - element near_ramp_image [0; 1; 2]%Z)
    < 1 # 100000.
Proof.
  split; [vm_compute; reflexivity|].
  apply (@th_allclose_entrywise ramp_image near_ramp_image);
    try (vm_compute; reflexivity).
  repeat constructor; simpl; lia.
Defined.



(** ** Random choice *)

Lemma long_floor (v : Q) : long (floor v) = Qfloor v.
Proof. apply long_exact. reflexivity. Qed.

Lemma scaled_draw_range (u s : Q) (n : Z) :
  0 <= u -> u < 1 -> 0 < s -> s <= inject_Z n ->
  (0 <= long (floor (u * s)) < n)%Z.
Proof.
  intros H0 H1 Hs Hn. rewrite long_floor.
  assert (L : 0 <= u * s) by (apply Qmult_le_0_compat; lra).
  assert (U : u * s < s).
  { setoid_replace s with (1 * s) at 2 by ring.
    now apply Qmult_lt_compat_r. }
  split.
  - change 0%Z with (Qfloor 0). now apply Qfloor_resp_le.
  - rewrite Zlt_Qlt. pose proof (Qfloor_le (u * s)). lra.
Qed.


Lemma index_in_range (flat : list Q) (idx : list Z) :
  Forall (fun i => (0 <= i < Z.of_nat (length flat))%Z) idx ->
  index flat idx = Ok (map (fun i => nth (Z.to_nat i) flat 0) idx).
Proof.
  intros H. unfold index. apply mapM_ok_map.
  eapply Forall_impl; [|exact H]. intros i Hi. now apply index1_in_range.
Qed.


(** X16.  Uniform choice with replacement: with a fair generator and a
    population that is not empty, the call returns as many samples as
    asked for (one when [size] is [None]), each an entry of the
    population. *)
Theorem th_random_choice_uniform d a l size :
  fair d -> population a = Ok l -> l <> [] ->
  exists out,
    th_random_choice d a size true None = Ok out /\
    length out = match size with None => 1%nat | Some k => k end /\
    Forall (fun v => In v l) out.
Proof.
  intros [Hr _] Ha Hl. unfold th_random_choice. rewrite Ha. cbn [rbind].
  set (k := match size with None => 1%nat | Some k => k end).
  destruct (Hr k) as [Hlen Hu].
  assert (Hn : (0 < Z.of_nat (length l))%Z) by (destruct l; [easy | simpl; lia]).
  rewrite index_in_range.
  - eexists. split; [reflexivity|]. split.
    + now rewrite !length_map.
    + rewrite Forall_map, Forall_map. eapply Forall_impl; [|exact Hu].
      intros u [H0 H1]. cbv beta. apply nth_In.
      assert (R := @scaled_draw_range u (inject_Z (Z.of_nat (length l)))
                     (Z.of_nat (length l)) H0 H1).
      destruct R as [R0 R1]; [now rewrite <- (Zlt_Qlt 0) | apply Qle_refl | lia].
  - rewrite Forall_map. eapply Forall_impl; [|exact Hu].
    intros u [H0 H1]. cbv beta.
    apply scaled_draw_range; [assumption .. | | apply Qle_refl].
    now rewrite <- (Zlt_Qlt 0).
Qed.

Lemma th_random_choice_uniform_witness :
  exists out,
    th_random_choice (stuck_at (2 # 3)) (Count 3) (Some 2%nat) true None = Ok out /\
    length out = 2%nat /\
    Forall (fun v => In v [inject_Z 0; inject_Z 1; inject_Z 2]) out.
Proof.
  apply (@th_random_choice_uniform (stuck_at (2 # 3)) (Count 3)
           [inject_Z 0; inject_Z 1; inject_Z 2] (Some 2%nat)).
  - split.
    + intros k. split; [apply repeat_length|].
      apply Forall_forall. intros u Hu. apply repeat_spec in Hu. subst u.
      split; [discriminate | reflexivity].
    + intros n. simpl. apply Permutation_sym, Permutation_rev.
  - reflexivity.
  - discriminate.
Defined.

Lemma entries_by_position (l : list Q) :
  map (fun i => nth (Z.to_nat i) l 0) (arange (length l)) = l.
Proof.
  assert (H : Ok (map (fun i => nth (Z.to_nat i) l 0) (arange (length l))) = Ok l).
  { rewrite <- index_in_range; [apply index_arange|].
    apply Forall_forall. intros i Hi. now apply in_arange. }
  now injection H.
Qed.

(** X17.  Uniform choice without replacement: with a fair generator the
    call never raises; it returns [size] samples, or the whole population
    when [size] is larger, and the samples sit at distinct positions: put
    before what was left, they are the population in some order. *)
Theorem th_random_choice_without_replacement d a l size :
  fair d -> population a = Ok l ->
  exists out rest,
    th_random_choice d a size false None = Ok out /\
    length out =
      Nat.min (match size with None => 1%nat | Some k => k end) (length l) /\
    Permutation (out ++ rest) l.
Proof.
  intros [_ Hp] Ha. unfold th_random_choice. rewrite Ha. cbn [rbind].
  set (k := match size with None => 1%nat | Some k => k end).
  specialize (Hp (length l)). set (perm := randperm d (length l)) in *.
  assert (Hin : Forall (fun i => (0 <= i < Z.of_nat (length l))%Z) perm).
  { apply Forall_forall. intros i Hi. apply in_arange.
    now apply (Permutation_in _ Hp). }
  set (f := fun i : Z => nth (Z.to_nat i) l 0).
  exists (map f (firstn k perm)), (map f (skipn k perm)).
  split; [|split].
  - apply index_in_range. apply Forall_forall. intros i Hi.
    rewrite Forall_forall in Hin. apply Hin.
    rewrite <- (firstn_skipn k perm). apply in_or_app. now left.
  - rewrite length_map, length_firstn.
    now rewrite (Permutation_length Hp), length_arange.
  - rewrite <- map_app, firstn_skipn.
    eapply Permutation_trans; [apply Permutation_map, Hp|].
    subst f. now rewrite entries_by_position.
Qed.

Lemma th_random_choice_without_replacement_witness :
  exists out rest,
    th_random_choice (stuck_at 0) (Entries [7; 8; 9]) (Some 5%nat) false None
      = Ok out /\
    length out = 3%nat /\
    Permutation (out ++ rest) [7; 8; 9].
Proof.
  apply (@th_random_choice_without_replacement (stuck_at 0)
           (Entries [7; 8; 9]) [7; 8; 9] (Some 5%nat)).
  - split.
    + intros k. split; [apply repeat_length|].
      apply Forall_forall. intros u Hu. apply repeat_spec in Hu. subst u.
      split; [discriminate | reflexivity].
    + intros n. simpl. apply Permutation_sym, Permutation_rev.
  - reflexivity.
Defined.























(** ** The bilinear resampler on one channel *)

Lemma corner_offsets_in_range (h w : nat) (k l : Z) (c0 c1 : list Q) :
  (2 <= h)%nat -> (2 <= w)%nat -> (0 <= k <= 1)%Z -> (0 <= l <= 1)%Z ->
  Forall (fun i => (0 <= i < Z.of_nat (h * w))%Z)
    (map2 Z.add
       (map (fun a => ((Qfloor (clamp 0 (inject_Z (Z.of_nat h - 2)) a) + k)
                       * Z.of_nat w)%Z) c0)
       (map (fun b => ((Qfloor (clamp 0 (inject_Z (Z.of_nat w - 2)) b) + l)
                       * 1)%Z) c1)).
Proof.
  intros Hh Hw Hk Hl.
  apply (@Forall_map2 _ _ _
           (fun i => exists q, (0 <= q <= Z.of_nat h - 1)%Z /\ i = (q * Z.of_nat w)%Z)
           (fun j => (0 <= j <= Z.of_nat w - 1)%Z)).
  - intros i j [q [Hq ->]] Hj. rewrite Nat2Z.inj_mul. nia.
  - apply Forall_map, Forall_forall. intros a _.
    pose proof (@Qfloor_clamp_range (Z.of_nat h - 2) a ltac:(lia)).
    eexists. split; [|reflexivity]. lia.
  - apply Forall_map, Forall_forall. intros b _.
    pose proof (@Qfloor_clamp_range (Z.of_nat w - 2) b ltac:(lia)). lia.
Qed.

Lemma nth_corner_value (flat : list Q) (f g : Q -> Z) c0 c1 p :
  (p < length c0)%nat -> (p < length c1)%nat ->
  nth p (map (fun i => nth (Z.to_nat i) flat 0)
           (map2 Z.add (map f c0) (map g c1))) 0 =
  nth (Z.to_nat (f (nth p c0 0) + g (nth p c1 0))) flat 0.
Proof.
  intros H0 H1.
  rewrite (nth_map_lt _ _ 0 0%Z) by length_side.
  rewrite (nth_map2 _ _ _ 0%Z 0%Z 0%Z) by length_side.
  now rewrite !(nth_map_lt _ _ 0%Z 0) by length_side.
Qed.

Lemma corner_offset_nat (h w : nat) (q r k l : Z) :
  (0 <= q)%Z -> (0 <= r)%Z -> (0 <= k)%Z -> (0 <= l)%Z ->
  Z.to_nat ((q + k) * Z.of_nat w + (r + l) * 1) =
  (0 * (h * w) + (Z.to_nat q + Z.to_nat k) * w + (Z.to_nat r + Z.to_nat l))%nat.
Proof.
  intros Hq Hr Hk Hl. apply Nat2Z.inj. rewrite Z2Nat.id by nia.
  rewrite !Nat2Z.inj_add, !Nat2Z.inj_mul, !Nat2Z.inj_add, !Z2Nat.id by lia.
  simpl Z.of_nat. lia.
Qed.

(** On a row-major one-channel image of at least two rows and two columns
    and fewer than [2^24] pixels, the body of the bilinear resampler
    returns, at every position, the blend of the four pixels around the
    clamped coordinate. *)
Lemma bilinear_2d_body_one_channel x h w c0 c1 :
  size x = [1; h; w]%nat -> row_major x -> (2 <= h)%nat -> (2 <= w)%nat ->
  (Z.of_nat (h * w) < 2 ^ 24)%Z ->
  length c0 = (h * w)%nat -> length c1 = (h * w)%nat ->
  exists out,
    bilinear_2d_body x (Z.of_nat h) (Z.of_nat w) c0 c1 = Ok out /\
    size out = size x /\
    forall p, (p < h * w)%nat ->
      nth p (storage out) 0 == bilinear_at x h w (nth p c0 0) (nth p c1 0).
Proof.
  intros Hsz [Hst Hlen] Hh Hw Hb L0 L1.
  assert (Hn : numel x = (h * w)%nat) by (unfold numel; rewrite Hsz; simpl; lia).
  unfold bilinear_2d_body, spatial_stride, th_flatten.
  rewrite (contiguous_row_major x Hst), Hst, Hsz.
  cbn [c_strides tl nth_error rbind prodn fold_right].
  rewrite Nat.mul_1_r. change (Z.of_nat 1) with 1%Z.
  rewrite Nat2Z.inj_mul in Hb.
  rewrite !(@floor_offsets (Z.of_nat h) (Z.of_nat w)) by lia.
  rewrite !(@ceil_offsets (Z.of_nat h) (Z.of_nat w)) by lia.
  rewrite !(@floor_offsets (Z.of_nat w) 1) by nia.
  rewrite !(@ceil_offsets (Z.of_nat w) 1) by nia.
  rewrite !index_in_range
    by (rewrite Hlen, Hn; apply corner_offsets_in_range; lia).
  cbn [rbind]. unfold view_as.
  rewrite (@length_x_mapped_2d _ _ _ _ _ _ (h * w)%nat), Hn, Nat.eqb_refl.
  2-5: rewrite length_map, length_map2, !length_map, L0, L1; apply Nat.min_id.
  2-3: unfold vsub, vmap; rewrite length_map2, !length_map, ?L0, ?L1;
       apply Nat.min_id.
  eexists. split; [reflexivity|]. split; [cbn [size]; congruence|].
  intros p Hp. cbn [storage].
  assert (Hp0 : (p < length c0)%nat) by now rewrite L0.
  assert (Hp1 : (p < length c1)%nat) by now rewrite L1.
  rewrite x_mapped_2d_entry.
  - unfold bilinear_at, pixel, at_pos. rewrite Hsz. cbn [map].
    rewrite !nth_corner_value by assumption.
    pose proof (@Qfloor_clamp_range (Z.of_nat h - 2) (nth p c0 0) ltac:(lia)) as Hq.
    pose proof (@Qfloor_clamp_range (Z.of_nat w - 2) (nth p c1 0) ltac:(lia)) as Hr.
    rewrite !(@corner_offset_nat h w) by lia.
    change (Z.to_nat 0) with 0%nat. change (Z.to_nat 1) with 1%nat.
    rewrite !Nat.add_0_r.
    unfold axis_frac. nth_pointwise. reflexivity.
  - unfold vsub, vmap.
    repeat (constructor; [length_side|]). constructor.
Qed.

(** Every output pixel of the bilinear resampler is the blend of the four
    source pixels around the clamped coordinates of its grid row. *)
Lemma bilinear_pixel x h w coords i j :
  size x = [1; h; w]%nat -> (2 <= h)%nat -> (2 <= w)%nat ->
  (Z.of_nat (h * w) < 2 ^ 24)%Z -> row_major x ->
  Forall (fun r => length r = 2%nat) coords ->
  length coords = (h * w)%nat ->
  (i < h)%nat -> (j < w)%nat ->
  exists out,
    call th_bilinear_interp_2d x coords = Ok out /\
    size out = size x /\
    pixel out 0 i j ==
    bilinear_at x h w (nth 0 (nth (i * w + j) coords []) 0)
                      (nth 1 (nth (i * w + j) coords []) 0).
Proof.
  intros Hsz Hh Hw Hb Hrm Hwid Hlen Hi Hj.
  unfold call.
  rewrite (@th_bilinear_interp_2d_run x coords 1%nat h w [] Hsz)
    by (eapply Forall_impl; [|exact Hwid]; simpl; intros r ->; lia).
  cbn [snd].
  destruct (@bilinear_2d_body_one_channel x h w (col 0 coords) (col 1 coords))
    as (out & E & So & P); try assumption;
    try (unfold col; now rewrite length_map).
  exists out. split; [exact E|]. split; [exact So|].
  unfold pixel at 1. rewrite So, Hsz.
  rewrite Nat.mul_0_l, Nat.add_0_l.
  rewrite P by nia. unfold col.
  rewrite !(nth_map_lt _ _ 0 []) by (rewrite Hlen; nia).
  reflexivity.
Qed.


Lemma clamp_above (lo hi v : Q) : lo <= hi -> hi <= v -> clamp lo hi v == hi.
Proof.
  intros H1 H2. unfold clamp. apply Q.min_r.
  apply Qle_trans with v; [exact H2 | apply Q.le_max_l].
Qed.

Lemma clamp_below (lo hi v : Q) : lo <= hi -> v <= lo -> clamp lo hi v == lo.
Proof.
  intros H1 H2. unfold clamp.
  rewrite (Q.max_r v lo H2). now apply Q.min_l.
Qed.





(** ** Out-of-range coordinates: what is read *)

Lemma nearest_index_low n (u : Q) :
  (1 <= n)%nat -> u <= 0 -> nearest_index n u = 0%nat.
Proof.
  intros Hn Hu. unfold nearest_index.
  rewrite (round_half_even_comp (b := inject_Z 0)); [now rewrite round_half_even_Z|].
  apply clamp_below; [|exact Hu].
  change 0 with (inject_Z 0). rewrite <- Zle_Qle. lia.
Qed.

Lemma nearest_index_high n (u : Q) :
  (1 <= n)%nat -> inject_Z (Z.of_nat n - 1) <= u ->
  nearest_index n u = (n - 1)%nat.
Proof.
  intros Hn Hu. unfold nearest_index.
  rewrite (round_half_even_comp (b := inject_Z (Z.of_nat n - 1))).
  - rewrite round_half_even_Z. lia.
  - apply clamp_above; [|exact Hu].
    change 0 with (inject_Z 0). rewrite <- Zle_Qle. lia.
Qed.

Lemma nearest_index_inside n (u : Q) :
  0 <= u -> u <= inject_Z (Z.of_nat n - 1) ->
  nearest_index n u = Z.to_nat (round_half_even u).
Proof.
  intros H0 H1. unfold nearest_index. f_equal.
  apply round_half_even_comp. now apply clamp_inside.
Qed.

Lemma axis_frac_range (n : Z) (u : Q) :
  0 <= axis_frac n u /\ axis_frac n u < 1.
Proof.
  unfold axis_frac, floor. cbv zeta.
  set (v := clamp 0 (inject_Z (n - 2)) u).
  pose proof (Qfloor_le v) as L. pose proof (Qlt_floor v) as U.
  rewrite inject_Z_plus in U. change (inject_Z 1) with 1 in U.
  split; lra.
Qed.

Lemma floor_corner_low (n : nat) (u : Q) :
  (2 <= n)%nat -> u <= 0 ->
  Qfloor (clamp 0 (inject_Z (Z.of_nat n - 2)) u) = 0%Z /\
  axis_frac (Z.of_nat n) u == 0.
Proof.
  intros Hn Hu.
  assert (C : clamp 0 (inject_Z (Z.of_nat n - 2)) u == inject_Z 0).
  { apply clamp_below; [|exact Hu].
    change 0 with (inject_Z 0). rewrite <- Zle_Qle. lia. }
  split.
  - now rewrite (Qfloor_comp _ _ C), Qfloor_Z.
  - unfold axis_frac, floor. rewrite (Qfloor_comp _ _ C), Qfloor_Z, C. ring.
Qed.

Lemma floor_corner_high (n : nat) (u : Q) :
  (2 <= n)%nat -> inject_Z (Z.of_nat n - 2) <= u ->
  Qfloor (clamp 0 (inject_Z (Z.of_nat n - 2)) u) = (Z.of_nat n - 2)%Z /\
  axis_frac (Z.of_nat n) u == 0.
Proof.
  intros Hn Hu.
  assert (C : clamp 0 (inject_Z (Z.of_nat n - 2)) u == inject_Z (Z.of_nat n - 2)).
  { apply clamp_above; [|exact Hu].
    change 0 with (inject_Z 0). rewrite <- Zle_Qle. lia. }
  split.
  - now rewrite (Qfloor_comp _ _ C), Qfloor_Z.
  - unfold axis_frac, floor. rewrite (Qfloor_comp _ _ C), Qfloor_Z, C. ring.
Qed.

(** C7.  A coordinate outside the valid range is clamped, neither wrapped
    nor left out of range.  On a row-major image with fewer than [2^24]
    pixels per channel and a grid of one coordinate row per pixel:

    - the nearest resampler returns, at every output pixel and in every
      channel, the source pixel whose row and column are the coordinates
      clamped to [[0, size - 1]] and then rounded; that index is below the
      size, is [0] for a coordinate at or below 0 and [size - 1] for a
      coordinate at or above [size - 1];
    - the bilinear resampler (one channel, at least two rows and columns)
      returns the blend, taken in exact arithmetic, of the four source
      pixels around the coordinates clamped to [[0, size - 2]]: the floor
      corner lies in [[0, size - 2]], it is [0] with fraction 0 for a
      coordinate at or below 0, and [size - 2] with fraction 0 for a
      coordinate at or above [size - 2];
    - [-5] on an axis of size 10 resolves as index [0] in nearest mode,
      and as floor corner [0] with fraction 0, inside [[0, 8]], in
      bilinear mode. *)
Theorem out_of_range_is_clamped :
  (forall x c h w coords ch i j,
     size x = [c; h; w] -> (1 <= h)%nat -> (1 <= w)%nat ->
     (Z.of_nat (h * w) < 2 ^ 24)%Z -> row_major x ->
     Forall (fun r => length r = 2%nat) coords ->
     length coords = (h * w)%nat ->
     (ch < c)%nat -> (i < h)%nat -> (j < w)%nat ->
     exists out,
       call th_nearest_interp_2d x coords = Ok out /\
       pixel out ch i j =
       pixel x ch (nearest_index h (nth 0 (nth (i * w + j) coords []) 0))
                  (nearest_index w (nth 1 (nth (i * w + j) coords []) 0))) /\
  (forall n u, (1 <= n)%nat ->
     (nearest_index n u < n)%nat /\
     (u <= 0 -> nearest_index n u = 0%nat) /\
     (inject_Z (Z.of_nat n - 1) <= u -> nearest_index n u = (n - 1)%nat) /\
     (0 <= u -> u <= inject_Z (Z.of_nat n - 1) ->
      nearest_index n u = Z.to_nat (round_half_even u))) /\
  (forall x h w coords i j,
     size x = [1; h; w]%nat -> (2 <= h)%nat -> (2 <= w)%nat ->
     (Z.of_nat (h * w) < 2 ^ 24)%Z -> row_major x ->
     Forall (fun r => length r = 2%nat) coords ->
     length coords = (h * w)%nat ->
     (i < h)%nat -> (j < w)%nat ->
     exists out,
       call th_bilinear_interp_2d x coords = Ok out /\
       size out = size x /\
       pixel out 0 i j ==
       bilinear_at x h w (nth 0 (nth (i * w + j) coords []) 0)
                         (nth 1 (nth (i * w + j) coords []) 0)) /\
  (forall n u, (2 <= n)%nat ->
     (0 <= Qfloor (clamp 0 (inject_Z (Z.of_nat n - 2)) u) <= Z.of_nat n - 2)%Z /\
     (0 <= axis_frac (Z.of_nat n) u /\ axis_frac (Z.of_nat n) u < 1) /\
     (u <= 0 ->
      Qfloor (clamp 0 (inject_Z (Z.of_nat n - 2)) u) = 0%Z /\
      axis_frac (Z.of_nat n) u == 0) /\
     (inject_Z (Z.of_nat n - 2) <= u ->
      Qfloor (clamp 0 (inject_Z (Z.of_nat n - 2)) u) = (Z.of_nat n - 2)%Z /\
      axis_frac (Z.of_nat n) u == 0)) /\
  (nearest_index 10 (-5 # 1) = 0%nat /\
   Qfloor (clamp 0 (inject_Z (10 - 2)) (-5 # 1)) = 0%Z /\
   axis_frac 10 (-5 # 1) == 0).
Proof.
  split; [|split; [|split; [|split]]].
  - intros x c h w coords ch i j Hsz Hh Hw Hb Hrm Hwid Hlen Hch Hi Hj.
    now apply (@nearest_pixel x c h w coords ch i j).
  - intros n u Hn. split; [now apply nearest_index_lt|].
    split; [now apply nearest_index_low|].
    split; [now apply nearest_index_high | apply nearest_index_inside].
  - intros x h w coords i j Hsz Hh Hw Hb Hrm Hwid Hlen Hi Hj.
    now apply (@bilinear_pixel x h w coords i j).
  - intros n u Hn. split; [apply Qfloor_clamp_range; lia|].
    split; [apply axis_frac_range|].
    split; [now apply floor_corner_low | now apply floor_corner_high].
  - split; [reflexivity|]. split; [reflexivity|]. reflexivity.
Qed.

Lemma out_of_range_is_clamped_witness :
  (exists out,
     call th_nearest_interp_2d ramp_image
       [[-5 # 1; 7]; [0; 0]; [0; 0]; [0; 0]; [0; 0]; [9; -3 # 1]] = Ok out /\
     pixel out 0 0 0 = pixel ramp_image 0 0 2 /\
     pixel out 0 1 2 = pixel ramp_image 0 1 0) /\
  (exists out,
     call th_bilinear_interp_2d ramp_image
       [[-5 # 1; 7]; [0; 0]; [0; 0]; [0; 0]; [0; 0]; [9; 1 # 2]] = Ok out /\
     pixel out 0 0 0 == 11 /\ pixel out 0 1 2 == 21 # 2).
Proof.
  destruct out_of_range_is_clamped as (N & _ & B & _).
  split.
  - set (grid := [[-5 # 1; 7]; [0; 0]; [0; 0]; [0; 0]; [0; 0]; [9; -3 # 1]]).
    assert (Hrm : row_major ramp_image) by (split; reflexivity).
    assert (Hw : Forall (fun r => length r = 2%nat) grid) by (repeat constructor).
    destruct (N ramp_image 1 2 3 grid 0 0 0)%nat as [out [E P]];
      try reflexivity; try lia; try assumption.
    destruct (N ramp_image 1 2 3 grid 0 1 2)%nat as [out' [E' P']];
      try reflexivity; try lia; try assumption.
    exists out. split; [exact E|]. split; [exact P|].
    assert (out' = out) by congruence. subst out'. exact P'.
  - set (grid := [[-5 # 1; 7]; [0; 0]; [0; 0]; [0; 0]; [0; 0]; [9; 1 # 2]]).
    assert (Hrm : row_major ramp_image) by (split; reflexivity).
    assert (Hw : Forall (fun r => length r = 2%nat) grid) by (repeat constructor).
    destruct (B ramp_image 2 3 grid 0 0)%nat as [out [E [_ P]]];
      try reflexivity; try lia; try assumption.
    destruct (B ramp_image 2 3 grid 1 2)%nat as [out' [E' [_ P']]];
      try reflexivity; try lia; try assumption.
    exists out. split; [exact E|].
    assert (out' = out) by congruence. subst out'.
    split; [rewrite P | rewrite P']; vm_compute; reflexivity.
Defined.
